(** * Yerna: package selection and package.json mangling

    A shallow embedding of [src/bin/yerna] and
    [src/lib/yarn-with-package-json-mangling.js], with the properties of the
    selection engine, of the manifest mutation guard and of the process
    wrapper stated and proved over it.

    Layout: the ECMAScript and lodash primitives the program relies on
    ([Js]), the package descriptors handed over by lib/packages
    ([Packages]), the two source files ([Mangling], [Yerna]), sample data
    ([Samples]), then the lemmas and theorems. *)

From Stdlib Require Import String Ascii List Bool Arith NArith ZArith QArith.
From Stdlib Require Import Qround Lia Lqa Sorted Permutation.
Import ListNotations.

Local Close Scope Q_scope.
Local Open Scope string_scope.
Local Open Scope list_scope.

(* ================================================================== *)
(** * ECMAScript and lodash primitives *)
(* ================================================================== *)

Module Js.

(** Abrupt completions.  [FuelExhausted] is not a JavaScript outcome: it is
    what the bounded model of a [while] loop answers when its iteration
    budget is too small, and it is shown unreachable below. *)
Inductive exn : Type :=
| TypeError
| SyntaxError
| ENOENT
| Error (message : string)
| ProcessExit (code : Z)
| FuelExhausted.

Inductive result (A : Type) : Type :=
| Ok (a : A)
| Throw (e : exn).

Arguments Ok {A} a.
Arguments Throw {A} e.

Definition bind {A B : Type} (r : result A) (k : A -> result B) : result B :=
  match r with
  | Ok a => k a
  | Throw e => Throw e
  end.

Notation "x <- r ;; k" := (bind r (fun x => k))
  (at level 61, r at next level, right associativity).

(** [array.filter(f)] and [_.flatMap(array, f)] with a callback that may
    throw: elements are visited left to right and the first exception
    aborts the whole call. *)
Fixpoint filterM {A : Type} (f : A -> result bool) (l : list A) : result (list A) :=
  match l with
  | [] => Ok []
  | x :: r =>
      b <- f x ;;
      r' <- filterM f r ;;
      Ok (if b then x :: r' else r')
  end.

Fixpoint flatMapM {A B : Type} (f : A -> result (list B)) (l : list A) : result (list B) :=
  match l with
  | [] => Ok []
  | x :: r =>
      ys <- f x ;;
      r' <- flatMapM f r ;;
      Ok (ys ++ r')
  end.

(** ** Strings

    Strings are sequences of code units and [<] on strings compares them
    code unit by code unit; package names are ASCII, one byte per code
    unit. *)
Definition str_lt (a b : string) : Prop := String.ltb a b = true.

(** ** Ordinary objects

    An object is the list of its own enumerable string-keyed properties in
    property order (the order of [Object.keys], [for-in], [_.forEach] and
    [JSON.stringify]).  OrdinaryOwnPropertyKeys lists the array-index keys
    first, in ascending numeric order, and then the other keys in the order
    they were created. *)
Definition obj (V : Type) : Type := list (string * V).

Definition digit (c : ascii) : option N :=
  let n := N_of_ascii c in
  if ((48 <=? n) && (n <=? 57))%N then Some (n - 48)%N else None.

Fixpoint digits (s : string) (acc : N) : option N :=
  match s with
  | EmptyString => Some acc
  | String c r =>
      match digit c with
      | Some d => digits r (10 * acc + d)%N
      | None => None
      end
  end.

(** An array index is a canonical numeric string (no sign, no leading
    zero) denoting an integer below 2^32 - 1. *)
Definition arrayIndex (k : string) : option N :=
  match k with
  | EmptyString => None
  | String c r =>
      if Ascii.eqb c "0"%char
      then match r with EmptyString => Some 0%N | _ => None end
      else match digits k 0 with
           | Some n => if (n <? 4294967295)%N then Some n else None
           | None => None
           end
  end.

(** The properties every ordinary object inherits from [Object.prototype]:
    [__proto__] is an accessor that answers [Object.prototype] itself, the
    others are functions.  None of them is enumerable, and an own property
    of the same name hides them. *)
Definition objectPrototypeNames : list string :=
  ["constructor"; "__defineGetter__"; "__defineSetter__"; "hasOwnProperty";
   "__lookupGetter__"; "__lookupSetter__"; "isPrototypeOf";
   "propertyIsEnumerable"; "toString"; "valueOf"; "__proto__";
   "toLocaleString"].

Definition inherited (k : string) : bool :=
  existsb (String.eqb k) objectPrototypeNames.

(** [member.name] of the member inherited under [k]: the name of the
    function ([Object] for [constructor]), and [undefined] for
    [Object.prototype], which has no such property. *)
Definition inheritedName (k : string) : option string :=
  if String.eqb k "__proto__" then None
  else if String.eqb k "constructor" then Some "Object"
  else Some k.

Section Objects.
Context {V : Type}.

(** The own property [k] of [o]: [None] when [o] has none. *)
Fixpoint obj_get (k : string) (o : obj V) : option V :=
  match o with
  | [] => None
  | (k', v) :: r => if String.eqb k' k then Some v else obj_get k r
  end.

Definition obj_has (k : string) (o : obj V) : bool :=
  match obj_get k o with Some _ => true | None => false end.

Definition obj_keys (o : obj V) : list string := map fst o.

(** Assignment to an existing property keeps its place. *)
Fixpoint obj_replace (k : string) (v : V) (o : obj V) : obj V :=
  match o with
  | [] => []
  | (k', v') :: r =>
      if String.eqb k' k then (k', v) :: r else (k', v') :: obj_replace k v r
  end.

(** Creation of the array-index property [k] (index [i]). *)
Fixpoint obj_insert_index (i : N) (k : string) (v : V) (o : obj V) : obj V :=
  match o with
  | [] => [(k, v)]
  | (k', v') :: r =>
      match arrayIndex k' with
      | Some j =>
          if (j <? i)%N then (k', v') :: obj_insert_index i k v r
          else (k, v) :: o
      | None => (k, v) :: o
      end
  end.

(** [o[k] = v] for a primitive [v].  An object with no own property
    [__proto__] hands an assignment to that key over to the setter it
    inherits from [Object.prototype], which ignores a value that is not an
    object: no property is created.  ([JSON.parse] does create such an own
    property, and an assignment then changes its value like any other.) *)
Definition obj_set (k : string) (v : V) (o : obj V) : obj V :=
  if obj_has k o then obj_replace k v o
  else if String.eqb k "__proto__" then o
  else match arrayIndex k with
       | Some i => obj_insert_index i k v o
       | None => o ++ [(k, v)]
       end.

(** [delete o[k]]. *)
Definition obj_delete (k : string) (o : obj V) : obj V :=
  filter (fun e => negb (String.eqb (fst e) k)) o.

(** The lists that are property lists of an object: distinct keys, the
    array indices first and ascending. *)
Definition key_before (k k' : string) : bool :=
  match arrayIndex k, arrayIndex k' with
  | Some i, Some j => (i <? j)%N
  | Some _, None => true
  | None, Some _ => false
  | None, None => true
  end.

Fixpoint keys_ordered (ks : list string) : bool :=
  match ks with
  | [] => true
  | k :: r => forallb (key_before k) r && keys_ordered r
  end.

Fixpoint distinct (ks : list string) : bool :=
  match ks with
  | [] => true
  | k :: r => negb (existsb (String.eqb k) r) && distinct r
  end.

Definition obj_ok (o : obj V) : bool :=
  distinct (obj_keys o) && keys_ordered (obj_keys o).
End Objects.

(** ** lodash collections *)
Section Collections.
Context {A : Type}.
Variable key : A -> string.

(** [_.sortBy(array, key)]: a stable sort, ascending by [key]. *)
Fixpoint sortBy_insert (x : A) (l : list A) : list A :=
  match l with
  | [] => [x]
  | y :: r =>
      if String.leb (key x) (key y) then x :: y :: r
      else y :: sortBy_insert x r
  end.

Definition sortBy (l : list A) : list A := fold_right sortBy_insert [] l.

(** [_.uniqBy(array, key)]: the first element of each key is kept. *)
Fixpoint uniqBy_from (seen : list string) (l : list A) : list A :=
  match l with
  | [] => []
  | x :: r =>
      if existsb (String.eqb (key x)) seen then uniqBy_from seen r
      else x :: uniqBy_from (key x :: seen) r
  end.

Definition uniqBy (l : list A) : list A := uniqBy_from [] l.
End Collections.

(** [array.indexOf(x) === -1] on an array of strings. *)
Definition notIndexOf (l : list string) (x : string) : bool :=
  negb (existsb (String.eqb x) l).

(** ** Numbers

    A Number is NaN, an infinity or a finite double.  Finite doubles are
    rationals, and the operations used by the program (comparison with 0,
    [Math.round], [===]) are exact on them; only the conversion from a
    string rounds. *)
Inductive number : Type :=
| NaN
| Infinity (negative : bool)
| Finite (q : Q).

(** [x <= 0]. *)
Definition le_zero (x : number) : bool :=
  match x with
  | NaN => false
  | Infinity negative => negative
  | Finite q => Qle_bool q 0%Q
  end.

(** [Math.round(x)]: the integer nearest to [x], ties towards +Infinity. *)
Definition Math_round (x : number) : number :=
  match x with
  | Finite q => Finite (inject_Z (Qfloor (q + (1 # 2))%Q))
  | _ => x
  end.

(** [x === y] on Numbers: NaN differs from everything, itself included. *)
Definition strict_eq (x y : number) : bool :=
  match x, y with
  | Finite p, Finite q => Qeq_bool p q
  | Infinity a, Infinity b => Bool.eqb a b
  | _, _ => false
  end.

End Js.

Import Js.

(* ================================================================== *)
(** * Package descriptors *)
(* ================================================================== *)

Module Packages.

(** What lib/packages hands over for one package: its name, its directory,
    its scripts and its edges inside the monorepo, in both directions. *)
Record Package : Type := {
  name : string;
  path : string;
  scripts : obj string;
  localDependencies : list string;
  localDependents : list string
}.

(** [packagesByName] is the object built by [getPackages], an ordinary
    object keyed by each package's own name: it is kept as the list of its
    values in property order, and its own properties are searched by
    name. *)
Definition PackagesByName : Type := list Package.

(** The own property [packageName] of [packagesByName]. *)
Definition lookup (packagesByName : PackagesByName) (packageName : string)
  : option Package :=
  find (fun p => String.eqb (name p) packageName) packagesByName.

(** What a property access on [packagesByName] can answer: a package, or a
    member inherited from [Object.prototype]. *)
Inductive member : Type :=
| Declared (p : Package)
| Inherited (k : string).

(** [packagesByName[packageName]]: the own property if there is one, the
    inherited member otherwise; [None] stands for [undefined]. *)
Definition get (packagesByName : PackagesByName) (packageName : string)
  : option member :=
  match lookup packagesByName packageName with
  | Some p => Some (Declared p)
  | None => if inherited packageName then Some (Inherited packageName) else None
  end.

End Packages.

Import Packages.

(* ================================================================== *)
(** * src/lib/yarn-with-package-json-mangling.js *)
(* ================================================================== *)

Module Mangling.

(** The two dependency-bearing fields: each is absent or a mapping from
    package name to version string.  The same shape serves for the
    manifest and for [removedDependencies], the token [mangle] returns. *)
Record DependencyFields : Type := {
  dependencies : option (obj string);
  devDependencies : option (obj string)
}.

(** A manifest: the two dependency fields, and every other member with
    the JSON text of its value, which the program never looks into. *)
Record PackageJson : Type := {
  depFields : DependencyFields;
  otherFields : obj string
}.

(** The keys of [[ 'dependencies', 'devDependencies' ]]. *)
Inductive depKey : Type := Kdependencies | KdevDependencies.

Definition depKeys : list depKey := [Kdependencies; KdevDependencies].

Definition field (key : depKey) (d : DependencyFields) : option (obj string) :=
  match key with
  | Kdependencies => dependencies d
  | KdevDependencies => devDependencies d
  end.

Definition set_field (key : depKey) (v : option (obj string)) (d : DependencyFields)
  : DependencyFields :=
  match key with
  | Kdependencies => {| dependencies := v; devDependencies := devDependencies d |}
  | KdevDependencies => {| dependencies := dependencies d; devDependencies := v |}
  end.

(** An in-place change of the object held by field [key]. *)
Definition on_field (key : depKey) (f : obj string -> obj string) (d : DependencyFields)
  : DependencyFields :=
  match field key d with
  | Some o => set_field key (Some (f o)) d
  | None => d
  end.

Definition no_fields : DependencyFields :=
  {| dependencies := None; devDependencies := None |}.

(** The file system, as far as this module uses it: the manifest stored at
    each path, already parsed ([JSON.parse] after [JSON.stringify] gives the
    value back). *)
Definition fs : Type := string -> option PackageJson.

Definition readFileSync (packageJsonPath : string) (disk : fs) : result PackageJson :=
  match disk packageJsonPath with
  | Some m => Ok m
  | None => Throw ENOENT
  end.

Definition writeFileSync (packageJsonPath : string) (m : PackageJson) (disk : fs) : fs :=
  fun p => if String.eqb p packageJsonPath then Some m else disk p.

(** [alphabetizeKeys]: the own keys are sorted and assigned, in that
    order, to a fresh object. *)
Definition alphabetizeKeys (object : obj string) : obj string :=
  fold_left
    (fun alphabetizedObject k =>
       match obj_get k object with
       | Some v => obj_set k v alphabetizedObject
       | None => alphabetizedObject
       end)
    (sortBy (fun k => k) (obj_keys object))
    [].

(** The body of the [_.forEach] of [manglePackageJson] for one entry.
    [_.forEach] walks the keys the object had when the loop started, and
    the callback only ever deletes the key it is visiting.  The test is
    the truthiness of [packagesByName[packageName]]: packages, functions
    and [Object.prototype] are all truthy. *)
Definition mangleEntry (packagesByName : PackagesByName) (key : depKey)
    (st : DependencyFields * DependencyFields) (entry : string * string)
  : DependencyFields * DependencyFields :=
  let '(mangledPackageJson, removedDependencies) := st in
  let '(packageName, version) := entry in
  match get packagesByName packageName with
  | Some _ =>
      (on_field key (obj_delete packageName) mangledPackageJson,
       on_field key (obj_set packageName version) removedDependencies)
  | None => st
  end.

(** The body of the outer [forEach] for one of the two keys. *)
Definition mangleField (packagesByName : PackagesByName)
    (st : DependencyFields * DependencyFields) (key : depKey)
  : DependencyFields * DependencyFields :=
  let '(mangledPackageJson, removedDependencies) := st in
  match field key mangledPackageJson with
  | Some entries =>
      fold_left (mangleEntry packagesByName key) entries
        (mangledPackageJson, set_field key (Some []) removedDependencies)
  | None => st
  end.

(** [manglePackageJson] between the read and the write. *)
Definition mangle (packagesByName : PackagesByName) (packageJson : PackageJson)
  : PackageJson * DependencyFields :=
  let '(mangled, removedDependencies) :=
    fold_left (mangleField packagesByName) depKeys (depFields packageJson, no_fields) in
  ({| depFields := mangled; otherFields := otherFields packageJson |},
   removedDependencies).

Definition manglePackageJson (packageJsonPath : string)
    (packagesByName : PackagesByName) (disk : fs)
  : result (DependencyFields * fs) :=
  packageJson <- readFileSync packageJsonPath disk ;;
  let '(mangledPackageJson, removedDependencies) := mangle packagesByName packageJson in
  Ok (removedDependencies, writeFileSync packageJsonPath mangledPackageJson disk).

(** [_.merge] of one version string into the object of a field
    (assignMergeValue: the assignment [object[key] = value] is skipped when
    the value is already there; a member the object inherits under [key]
    is no string, so only an own property can hold the value). *)
Definition mergeEntry (object : obj string) (entry : string * string) : obj string :=
  let '(k, srcValue) := entry in
  match obj_get k object with
  | Some objValue =>
      if String.eqb objValue srcValue then object else obj_set k srcValue object
  | None => obj_set k srcValue object
  end.

(** [_.merge] for one key of the token (baseMergeDeep): the source object
    is merged into the object the manifest holds there, or into a fresh
    one when the manifest holds none. *)
Definition mergeField (mangleToken : DependencyFields)
    (object : DependencyFields) (key : depKey) : DependencyFields :=
  match field key mangleToken with
  | Some srcValue =>
      let objValue := match field key object with Some o => o | None => [] end in
      set_field key (Some (fold_left mergeEntry srcValue objValue)) object
  | None => object
  end.

(** [_.merge(unmangledPackageJson, mangleToken)]. *)
Definition merge (object mangleToken : DependencyFields) : DependencyFields :=
  fold_left (mergeField mangleToken) depKeys object.

Definition alphabetizeField (unmangledPackageJson : DependencyFields) (key : depKey)
  : DependencyFields :=
  match field key unmangledPackageJson with
  | Some o => set_field key (Some (alphabetizeKeys o)) unmangledPackageJson
  | None => unmangledPackageJson
  end.

(** [unmanglePackageJson] between the read and the write. *)
Definition unmangle (mangleToken : DependencyFields) (packageJson : PackageJson)
  : PackageJson :=
  {| depFields := fold_left alphabetizeField depKeys (merge (depFields packageJson) mangleToken);
     otherFields := otherFields packageJson |}.

Definition unmanglePackageJson (packageJsonPath : string)
    (mangleToken : DependencyFields) (disk : fs) : result fs :=
  packageJson <- readFileSync packageJsonPath disk ;;
  Ok (writeFileSync packageJsonPath (unmangle mangleToken packageJson) disk).

(** ** The process wrapper

    The event emitters the wrapper touches: the ['exit'] listeners of the
    parent process, and for each spawned child its pending [once('exit')]
    listeners and the signals sent to it.  A closure is represented by what
    it captured. *)
Inductive listener : Type :=
| killOnExit (child : nat).

Inductive onceListener : Type :=
| onChildExit (packageJsonPath : string) (mangleToken : DependencyFields)
              (hook : listener).

Record ChildProcess : Type := {
  spawnfile : string;
  spawnargs : list string;
  exitOnce : list onceListener;
  kills : nat
}.

(** What the wrapper did, in order. *)
Inductive action : Type :=
| Mangled (packageJsonPath : string)
| Spawned (child : nat)
| Unmangled (packageJsonPath : string)
| HookRemoved (child : nat).

Record world : Type := {
  disk : fs;
  processExitListeners : list listener;
  children : list ChildProcess;
  trace : list action
}.

Record SpawnArgs : Type := { cwd : option string }.

(** [path.resolve(dir, 'package.json')] for an absolute [dir] in normal
    form (no [.], [..] or empty segment, no trailing separator), which is
    what [process.cwd()] answers; other directories are outside the
    model. *)
Definition path_resolve (dir file : string) : string := dir ++ "/" ++ file.

Definition listener_eqb (a b : listener) : bool :=
  match a, b with killOnExit x, killOnExit y => Nat.eqb x y end.

(** [emitter.removeListener]: the most recently added instance goes. *)
Fixpoint removeListener (l : list listener) (f : listener) : list listener :=
  match l with
  | [] => []
  | g :: r =>
      if listener_eqb g f && negb (existsb (listener_eqb f) r) then r
      else g :: removeListener r f
  end.

Definition set_child (c : nat) (f : ChildProcess -> ChildProcess)
    (cs : list ChildProcess) : list ChildProcess :=
  match nth_error cs c with
  | Some ch => firstn c cs ++ f ch :: skipn (S c) cs
  | None => cs
  end.

(** [path.resolve(spawnArgs.cwd || process.cwd(), 'package.json')]. *)
Definition manifestPath (spawnArgs : SpawnArgs) (process_cwd : string) : string :=
  path_resolve (match cwd spawnArgs with
                | Some d => if String.eqb d EmptyString then process_cwd else d
                | None => process_cwd
                end) "package.json".

Definition runYarnWithPackageJsonMangling (args : list string) (spawnArgs : SpawnArgs)
    (packagesByName : PackagesByName) (process_cwd : string) (w : world)
  : result (nat * world) :=
  let packageJsonPath := manifestPath spawnArgs process_cwd in
  r <- manglePackageJson packageJsonPath packagesByName (disk w) ;;
  let '(mangleToken, disk1) := r in
  let child := length (children w) in
  let hook := killOnExit child in
  Ok (child,
      {| disk := disk1;
         processExitListeners := processExitListeners w ++ [hook];
         children := children w ++
           [{| spawnfile := "yarn"; spawnargs := args;
               exitOnce := [onChildExit packageJsonPath mangleToken hook];
               kills := 0 |}];
         trace := trace w ++ [Mangled packageJsonPath; Spawned child] |}).

(** The listener registered by [child.once('exit', ...)]. *)
Definition runOnce (w : world) (l : onceListener) : result world :=
  match l with
  | onChildExit packageJsonPath mangleToken hook =>
      disk1 <- unmanglePackageJson packageJsonPath mangleToken (disk w) ;;
      Ok {| disk := disk1;
            processExitListeners := removeListener (processExitListeners w) hook;
            children := children w;
            trace := trace w ++
              [Unmangled packageJsonPath;
               HookRemoved (match hook with killOnExit c => c end)] |}
  end.

Fixpoint runAll (ls : list onceListener) (w : world) : result world :=
  match ls with
  | [] => Ok w
  | l :: r => w1 <- runOnce w l ;; runAll r w1
  end.

(** The child emits ['exit'] (whatever the code and the signal): its
    [once] listeners are taken off the emitter, then called. *)
Definition emitChildExit (child : nat) (code : option Z) (signal : option string)
    (w : world) : result world :=
  match nth_error (children w) child with
  | Some ch =>
      runAll (exitOnce ch)
        {| disk := disk w;
           processExitListeners := processExitListeners w;
           children := set_child child
             (fun c => {| spawnfile := spawnfile c; spawnargs := spawnargs c;
                          exitOnce := []; kills := kills c |}) (children w);
           trace := trace w |}
  | None => Ok w
  end.

(** The parent process emits ['exit']: every [killOnExit] still attached
    signals its child. *)
Definition emitProcessExit (w : world) : world :=
  fold_left
    (fun w1 l =>
       match l with
       | killOnExit c =>
           {| disk := disk w1;
              processExitListeners := processExitListeners w1;
              children := set_child c
                (fun ch => {| spawnfile := spawnfile ch; spawnargs := spawnargs ch;
                              exitOnce := exitOnce ch; kills := S (kills ch) |})
                (children w1);
              trace := trace w1 |}
       end)
    (processExitListeners w) w.

End Mangling.

(* ================================================================== *)
(** * src/bin/yerna *)
(* ================================================================== *)

Module Yerna.

(** The options [commander] holds once the command line is parsed. *)
Record Commander : Type := {
  include : list string;
  exclude : list string;
  dependents : bool;
  dependencies : bool
}.

(** ** The parallel option *)
Section Parallel.
(** [+n] on a string, the ToNumber conversion of the language. *)
Variable ToNumber : string -> number.

(** [optParallel(n)]; [None] stands for [null] and [undefined].  An
    invalid value prints the error message and leaves through
    [process.exit(1)]. *)
Definition optParallel (n : option string) : result number :=
  match n with
  | None => Throw (ProcessExit 1)
  | Some s =>
      if le_zero (ToNumber s) || negb (strict_eq (Math_round (ToNumber s)) (ToNumber s))
      then Throw (ProcessExit 1)
      else Ok (ToNumber s)
  end.

(** [commander.parallel] after
    [.option('-p, --parallel <n>', ..., optParallel, 4)]: the default
    when the option is absent, [optParallel] of its argument otherwise. *)
Definition parallel (supplied : option string) : result number :=
  match supplied with
  | None => Ok (Finite (inject_Z 4))
  | Some s => optParallel (Some s)
  end.
End Parallel.

(** ** Transitive dependents and dependencies *)
Inductive typeKey : Type := KlocalDependents | KlocalDependencies.

(** [currentPackage[typeKey]]. *)
Definition edges (key : typeKey) (p : Package) : list string :=
  match key with
  | KlocalDependents => localDependents p
  | KlocalDependencies => localDependencies p
  end.

(** The [while (packageQueue.length)] loop of
    [findTransitiveDependentsOrDependencies], with an iteration budget.  An
    [undefined] taken from the queue makes [currentPackage.name] throw.  An
    inherited member has no [localDependents] or [localDependencies]: once
    its name is pushed, [currentPackage[typeKey].map] throws; its name is
    [undefined] ([Object.prototype]), which [indexOf] never finds in an
    array of strings, or the name of the function. *)
Fixpoint whileQueue (fuel : nat) (allPackages : PackagesByName) (key : typeKey)
    (selectedPackageNames : list string) (packageQueue : list (option member))
  : result (list string) :=
  match packageQueue with
  | [] => Ok selectedPackageNames
  | currentPackage :: rest =>
      match fuel with
      | O => Throw FuelExhausted
      | S fuel' =>
          match currentPackage with
          | None => Throw TypeError
          | Some (Declared p) =>
              if notIndexOf selectedPackageNames (name p)
              then whileQueue fuel' allPackages key
                     (selectedPackageNames ++ [name p])
                     (rest ++ map (get allPackages) (edges key p))
              else whileQueue fuel' allPackages key selectedPackageNames rest
          | Some (Inherited k) =>
              match inheritedName k with
              | Some n =>
                  if notIndexOf selectedPackageNames n then Throw TypeError
                  else whileQueue fuel' allPackages key selectedPackageNames rest
              | None => Throw TypeError
              end
          end
      end
  end.

(** A budget no run of the loop exceeds: one iteration for the root and
    one for every edge of the graph. *)
Definition budget (allPackages : PackagesByName) (key : typeKey) : nat :=
  S (list_sum (map (fun p => length (edges key p)) allPackages)).

(** The final [selectedPackageNames.map(packageName => allPackages[packageName])].
    The loop only ever pushes the name of a package it found in
    [allPackages] under that name, so every access answers a package
    (lemma [collect_after_loop]); the other branch is never taken. *)
Fixpoint collect (allPackages : PackagesByName) (names : list string)
  : result (list Package) :=
  match names with
  | [] => Ok []
  | n :: r =>
      match get allPackages n with
      | Some (Declared p) => ps <- collect allPackages r ;; Ok (p :: ps)
      | _ => Throw TypeError
      end
  end.

Definition findTransitiveDependentsOrDependencies (allPackages : PackagesByName)
    (rootPackageName : string) (key : typeKey) : result (list Package) :=
  selectedPackageNames <-
    whileQueue (budget allPackages key) allPackages key []
      [get allPackages rootPackageName] ;;
  collect allPackages selectedPackageNames.

Section Selection.
Variable commander : Commander.

(** The regular expression engine: [new RegExp(source)], which throws a
    SyntaxError on a source that does not compile, and [regex.test]. *)
Variable RegExp : Type.
Variable newRegExp : string -> option RegExp.
Variable test : RegExp -> string -> bool.

Definition maybeIncludeDependentsAndDependencies (allPackages : PackagesByName)
    (package : Package) : result (list Package) :=
  let packages := [package] in
  packages <-
    (if dependents commander
     then more <- flatMapM
            (fun pkg => findTransitiveDependentsOrDependencies allPackages
                          (name pkg) KlocalDependents) packages ;;
          Ok (packages ++ more)
     else Ok packages) ;;
  packages <-
    (if dependencies commander
     then more <- flatMapM
            (fun pkg => findTransitiveDependentsOrDependencies allPackages
                          (name pkg) KlocalDependencies) packages ;;
          Ok (packages ++ more)
     else Ok packages) ;;
  Ok (uniqBy name packages).

(** [patterns.some(regex => new RegExp(regex).test(s))]. *)
Fixpoint some_test (patterns : list string) (s : string) : result bool :=
  match patterns with
  | [] => Ok false
  | regex :: rest =>
      match newRegExp regex with
      | None => Throw SyntaxError
      | Some r => if test r s then Ok true else some_test rest s
      end
  end.

Definition applyIncludeExclude (package : Package) : result bool :=
  included <-
    (if Nat.eqb (length (include commander)) 0 then Ok true
     else some_test (include commander) (name package)) ;;
  if included
  then (if Nat.eqb (length (exclude commander)) 0 then Ok true
        else excluded <- some_test (exclude commander) (name package) ;;
             Ok (negb excluded))
  else Ok false.

(** [getSelectedPackages(additionalFilter)], given what [fs.existsSync]
    and [getPackages] answer; of the returned record, the
    [selectedPackages]. *)
Definition getSelectedPackages (packagesPathExists : bool)
    (packagesByName : PackagesByName) (additionalFilter : Package -> bool)
  : result (list Package) :=
  if negb packagesPathExists then Throw (Error "path does not exist")
  else
    matching <- filterM applyIncludeExclude packagesByName ;;
    expanded <- flatMapM (maybeIncludeDependentsAndDependencies packagesByName)
                  matching ;;
    Ok (filter additionalFilter (sortBy name (uniqBy name expanded))).
End Selection.

(** The default [additionalFilter], and the one [performRun] passes. *)
Definition noFilter (package : Package) : bool := true.

(** [!!package.scripts[scriptName]]: a non-empty command, or a member the
    scripts object inherits. *)
Definition hasScript (scriptName : string) (package : Package) : bool :=
  match obj_get scriptName (scripts package) with
  | Some command => negb (String.eqb command EmptyString)
  | None => inherited scriptName
  end.

End Yerna.


(* ================================================================== *)
(** * Vocabulary of the properties *)
(* ================================================================== *)

Module Vocabulary.
Import Mangling Yerna.

Definition is_some {A : Type} (x : option A) : bool :=
  match x with Some _ => true | None => false end.

(** Ascending by [key], possibly with equal neighbours. *)
Definition ascending {A : Type} (key : A -> string) (a b : A) : Prop :=
  key a = key b \/ str_lt (key a) (key b).

(** [packageName] is the name of a package of the monorepo. *)
Definition excluded (packagesByName : PackagesByName) (packageName : string) : bool :=
  is_some (lookup packagesByName packageName).

Definition excludedEntry (packagesByName : PackagesByName) (e : string * string) : bool :=
  excluded packagesByName (fst e).

(** [packagesByName[packageName]] is truthy: the entry of that name is
    hidden from the external command. *)
Definition hidden (packagesByName : PackagesByName) (packageName : string) : bool :=
  is_some (get packagesByName packageName).

Definition keptEntry (packagesByName : PackagesByName) (e : string * string) : bool :=
  negb (hidden packagesByName (fst e)).

(** The hidden entries the token takes: all but [__proto__], which no
    assignment creates. *)
Definition recordedEntry (packagesByName : PackagesByName) (e : string * string) : bool :=
  hidden packagesByName (fst e) && negb (String.eqb (fst e) "__proto__").

(** The effect of one round of the inner loop of [manglePackageJson] on
    the object of the manifest and on the object of the token. *)
Definition deleteHidden (packagesByName : PackagesByName)
    (o : obj string) (e : string * string) : obj string :=
  if hidden packagesByName (fst e) then obj_delete (fst e) o else o.

Definition recordHidden (packagesByName : PackagesByName)
    (r : obj string) (e : string * string) : obj string :=
  if hidden packagesByName (fst e) then obj_set (fst e) (snd e) r else r.

(** The dependency fields of a manifest hold objects. *)
Definition fields_ok (d : DependencyFields) : bool :=
  forallb (fun key => match field key d with
                      | Some o => obj_ok o
                      | None => true
                      end) depKeys.

(** No name in the dependency fields is one every object inherits. *)
Definition no_inherited_name (d : DependencyFields) : bool :=
  forallb (fun key => match field key d with
                      | Some o => forallb (fun k => negb (inherited k)) (obj_keys o)
                      | None => true
                      end) depKeys.

(** The own property [n] of an optional object. *)
Definition entry (n : string) (o : option (obj string)) : option string :=
  match o with
  | Some d => obj_get n d
  | None => None
  end.

(** The file holds the manifest [m]. *)
Definition holds (disk : fs) (packageJsonPath : string) (m : PackageJson) : Prop :=
  disk packageJsonPath = Some m.

(** Strictly ascending keys. *)
Definition alphabetized (o : obj string) : Prop :=
  StronglySorted str_lt (obj_keys o).

Definition no_index_key (o : obj string) : Prop :=
  Forall (fun k => arrayIndex k = None) (obj_keys o).

(** ** Package graphs *)

(** Every edge of kind [key] leads to a package of the graph. *)
Definition closed (allPackages : PackagesByName) (key : typeKey) : bool :=
  forallb
    (fun p => forallb (fun n => is_some (lookup allPackages n)) (edges key p))
    allPackages.

(** The graph is closed along the edges the options ask to follow. *)
Definition graph_ok (commander : Commander) (allPackages : PackagesByName) : bool :=
  (if dependents commander then closed allPackages KlocalDependents else true) &&
  (if Yerna.dependencies commander then closed allPackages KlocalDependencies else true).

(** [reaches allPackages key a b]: the package named [b] is found from the
    package named [a] along edges of kind [key] (in no step, or more). *)
Inductive reaches (allPackages : PackagesByName) (key : typeKey)
  : string -> string -> Prop :=
| reaches_root a p :
    lookup allPackages a = Some p -> reaches allPackages key a a
| reaches_edge a b c p :
    reaches allPackages key a b ->
    lookup allPackages b = Some p ->
    In c (edges key p) ->
    reaches allPackages key a c.

(** The edges of the packages that are not collected yet: with the length
    of the queue, what the loop of
    [findTransitiveDependentsOrDependencies] has left to do. *)
Definition pending (allPackages : PackagesByName) (key : typeKey)
    (selectedPackageNames : list string) : nat :=
  list_sum
    (map (fun p => if notIndexOf selectedPackageNames (name p)
                   then length (edges key p) else 0)
       allPackages).

(** How many packages of [l] are named [n]. *)
Definition occurrences (n : string) (l : list Package) : nat :=
  length (filter (fun p => String.eqb (name p) n) l).

(** ** Patterns *)
Section Patterns.
Variable RegExp : Type.
Variable newRegExp : string -> option RegExp.
Variable test : RegExp -> string -> bool.

Definition compile_all (patterns : list string) : bool :=
  forallb (fun source => is_some (newRegExp source)) patterns.

Definition matches (source s : string) : bool :=
  match newRegExp source with
  | Some r => test r s
  | None => false
  end.
End Patterns.

(** ** Numbers *)

(** [x] is the positive integer [k]. *)
Definition is_positive_integer (x : number) (k : Z) : Prop :=
  (0 < k)%Z /\ exists q, x = Finite q /\ Qeq q (inject_Z k).

End Vocabulary.

(* ================================================================== *)
(** * The property order of objects, as a canonical form *)
(* ================================================================== *)

Module Canonical.
Import Mangling.

Fixpoint pow10 (n : nat) : N :=
  match n with
  | O => 1%N
  | S m => (10 * pow10 m)%N
  end.

(** The order in which an object built by [alphabetizeKeys] lists two of
    its keys: array indices by their number and before every other key,
    other keys as strings. *)
Definition canon_ltb (k k' : string) : bool :=
  match arrayIndex k, arrayIndex k' with
  | Some i, Some j => (i <? j)%N
  | Some _, None => true
  | None, Some _ => false
  | None, None => String.ltb k k'
  end.

Fixpoint canonical_keys (ks : list string) : bool :=
  match ks with
  | [] => true
  | k :: r => forallb (canon_ltb k) r && canonical_keys r
  end.

Definition canonical (o : obj string) : bool := canonical_keys (obj_keys o).

Definition fields_canonical (d : DependencyFields) : bool :=
  forallb (fun key => match field key d with
                      | Some o => canonical o
                      | None => true
                      end) depKeys.

(** The object has no own property [__proto__]. *)
Definition proto_free (o : obj string) : bool := negb (obj_has "__proto__" o).

Definition fields_proto_free (d : DependencyFields) : bool :=
  forallb (fun key => match field key d with
                      | Some o => proto_free o
                      | None => true
                      end) depKeys.

(** The token of a mangle that removed nothing: an empty object for each
    field the manifest has. *)
Definition emptied (d : DependencyFields) : DependencyFields :=
  {| dependencies := option_map (fun _ => []) (dependencies d);
     devDependencies := option_map (fun _ => []) (devDependencies d) |}.

End Canonical.

(* ================================================================== *)
(** * Vocabulary of the process wrapper *)
(* ================================================================== *)

Module LifecycleVocabulary.
Import Mangling.

(** A child after a signal, and after its ['exit'] listeners are taken off. *)
Definition signalled (ch : ChildProcess) : ChildProcess :=
  {| spawnfile := spawnfile ch; spawnargs := spawnargs ch;
     exitOnce := exitOnce ch; kills := S (kills ch) |}.

Definition exited (ch : ChildProcess) : ChildProcess :=
  {| spawnfile := spawnfile ch; spawnargs := spawnargs ch;
     exitOnce := []; kills := kills ch |}.

(** One listener of the parent's ['exit'] runs. *)
Definition killStep (w : world) (l : listener) : world :=
  match l with
  | killOnExit c =>
      {| disk := disk w;
         processExitListeners := processExitListeners w;
         children := set_child c signalled (children w);
         trace := trace w |}
  end.

(** Every hook attached to the parent belongs to a child that was spawned. *)
Definition hooks_in_range (w : world) : bool :=
  forallb (fun l => match l with killOnExit c => Nat.ltb c (length (children w)) end)
    (processExitListeners w).

(** The world left by a command that wrote to the file system and did
    nothing else. *)
Definition with_disk (w : world) (d : fs) : world :=
  {| disk := d; processExitListeners := processExitListeners w;
     children := children w; trace := trace w |}.


End LifecycleVocabulary.

(* ================================================================== *)
(** * Vocabulary of the expansion *)
(* ================================================================== *)

Module SelectionVocabulary.
Import Yerna Vocabulary.

(** The names [maybeIncludeDependentsAndDependencies] holds after its
    first step: the package itself and, with [--dependents], what is found
    from it along [localDependents]. *)
Definition with_dependents (commander : Commander) (allPackages : PackagesByName)
    (F : Package) (n : string) : Prop :=
  n = name F \/
  (dependents commander = true /\ reaches allPackages KlocalDependents (name F) n).

(** The names it returns: those, and with [--dependencies] what is found
    from any of them along [localDependencies]. *)
Definition expansion (commander : Commander) (allPackages : PackagesByName)
    (F : Package) (n : string) : Prop :=
  with_dependents commander allPackages F n \/
  (Yerna.dependencies commander = true /\
   exists q, with_dependents commander allPackages F q /\
             reaches allPackages KlocalDependencies q n).

(** A reachable package names, in an edge, something [allPackages] does
    not have: neither a package nor an inherited member. *)
Definition dangling (allPackages : PackagesByName) (key : typeKey) (root : string) : Prop :=
  exists b p c,
    reaches allPackages key root b /\ lookup allPackages b = Some p /\
    In c (edges key p) /\ get allPackages c = None.

End SelectionVocabulary.
(* ================================================================== *)
(** * Sample data *)
(* ================================================================== *)

Module Samples.
Import Mangling Yerna.

(** The manifest of the round-trip scenario, next to arbitrary other
    members. *)
Definition roundTripManifest (others : obj string) : PackageJson :=
  {| depFields :=
       {| Mangling.dependencies := Some [("left-pad", "1.0.0"); ("@org/b", "2.0.0")];
          devDependencies := None |};
     otherFields := others |}.

Definition pkg (n : string) (deps dependents : list string) : Package :=
  {| name := n; path := "packages/" ++ n; scripts := [("build", "tsc")];
     localDependencies := deps; localDependents := dependents |}.

Definition orgB : Package := pkg "@org/b" [] [].

(** A manifest whose dependency was put back, at another version, while
    the external command ran. *)
Definition rewrittenManifest : PackageJson :=
  {| depFields :=
       {| Mangling.dependencies := Some [("left-pad", "1.0.0"); ("@org/b", "3.0.0")];
          devDependencies := None |};
     otherFields := [("private", "true")] |}.

Definition orgBToken : DependencyFields :=
  {| Mangling.dependencies := Some [("@org/b", "2.0.0")]; devDependencies := None |}.

(** A manifest that depends on the registry packages named 10 and 9. *)
Definition numericManifest : PackageJson :=
  {| depFields :=
       {| Mangling.dependencies := Some [("9", "1.0.0"); ("10", "1.0.0")];
          devDependencies := None |};
     otherFields := [] |}.

(** A manifest that depends on the registry packages named constructor
    and left-pad. *)
Definition constructorManifest : PackageJson :=
  {| depFields :=
       {| Mangling.dependencies := Some [("constructor", "1.0.0"); ("left-pad", "1.0.0")];
          devDependencies := None |};
     otherFields := [] |}.

Definition bothFieldsManifest : PackageJson :=
  {| depFields :=
       {| Mangling.dependencies := Some [("left-pad", "1.0.0"); ("@org/b", "2.0.0")];
          devDependencies := Some [("@org/b", "2.0.0"); ("jest", "20.0.0")] |};
     otherFields := [("private", "true")] |}.

(** A diamond: b and c depend on a, d depends on b and c. *)
Definition diamond : PackagesByName :=
  [ pkg "d" ["b"; "c"] [];
    pkg "a" [] ["b"; "c"];
    pkg "c" ["a"] ["d"];
    pkg "b" ["a"] ["d"] ].

(** A cycle: x and y depend on each other. *)
Definition cycle : PackagesByName :=
  [ pkg "x" ["y"] ["y"]; pkg "y" ["x"] ["x"] ].

(** The diamond where d declares no script. *)
Definition diamondNoScript : PackagesByName :=
  [ {| name := "d"; path := "packages/d"; scripts := [];
       localDependencies := ["b"; "c"]; localDependents := [] |};
    pkg "a" [] ["b"; "c"];
    pkg "c" ["a"] ["d"];
    pkg "b" ["a"] ["d"] ].

(** A regular expression engine for patterns without metacharacters: the
    pattern matches the strings it occurs in.  An opening parenthesis alone
    does not compile. *)
Fixpoint occurs (fuel : nat) (pattern s : string) : bool :=
  if String.prefix pattern s then true
  else match fuel, s with
       | S fuel', String _ r => occurs fuel' pattern r
       | _, _ => false
       end.

Definition literalRegExp (source : string) : option string :=
  if String.eqb source "(" then None else Some source.

Definition literalTest (r s : string) : bool := occurs (String.length s) r s.

(** ToNumber on the strings the examples use. *)
Definition sampleToNumber (s : string) : number :=
  if String.eqb s "Infinity" then Infinity false
  else if String.eqb s "-Infinity" then Infinity true
  else if String.eqb s "2.5" then Finite (5 # 2)%Q
  else match digits s 0 with
       | Some n => match s with
                   | EmptyString => Finite 0%Q
                   | _ => Finite (inject_Z (Z.of_N n))
                   end
       | None => NaN
       end.

Definition onlyA : Commander :=
  {| include := ["a"]; exclude := ["d"]; dependents := true;
     Yerna.dependencies := false |}.

Definition emptyWorld (m : PackageJson) : world :=
  {| disk := writeFileSync "/repo/packages/app/package.json" m (fun _ => None);
     processExitListeners := [];
     children := [];
     trace := [] |}.

End Samples.

Module MoreSamples.
Import Mangling Yerna Samples.

(** A manifest as [unmanglePackageJson] writes it: in each field the
    array-index names first, by number, then the other names, by string. *)
Definition sortedManifest : PackageJson :=
  {| depFields :=
       {| Mangling.dependencies := Some [("@org/b", "2.0.0"); ("left-pad", "1.0.0")];
          devDependencies :=
            Some [("9", "1.0.0"); ("10", "1.0.0"); ("@org/b", "2.0.0"); ("jest", "20.0.0")] |};
     otherFields := [("private", "true")] |}.

Definition appPath : string := "/repo/packages/app/package.json".
Definition libPath : string := "/repo/packages/lib/package.json".

(** Two packages of the monorepo with their manifests on disk. *)
Definition twoManifests : fs :=
  writeFileSync libPath sortedManifest
    (writeFileSync appPath bothFieldsManifest (fun _ => None)).

Definition twoPackagesWorld : world :=
  {| disk := twoManifests; processExitListeners := []; children := []; trace := [] |}.

(** A package whose [localDependents] names a package that does not
    exist. *)
Definition broken : PackagesByName :=
  [ pkg "a" [] ["b"]; pkg "b" ["a"] ["ghost"] ].

(** A package named Object whose [localDependents] names constructor,
    which is no package. *)
Definition objectGraph : PackagesByName :=
  [ pkg "Object" [] ["constructor"] ].

(** A manifest that depends on packages of the registry, on a package of
    the monorepo, and on names every object inherits. *)
Definition inheritedNamesManifest : PackageJson :=
  {| depFields :=
       {| Mangling.dependencies :=
            Some [("left-pad", "1.0.0"); ("constructor", "1.0.0");
                  ("__proto__", "1.0.0"); ("@org/b", "2.0.0")];
          devDependencies := Some [("toString", "1.0.0"); ("jest", "20.0.0")] |};
     otherFields := [("private", "true")] |}.

(** An include list whose last pattern does not compile. *)
Definition lateBadPattern : Commander :=
  {| include := ["b"; "a"; "("]; exclude := ["d"]; dependents := false;
     Yerna.dependencies := false |}.

(** No expansion: the filter alone. *)
Definition filterOnly : Commander :=
  {| include := ["a"; "b"]; exclude := ["b"]; dependents := false;
     Yerna.dependencies := false |}.

(** Both expansions. *)
Definition bothWays : Commander :=
  {| include := ["a"]; exclude := []; dependents := true;
     Yerna.dependencies := true |}.

End MoreSamples.

(* ================================================================== *)
(** * Facts about the primitives *)
(* ================================================================== *)

Module JsFacts.
Import Vocabulary.

(** ** The order on strings *)

Lemma ascii_compare_refl (c : ascii) : Ascii.compare c c = Eq.
Proof. unfold Ascii.compare. apply N.compare_refl. Qed.

Lemma ascii_compare_lt_trans (a b c : ascii) :
  Ascii.compare a b = Lt -> Ascii.compare b c = Lt -> Ascii.compare a c = Lt.
Proof.
  unfold Ascii.compare. rewrite !N.compare_lt_iff. apply N.lt_trans.
Qed.

Lemma compare_refl (s : string) : String.compare s s = Eq.
Proof.
  induction s as [|c s IH]; simpl; [reflexivity|].
  now rewrite ascii_compare_refl.
Qed.

Lemma compare_lt_trans (a b c : string) :
  String.compare a b = Lt -> String.compare b c = Lt -> String.compare a c = Lt.
Proof.
  revert b c. induction a as [|x a IH]; intros [|y b] [|z c]; simpl;
    try discriminate; try reflexivity.
  destruct (Ascii.compare x y) eqn:Exy; try discriminate.
  - apply Ascii.compare_eq_iff in Exy. subst y.
    destruct (Ascii.compare x z); try discriminate; try reflexivity.
    apply IH.
  - intros _. destruct (Ascii.compare y z) eqn:Eyz; try discriminate.
    + apply Ascii.compare_eq_iff in Eyz. subst z. now rewrite Exy.
    + intros _. now rewrite (ascii_compare_lt_trans _ _ _ Exy Eyz).
Qed.

Lemma str_lt_irrefl (a : string) : ~ str_lt a a.
Proof. unfold str_lt, String.ltb. now rewrite compare_refl. Qed.

Lemma str_lt_trans (a b c : string) : str_lt a b -> str_lt b c -> str_lt a c.
Proof.
  unfold str_lt, String.ltb. intros Hab Hbc.
  destruct (String.compare a b) eqn:E1; try discriminate.
  destruct (String.compare b c) eqn:E2; try discriminate.
  now rewrite (compare_lt_trans _ _ _ E1 E2).
Qed.

Lemma leb_false_lt (a b : string) : String.leb a b = false -> str_lt b a.
Proof.
  unfold str_lt, String.leb, String.ltb. rewrite (String.compare_antisym a b).
  destruct (String.compare b a); simpl; congruence.
Qed.

Lemma leb_true_cases (a b : string) : String.leb a b = true -> a = b \/ str_lt a b.
Proof.
  unfold str_lt, String.leb, String.ltb.
  destruct (String.compare a b) eqn:E; try discriminate; intros _.
  - left. now apply String.compare_eq_iff.
  - now right.
Qed.

(** ** Membership tests *)

Lemma existsb_eqb_In (x : string) (l : list string) :
  existsb (String.eqb x) l = true <-> In x l.
Proof.
  rewrite existsb_exists. split.
  - intros [y [Hy E]]. apply String.eqb_eq in E. now subst.
  - intros H. exists x. split; [assumption | apply String.eqb_refl].
Qed.

Lemma existsb_eqb_not_In (x : string) (l : list string) :
  existsb (String.eqb x) l = false <-> ~ In x l.
Proof.
  rewrite <- existsb_eqb_In. destruct (existsb (String.eqb x) l); split;
    congruence.
Qed.

Lemma notIndexOf_true (l : list string) (x : string) :
  notIndexOf l x = true <-> ~ In x l.
Proof.
  unfold notIndexOf. rewrite negb_true_iff. apply existsb_eqb_not_In.
Qed.

Lemma notIndexOf_false (l : list string) (x : string) :
  notIndexOf l x = false <-> In x l.
Proof.
  unfold notIndexOf. rewrite negb_false_iff. apply existsb_eqb_In.
Qed.

Lemma distinct_NoDup (ks : list string) : distinct ks = true <-> NoDup ks.
Proof.
  induction ks as [|k ks IH]; simpl.
  - split; [constructor | reflexivity].
  - rewrite andb_true_iff, negb_true_iff, existsb_eqb_not_In, IH.
    split.
    + intros [H1 H2]. now constructor.
    + intros H. inversion H. tauto.
Qed.

(** ** Objects *)
Section ObjectFacts.
Context {V : Type}.
Implicit Types (o : obj V) (k n : string) (v : V).

Lemma obj_get_None_keys n o : obj_get n o = None <-> ~ In n (obj_keys o).
Proof.
  induction o as [|[k v] o IH]; simpl.
  - tauto.
  - destruct (String.eqb k n) eqn:E.
    + apply String.eqb_eq in E. subst. split; [discriminate | tauto].
    + apply String.eqb_neq in E. rewrite IH. tauto.
Qed.

Lemma obj_has_keys n o : obj_has n o = true <-> In n (obj_keys o).
Proof.
  unfold obj_has. destruct (obj_get n o) eqn:E.
  - split; [intros _ | reflexivity].
    destruct (in_dec string_dec n (obj_keys o)) as [H|H]; [assumption|].
    apply obj_get_None_keys in H. congruence.
  - apply obj_get_None_keys in E. split; [discriminate | tauto].
Qed.

Lemma obj_get_replace n k v o :
  obj_get n (obj_replace k v o) =
  if String.eqb k n && obj_has k o then Some v else obj_get n o.
Proof.
  unfold obj_has. induction o as [|[k' v'] o IH]; simpl.
  - now rewrite andb_false_r.
  - destruct (String.eqb k' k) eqn:E; simpl.
    + apply String.eqb_eq in E. subst k'.
      rewrite andb_true_r. now destruct (String.eqb k n).
    + rewrite IH. destruct (String.eqb k n) eqn:E'; simpl; [|reflexivity].
      apply String.eqb_eq in E'. subst n. rewrite E.
      reflexivity.
Qed.

Lemma obj_get_insert_index n i k v o :
  obj_get k o = None ->
  obj_get n (obj_insert_index i k v o) =
  if String.eqb k n then Some v else obj_get n o.
Proof.
  induction o as [|[k' v'] o IH]; simpl; intros Hk.
  - reflexivity.
  - destruct (String.eqb k' k) eqn:E; [discriminate|].
    destruct (arrayIndex k') as [j|]; [destruct (j <? i)%N|]; simpl;
      try reflexivity.
    rewrite (IH Hk). destruct (String.eqb k n) eqn:E'; [|reflexivity].
    apply String.eqb_eq in E'. subst n. now rewrite E.
Qed.

Lemma obj_get_app n o o' :
  obj_get n (o ++ o') =
  match obj_get n o with Some v => Some v | None => obj_get n o' end.
Proof.
  induction o as [|[k v] o IH]; simpl; [reflexivity|].
  now destruct (String.eqb k n).
Qed.

(** An assignment to [__proto__] creates no property. *)
Lemma obj_set_proto v o :
  obj_has "__proto__" o = false -> obj_set "__proto__" v o = o.
Proof. intros H. unfold obj_set. now rewrite H. Qed.

Lemma obj_has_set_proto k v o :
  obj_has "__proto__" o = false -> obj_has "__proto__" (obj_set k v o) = false.
Proof.
  intros H. unfold obj_set. destruct (obj_has k o) eqn:Hhas.
  - unfold obj_has in *. rewrite obj_get_replace.
    destruct (String.eqb k "__proto__") eqn:E; simpl; [|exact H].
    apply String.eqb_eq in E. subst k. congruence.
  - destruct (String.eqb k "__proto__") eqn:E; [exact H|].
    assert (Hk : obj_get k o = None).
    { unfold obj_has in Hhas. now destruct (obj_get k o). }
    unfold obj_has in *. destruct (arrayIndex k) as [i|].
    + rewrite (obj_get_insert_index _ _ _ _ _ Hk), E. exact H.
    + rewrite obj_get_app. simpl. rewrite E.
      now destruct (obj_get "__proto__" o).
Qed.

(** Reading after writing. *)
Lemma obj_get_set n k v o :
  obj_get n (obj_set k v o) =
  if String.eqb k n
  then (if obj_has k o || negb (String.eqb k "__proto__") then Some v else None)
  else obj_get n o.
Proof.
  unfold obj_set. destruct (obj_has k o) eqn:Hhas.
  - rewrite obj_get_replace, Hhas, andb_true_r. reflexivity.
  - assert (Hk : obj_get k o = None).
    { unfold obj_has in Hhas. now destruct (obj_get k o). }
    simpl. destruct (String.eqb k "__proto__") eqn:Ep; simpl.
    + destruct (String.eqb k n) eqn:E; [|reflexivity].
      apply String.eqb_eq in E. now subst n.
    + destruct (arrayIndex k) as [i|].
      * now apply obj_get_insert_index.
      * rewrite obj_get_app. simpl.
        destruct (String.eqb k n) eqn:E.
        -- apply String.eqb_eq in E. subst n. now rewrite Hk.
        -- now destruct (obj_get n o).
Qed.

Lemma obj_get_set_plain n k v o :
  k <> "__proto__" ->
  obj_get n (obj_set k v o) = if String.eqb k n then Some v else obj_get n o.
Proof.
  intros Hk. rewrite obj_get_set.
  apply String.eqb_neq in Hk. rewrite Hk, orb_true_r. reflexivity.
Qed.

Lemma obj_get_set_other n k v o :
  k <> n -> obj_get n (obj_set k v o) = obj_get n o.
Proof.
  intros Hk. rewrite obj_get_set.
  apply String.eqb_neq in Hk. now rewrite Hk.
Qed.

Lemma obj_get_delete n k o :
  obj_get n (obj_delete k o) = if String.eqb k n then None else obj_get n o.
Proof.
  unfold obj_delete. induction o as [|[k' v'] o IH]; simpl.
  - now destruct (String.eqb k n).
  - destruct (String.eqb k' k) eqn:E; simpl.
    + apply String.eqb_eq in E. subst k'. rewrite IH.
      now destruct (String.eqb k n).
    + rewrite IH. destruct (String.eqb k n) eqn:E'; [|reflexivity].
      apply String.eqb_eq in E'. subst n. now rewrite E.
Qed.

(** The keys after a write: the old ones, and the written one. *)
Lemma obj_keys_replace k v o : obj_keys (obj_replace k v o) = obj_keys o.
Proof.
  unfold obj_keys. induction o as [|[k' v'] o IH]; simpl; [reflexivity|].
  destruct (String.eqb k' k); simpl; [reflexivity | now rewrite IH].
Qed.

End ObjectFacts.

(** ** [_.sortBy] *)
Section SortFacts.
Context {A : Type}.
Variable key : A -> string.

Lemma sortBy_insert_perm (x : A) (l : list A) :
  Permutation (sortBy_insert key x l) (x :: l).
Proof.
  induction l as [|y l IH]; simpl; [reflexivity|].
  destruct (String.leb (key x) (key y)); [reflexivity|].
  rewrite IH. apply perm_swap.
Qed.

Lemma sortBy_perm (l : list A) : Permutation (sortBy key l) l.
Proof.
  induction l as [|x l IH]; simpl; [reflexivity|].
  rewrite sortBy_insert_perm. now apply perm_skip.
Qed.

Lemma sortBy_In (x : A) (l : list A) : In x (sortBy key l) <-> In x l.
Proof.
  split; apply Permutation_in; [|symmetry]; apply sortBy_perm.
Qed.

Lemma ascending_trans (a b c : A) : ascending key a b -> ascending key b c -> ascending key a c.
Proof.
  unfold ascending. intros [E1|L1] [E2|L2].
  - left. congruence.
  - right. now rewrite E1.
  - right. now rewrite <- E2.
  - right. eapply str_lt_trans; eassumption.
Qed.

Lemma sortBy_insert_sorted (x : A) (l : list A) :
  StronglySorted (ascending key) l -> StronglySorted (ascending key) (sortBy_insert key x l).
Proof.
  induction l as [|y l IH]; simpl; intros Hs.
  - repeat constructor.
  - inversion Hs as [|? ? Hs' Hall]; subst.
    destruct (String.leb (key x) (key y)) eqn:E.
    + constructor; [assumption|].
      apply leb_true_cases in E.
      constructor; [exact E|].
      eapply Forall_impl; [|exact Hall].
      intros z Hz. eapply ascending_trans; [exact E | exact Hz].
    + constructor; [now apply IH|].
      apply leb_false_lt in E.
      apply (Permutation_Forall (Permutation_sym (sortBy_insert_perm x l))).
      constructor; [now right | assumption].
Qed.

Lemma sortBy_sorted (l : list A) : StronglySorted (ascending key) (sortBy key l).
Proof.
  induction l as [|x l IH]; simpl; [constructor|].
  now apply sortBy_insert_sorted.
Qed.

(** With distinct keys the order is strict. *)
Lemma sorted_strict (l : list A) :
  NoDup (map key l) -> StronglySorted (ascending key) l ->
  StronglySorted (fun a b => str_lt (key a) (key b)) l.
Proof.
  induction l as [|x l IH]; simpl; intros Hnd Hs; [constructor|].
  inversion Hnd as [|? ? Hx Hnd']; subst.
  inversion Hs as [|? ? Hs' Hall]; subst.
  constructor; [now apply IH|].
  rewrite Forall_forall in *. intros y Hy.
  destruct (Hall y Hy) as [E|L]; [|assumption].
  exfalso. apply Hx. rewrite E. now apply in_map.
Qed.
End SortFacts.

(** ** [_.uniqBy] *)
Section UniqFacts.
Context {A : Type}.
Variable key : A -> string.

Lemma uniqBy_from_In (x : A) (seen : list string) (l : list A) :
  In x (uniqBy_from key seen l) -> In x l /\ ~ In (key x) seen.
Proof.
  revert seen. induction l as [|y l IH]; simpl; intros seen; [tauto|].
  destruct (existsb (String.eqb (key y)) seen) eqn:E.
  - intros H. destruct (IH _ H). tauto.
  - apply existsb_eqb_not_In in E. intros [->|H]; [tauto|].
    destruct (IH _ H) as [H1 H2]. simpl in H2. tauto.
Qed.

Lemma uniqBy_from_NoDup (seen : list string) (l : list A) :
  NoDup (map key (uniqBy_from key seen l)).
Proof.
  revert seen. induction l as [|y l IH]; simpl; intros seen; [constructor|].
  destruct (existsb (String.eqb (key y)) seen); [apply IH|].
  simpl. constructor; [|apply IH].
  rewrite in_map_iff. intros [z [Ez Hz]].
  apply uniqBy_from_In in Hz. destruct Hz as [_ Hz]. apply Hz.
  rewrite Ez. now left.
Qed.

(** Every key that is not yet seen keeps one representative: the first
    element that carries it. *)
Lemma uniqBy_from_first (seen : list string) (l1 l2 : list A) (x : A) :
  ~ In (key x) seen -> ~ In (key x) (map key l1) ->
  In x (uniqBy_from key seen (l1 ++ x :: l2)).
Proof.
  revert seen. induction l1 as [|y l1 IH]; simpl; intros seen Hs Hl.
  - apply existsb_eqb_not_In in Hs. rewrite Hs. now left.
  - destruct (existsb (String.eqb (key y)) seen).
    + apply IH; tauto.
    + right. apply IH; simpl; [|tauto].
      intros [E|H]; [|tauto]. apply Hl. now left.
Qed.

Lemma uniqBy_NoDup (l : list A) : NoDup (map key (uniqBy key l)).
Proof. apply uniqBy_from_NoDup. Qed.

Lemma uniqBy_In (x : A) (l : list A) : In x (uniqBy key l) -> In x l.
Proof. intros H. now apply uniqBy_from_In in H. Qed.

Lemma uniqBy_key_In (k : string) (l : list A) :
  In k (map key l) -> In k (map key (uniqBy key l)).
Proof.
  intros H. apply in_map_iff in H. destruct H as [x [Ex Hx]].
  (* the first element of [l] whose key is [k] *)
  assert (Hfirst : exists l1 y l2, l = l1 ++ y :: l2 /\ key y = k /\
                                   ~ In k (map key l1)).
  { assert (H : In k (map key l)) by (rewrite <- Ex; now apply in_map).
    clear Ex Hx x. induction l as [|y l IH]; simpl in H; [tauto|].
    destruct (string_dec (key y) k) as [E|E].
    - exists [], y, l. simpl. tauto.
    - destruct H as [H|H]; [congruence|].
      destruct (IH H) as [l1 [z [l2 [-> [Ez Hz]]]]].
      exists (y :: l1), z, l2. simpl. intuition congruence. }
  destruct Hfirst as [l1 [y [l2 [-> [Ey Hy]]]]].
  apply in_map_iff. exists y. split; [assumption|].
  apply uniqBy_from_first; [tauto | now rewrite Ey].
Qed.
End UniqFacts.

End JsFacts.

(* ================================================================== *)
(** * The manifest mutation guard *)
(* ================================================================== *)

Module ManglingFacts.
Import Mangling Vocabulary JsFacts.

(** ** Fields *)

Lemma field_set_field (key : depKey) (v : option (obj string)) (d : DependencyFields) :
  field key (set_field key v d) = v.
Proof. now destruct key. Qed.

Lemma set_field_twice (key : depKey) (v w : option (obj string)) (d : DependencyFields) :
  set_field key v (set_field key w d) = set_field key v d.
Proof. now destruct key. Qed.

Lemma set_field_same (key : depKey) (d : DependencyFields) :
  set_field key (field key d) d = d.
Proof. now destruct key, d. Qed.

(** ** Ordered key lists *)

Lemma keys_ordered_app (l1 l2 : list string) :
  keys_ordered (l1 ++ l2) = true ->
  keys_ordered l1 = true /\ keys_ordered l2 = true /\
  forall a b, In a l1 -> In b l2 -> key_before a b = true.
Proof.
  induction l1 as [|k l1 IH]; simpl.
  - intros H. repeat split; [assumption | intros a b []].
  - rewrite forallb_app, !andb_true_iff. intros [[Hl1 Hl2] Hr].
    destruct (IH Hr) as [H1 [H2 H3]]. repeat split; try assumption.
    intros a b [<-|Ha] Hb.
    + rewrite forallb_forall in Hl2. now apply Hl2.
    + now apply H3.
Qed.

Lemma filter_keys_In (f : string * string -> bool) (o : obj string) (k : string) :
  In k (obj_keys (filter f o)) -> In k (obj_keys o).
Proof.
  unfold obj_keys. rewrite !in_map_iff. intros [e [E H]].
  apply filter_In in H. exists e. tauto.
Qed.

Lemma obj_ok_iff (o : obj string) :
  obj_ok o = true <-> NoDup (obj_keys o) /\ keys_ordered (obj_keys o) = true.
Proof. unfold obj_ok. now rewrite andb_true_iff, distinct_NoDup. Qed.

Lemma filter_obj_ok (f : string * string -> bool) (o : obj string) :
  obj_ok o = true -> obj_ok (filter f o) = true.
Proof.
  rewrite !obj_ok_iff. induction o as [|[k v] o IH]; simpl; [tauto|].
  intros [Hnd Hord]. inversion Hnd as [|? ? Hk Hnd']; subst.
  apply andb_true_iff in Hord. destruct Hord as [Hall Hord].
  destruct (IH (conj Hnd' Hord)) as [IH1 IH2].
  destruct (f (k, v)); simpl; [|tauto].
  split.
  - constructor; [|assumption]. intros Hin. apply Hk.
    exact (filter_keys_In _ _ _ Hin).
  - rewrite IH2, andb_true_r. rewrite forallb_forall in *.
    intros x Hx. apply Hall. exact (filter_keys_In _ _ _ Hx).
Qed.

(** Writing a key that comes after all the others appends it. *)
Lemma obj_insert_index_last (i : N) (k : string) (v : string) (o : obj string) :
  arrayIndex k = Some i ->
  (forall a, In a (obj_keys o) -> key_before a k = true) ->
  obj_insert_index i k v o = o ++ [(k, v)].
Proof.
  intros Hi. induction o as [|[k' v'] o IH]; simpl; intros H; [reflexivity|].
  assert (Hk' := H k' (or_introl eq_refl)).
  unfold key_before in Hk'. rewrite Hi in Hk'.
  destruct (arrayIndex k') as [j|]; [|discriminate].
  rewrite Hk'. f_equal. apply IH. intros a Ha. apply H. now right.
Qed.

Lemma obj_set_last (k v : string) (o : obj string) :
  k <> "__proto__" ->
  ~ In k (obj_keys o) ->
  (forall a, In a (obj_keys o) -> key_before a k = true) ->
  obj_set k v o = o ++ [(k, v)].
Proof.
  intros Hp Hk Hbefore. unfold obj_set.
  destruct (obj_has k o) eqn:E.
  - apply obj_has_keys in E. contradiction.
  - apply String.eqb_neq in Hp. rewrite Hp.
    destruct (arrayIndex k) as [i|] eqn:Ei; [|reflexivity].
    now apply obj_insert_index_last.
Qed.

(** ** The file system *)

Lemma readFileSync_holds (disk : fs) (packageJsonPath : string) (m : PackageJson) :
  holds disk packageJsonPath m -> readFileSync packageJsonPath disk = Ok m.
Proof. unfold holds, readFileSync. now intros ->. Qed.

Lemma holds_writeFileSync (disk : fs) (packageJsonPath : string) (m : PackageJson) :
  holds (writeFileSync packageJsonPath m disk) packageJsonPath m.
Proof. unfold holds, writeFileSync. now rewrite String.eqb_refl. Qed.

(** ** [manglePackageJson] *)

(** What [packagesByName[packageName]] is truthy for: the names of the
    packages of the monorepo, and the names every object inherits. *)
Lemma hidden_spec (packagesByName : PackagesByName) (packageName : string) :
  hidden packagesByName packageName =
  excluded packagesByName packageName || inherited packageName.
Proof.
  unfold hidden, excluded, get.
  destruct (lookup packagesByName packageName); [reflexivity|].
  now destruct (inherited packageName).
Qed.


Lemma mangleEntries_fold (packagesByName : PackagesByName) (key : depKey)
    (es : obj string) :
  forall (m r : DependencyFields) (o ro : obj string),
    field key m = Some o -> field key r = Some ro ->
    fold_left (mangleEntry packagesByName key) es (m, r) =
    (set_field key (Some (fold_left (deleteHidden packagesByName) es o)) m,
     set_field key (Some (fold_left (recordHidden packagesByName) es ro)) r).
Proof.
  induction es as [|[k v] es IH]; simpl; intros m r o ro Hm Hr.
  - rewrite <- Hm, <- Hr, !set_field_same. reflexivity.
  - change (deleteHidden packagesByName o (k, v))
      with (if hidden packagesByName k then obj_delete k o else o).
    change (recordHidden packagesByName ro (k, v))
      with (if hidden packagesByName k then obj_set k v ro else ro).
    unfold hidden. destruct (get packagesByName k) as [p|]; simpl.
    + unfold on_field. rewrite Hm, Hr.
      erewrite IH by apply field_set_field.
      now rewrite !set_field_twice.
    + now apply IH.
Qed.

Lemma mangleField_spec (packagesByName : PackagesByName) (key : depKey)
    (m r : DependencyFields) :
  mangleField packagesByName (m, r) key =
  match field key m with
  | Some o =>
      (set_field key (Some (fold_left (deleteHidden packagesByName) o o)) m,
       set_field key (Some (fold_left (recordHidden packagesByName) o [])) r)
  | None => (m, r)
  end.
Proof.
  unfold mangleField. destruct (field key m) as [o|] eqn:Hm; [|reflexivity].
  erewrite mangleEntries_fold; [|exact Hm|apply field_set_field].
  now rewrite set_field_twice.
Qed.

(** The deletions leave the entries that are not hidden. *)
Lemma deleteHidden_fold (packagesByName : PackagesByName) (es o : obj string) :
  fold_left (deleteHidden packagesByName) es o =
  filter (fun e => negb (hidden packagesByName (fst e) &&
                         existsb (String.eqb (fst e)) (obj_keys es))) o.
Proof.
  revert o. induction es as [|[k v] es IH]; simpl; intros o.
  - rewrite (filter_ext _ (fun _ => true)).
    + clear. induction o; simpl; congruence.
    + intros e. now rewrite andb_false_r.
  - rewrite IH. unfold deleteHidden, obj_delete. simpl.
    destruct (hidden packagesByName k) eqn:Ek.
    + clear IH. induction o as [|[k' v'] o IHo]; simpl; [reflexivity|].
      destruct (String.eqb k' k) eqn:E; simpl.
      * apply String.eqb_eq in E. subst k'. rewrite Ek. simpl. apply IHo.
      * rewrite IHo. reflexivity.
    + apply filter_ext. intros [k' v']. simpl.
      destruct (String.eqb k' k) eqn:E; [|reflexivity].
      apply String.eqb_eq in E. subst k'. now rewrite Ek.
Qed.

Lemma deleteHidden_all (packagesByName : PackagesByName) (o : obj string) :
  fold_left (deleteHidden packagesByName) o o = filter (keptEntry packagesByName) o.
Proof.
  rewrite deleteHidden_fold. apply filter_ext_in. intros e He.
  unfold keptEntry.
  assert (H : existsb (String.eqb (fst e)) (obj_keys o) = true).
  { apply existsb_eqb_In. now apply in_map. }
  now rewrite H, andb_true_r.
Qed.

(** The token receives the hidden entries, in the order of the manifest,
    except the one named [__proto__]. *)
Lemma obj_has_snoc_proto (acc : obj string) (k v : string) :
  k <> "__proto__" -> obj_has "__proto__" acc = false ->
  obj_has "__proto__" (acc ++ [(k, v)]) = false.
Proof.
  intros Hk H. unfold obj_has in *. rewrite obj_get_app. simpl.
  apply String.eqb_neq in Hk. rewrite Hk.
  now destruct (obj_get "__proto__" acc).
Qed.

Lemma recordHidden_fold (packagesByName : PackagesByName) (es : obj string) :
  forall acc : obj string,
    obj_has "__proto__" acc = false ->
    NoDup (obj_keys (acc ++ filter (recordedEntry packagesByName) es)) ->
    keys_ordered (obj_keys (acc ++ filter (recordedEntry packagesByName) es)) = true ->
    fold_left (recordHidden packagesByName) es acc =
    acc ++ filter (recordedEntry packagesByName) es.
Proof.
  induction es as [|[k v] es IH]; simpl; intros acc Hp Hnd Hord.
  - now rewrite app_nil_r.
  - change (recordedEntry packagesByName (k, v))
      with (hidden packagesByName k && negb (String.eqb k "__proto__")) in *.
    change (recordHidden packagesByName acc (k, v))
      with (if hidden packagesByName k then obj_set k v acc else acc).
    destruct (hidden packagesByName k) eqn:Ek; simpl in *.
    + destruct (String.eqb k "__proto__") eqn:E; simpl in *.
      * apply String.eqb_eq in E. subst k.
        rewrite (obj_set_proto _ _ Hp). now apply IH.
      * apply String.eqb_neq in E.
        unfold obj_keys in Hnd, Hord. rewrite map_app in Hnd, Hord.
        simpl in Hnd, Hord.
        rewrite obj_set_last.
        -- rewrite IH; [now rewrite <- app_assoc | now apply obj_has_snoc_proto | |];
             rewrite <- app_assoc; simpl;
             unfold obj_keys; rewrite map_app; assumption.
        -- exact E.
        -- apply NoDup_remove_2 in Hnd. intros Hin. apply Hnd.
           apply in_or_app. now left.
        -- apply keys_ordered_app in Hord. destruct Hord as [_ [_ H]].
           intros a Ha. apply H; [assumption | now left].
    + now apply IH.
Qed.

Lemma recordHidden_all (packagesByName : PackagesByName) (o : obj string) :
  obj_ok o = true ->
  fold_left (recordHidden packagesByName) o [] =
  filter (recordedEntry packagesByName) o.
Proof.
  intros Hok. apply (filter_obj_ok (recordedEntry packagesByName)) in Hok.
  apply obj_ok_iff in Hok. destruct Hok as [H1 H2].
  now apply recordHidden_fold.
Qed.

Lemma fields_ok_field (d : DependencyFields) (key : depKey) (o : obj string) :
  fields_ok d = true -> field key d = Some o -> obj_ok o = true.
Proof.
  unfold fields_ok, depKeys. simpl. rewrite !andb_true_iff.
  intros [H1 [H2 _]] Hf. destruct key; simpl in Hf; rewrite Hf in *; assumption.
Qed.

Lemma mangle_unfold (packagesByName : PackagesByName) (m : PackageJson) :
  mangle packagesByName m =
  let st := mangleField packagesByName
              (mangleField packagesByName (depFields m, no_fields) Kdependencies)
              KdevDependencies in
  ({| depFields := fst st; otherFields := otherFields m |}, snd st).
Proof.
  unfold mangle, depKeys. cbn [fold_left].
  now destruct (mangleField packagesByName
                  (mangleField packagesByName (depFields m, no_fields) Kdependencies)
                  KdevDependencies).
Qed.

Lemma mangle_fields (packagesByName : PackagesByName) (m : PackageJson) :
  fields_ok (depFields m) = true ->
  forall key,
    field key (depFields (fst (mangle packagesByName m))) =
      option_map (filter (keptEntry packagesByName)) (field key (depFields m)) /\
    field key (snd (mangle packagesByName m)) =
      option_map (filter (recordedEntry packagesByName)) (field key (depFields m)).
Proof.
  intros Hok key. rewrite mangle_unfold. cbv zeta.
  destruct m as [[deps dev] others].
  assert (Hok' := fun key o => fields_ok_field _ key o Hok). clear Hok.
  cbn [depFields otherFields] in *.
  rewrite (mangleField_spec _ Kdependencies).
  destruct deps as [o1|]; destruct dev as [o2|]; cbn [field dependencies devDependencies];
    cbn [set_field dependencies devDependencies];
    rewrite (mangleField_spec _ KdevDependencies);
    cbn [field set_field dependencies devDependencies fst snd depFields no_fields];
    rewrite ?deleteHidden_all;
    try rewrite (recordHidden_all _ o1) by (apply (Hok' Kdependencies); reflexivity);
    try rewrite (recordHidden_all _ o2) by (apply (Hok' KdevDependencies); reflexivity);
    destruct key; simpl; split; reflexivity.
Qed.

Lemma mangle_otherFields (packagesByName : PackagesByName) (m : PackageJson) :
  otherFields (fst (mangle packagesByName m)) = otherFields m.
Proof.
  now rewrite mangle_unfold.
Qed.

(** ** [unmanglePackageJson] *)

Lemma alphabetize_fields (d : DependencyFields) (key : depKey) :
  field key (fold_left alphabetizeField depKeys d) =
  option_map alphabetizeKeys (field key d).
Proof.
  destruct d as [[o1|] [o2|]], key; reflexivity.
Qed.

Lemma merge_fields (d mangleToken : DependencyFields) (key : depKey) :
  field key (merge d mangleToken) =
  match field key mangleToken with
  | Some srcValue =>
      Some (fold_left mergeEntry srcValue
              (match field key d with Some o => o | None => [] end))
  | None => field key d
  end.
Proof.
  destruct d as [d1 d2], mangleToken as [[s1|] [s2|]], key; reflexivity.
Qed.

Lemma obj_get_mergeEntry (n : string) (o : obj string) (e : string * string) :
  obj_get n (mergeEntry o e) =
  if String.eqb (fst e) n
  then (if obj_has (fst e) o || negb (String.eqb (fst e) "__proto__")
        then Some (snd e) else None)
  else obj_get n o.
Proof.
  destruct e as [k v]. unfold mergeEntry. simpl.
  destruct (obj_get k o) as [w|] eqn:Hk.
  - destruct (String.eqb w v) eqn:E; [|apply obj_get_set].
    apply String.eqb_eq in E. subst w.
    destruct (String.eqb k n) eqn:E'; [|reflexivity].
    apply String.eqb_eq in E'. subst n. unfold obj_has. now rewrite Hk.
  - apply obj_get_set.
Qed.

Lemma obj_get_mergeEntry_plain (n : string) (o : obj string) (e : string * string) :
  n <> "__proto__" ->
  obj_get n (mergeEntry o e) =
  if String.eqb (fst e) n then Some (snd e) else obj_get n o.
Proof.
  intros Hn. rewrite obj_get_mergeEntry.
  destruct (String.eqb (fst e) n) eqn:E; [|reflexivity].
  apply String.eqb_eq in E. apply String.eqb_neq in Hn.
  now rewrite E, Hn, orb_true_r.
Qed.

(** After the merge a key of the source holds the source's value, and any
    other key holds what it held. *)
Lemma obj_get_merge (n : string) (src : obj string) :
  n <> "__proto__" ->
  NoDup (obj_keys src) ->
  forall o,
    obj_get n (fold_left mergeEntry src o) =
    match obj_get n src with
    | Some v => Some v
    | None => obj_get n o
    end.
Proof.
  intros Hn.
  induction src as [|[k v] src IH]; intros Hnd o; [reflexivity|].
  inversion Hnd as [|? ? Hk Hnd']; subst.
  change (fold_left mergeEntry ((k, v) :: src) o)
    with (fold_left mergeEntry src (mergeEntry o (k, v))).
  rewrite (IH Hnd'), (obj_get_mergeEntry_plain _ _ _ Hn). simpl.
  destruct (String.eqb k n) eqn:E; [|reflexivity].
  apply String.eqb_eq in E. subst n.
  apply obj_get_None_keys in Hk. now rewrite Hk.
Qed.

(** The loop of [alphabetizeKeys] never creates the property [__proto__]. *)
Lemma alphabetize_loop_no_proto (object : obj string) (ks : list string) :
  forall acc,
    obj_has "__proto__" acc = false ->
    obj_has "__proto__"
      (fold_left
         (fun alphabetizedObject k =>
            match obj_get k object with
            | Some v => obj_set k v alphabetizedObject
            | None => alphabetizedObject
            end) ks acc) = false.
Proof.
  induction ks as [|k ks IH]; simpl; intros acc Hacc; [assumption|].
  apply IH. destruct (obj_get k object) as [v|]; [|assumption].
  now apply obj_has_set_proto.
Qed.

(** It copies the values of the other keys it visits. *)
Lemma obj_get_alphabetize_loop (object : obj string) (n : string) (ks : list string) :
  n <> "__proto__" ->
  forall acc,
    obj_get n
      (fold_left
         (fun alphabetizedObject k =>
            match obj_get k object with
            | Some v => obj_set k v alphabetizedObject
            | None => alphabetizedObject
            end) ks acc) =
    if existsb (String.eqb n) ks && obj_has n object then obj_get n object
    else obj_get n acc.
Proof.
  intros Hn.
  induction ks as [|k ks IH]; simpl; intros acc; [reflexivity|].
  rewrite IH. unfold obj_has.
  destruct (String.eqb n k) eqn:E; simpl.
  - apply String.eqb_eq in E. subst k.
    destruct (obj_get n object) as [v|] eqn:Hn'.
    + rewrite andb_true_r, (obj_get_set_plain _ _ _ _ Hn), String.eqb_refl.
      now destruct (existsb (String.eqb n) ks).
    + now rewrite andb_false_r.
  - destruct (existsb (String.eqb n) ks && _); [reflexivity|].
    destruct (obj_get k object) as [v|]; [|reflexivity].
    apply obj_get_set_other. apply String.eqb_neq in E. congruence.
Qed.

(** [alphabetizeKeys] drops [__proto__] and changes no other value. *)
Lemma obj_get_alphabetizeKeys (object : obj string) (n : string) :
  obj_get n (alphabetizeKeys object) =
  if String.eqb n "__proto__" then None else obj_get n object.
Proof.
  unfold alphabetizeKeys. destruct (String.eqb n "__proto__") eqn:Ep.
  - apply String.eqb_eq in Ep. subst n.
    assert (H := alphabetize_loop_no_proto object
                   (sortBy (fun k => k) (obj_keys object)) [] eq_refl).
    unfold obj_has in H.
    now destruct (obj_get "__proto__" (fold_left _ _ _)).
  - apply String.eqb_neq in Ep.
    rewrite (obj_get_alphabetize_loop _ _ _ Ep). simpl.
    destruct (obj_has n object) eqn:E.
    + assert (H : existsb (String.eqb n) (sortBy (fun k => k) (obj_keys object)) = true).
      { apply existsb_eqb_In. apply sortBy_In. now apply obj_has_keys. }
      now rewrite H.
    + rewrite andb_false_r. unfold obj_has in E.
      now destruct (obj_get n object).
Qed.

Lemma obj_has_alphabetizeKeys_proto (object : obj string) :
  obj_has "__proto__" (alphabetizeKeys object) = false.
Proof. unfold obj_has. now rewrite obj_get_alphabetizeKeys. Qed.

(** Without array-index keys the loop of [alphabetizeKeys] builds a
    strictly ascending object. *)
Lemma sorted_snoc (l : list string) (k : string) :
  StronglySorted str_lt l -> Forall (fun a => str_lt a k) l ->
  StronglySorted str_lt (l ++ [k]).
Proof.
  induction l as [|x l IH]; simpl; intros Hs Hall.
  - repeat constructor.
  - inversion Hs as [|? ? Hs' Hx]; subst. inversion Hall as [|? ? Hxk Hall']; subst.
    constructor; [now apply IH|].
    apply Forall_app. split; [assumption | now constructor].
Qed.

Lemma alphabetize_loop_sorted (object : obj string) (ks : list string) :
  StronglySorted (ascending (fun k => k)) ks ->
  Forall (fun k => arrayIndex k = None) ks ->
  forall acc,
    alphabetized acc ->
    (forall a k, In a (obj_keys acc) -> In k ks -> ascending (fun k => k) a k) ->
    alphabetized
      (fold_left
         (fun alphabetizedObject k =>
            match obj_get k object with
            | Some v => obj_set k v alphabetizedObject
            | None => alphabetizedObject
            end) ks acc).
Proof.
  unfold alphabetized.
  induction ks as [|k ks IH]; simpl; intros Hs Hni acc Hacc Hle; [assumption|].
  inversion Hs as [|? ? Hs' Hk]; subst. inversion Hni as [|? ? Hik Hni']; subst.
  destruct (obj_get k object) as [v|].
  - unfold obj_set. destruct (obj_has k acc) eqn:Hhas.
    + apply IH; try assumption.
      * now rewrite obj_keys_replace.
      * rewrite obj_keys_replace. intros a b Ha Hb. apply Hle; tauto.
    + destruct (String.eqb k "__proto__").
      { apply IH; try assumption. intros a b Ha Hb. apply Hle; tauto. }
      rewrite Hik. apply IH; try assumption.
      * unfold obj_keys. rewrite map_app. simpl. apply sorted_snoc; [assumption|].
        rewrite Forall_forall. intros a Ha.
        destruct (Hle a k Ha (or_introl eq_refl)) as [E|L]; [|assumption].
        exfalso. subst a. apply obj_has_keys in Ha. congruence.
      * unfold obj_keys. rewrite map_app. simpl. intros a b Ha Hb.
        apply in_app_or in Ha. destruct Ha as [Ha|[<-|[]]].
        -- apply Hle; tauto.
        -- rewrite Forall_forall in Hk. now apply Hk.
  - apply IH; try assumption. intros a b Ha Hb. apply Hle; tauto.
Qed.

Lemma alphabetizeKeys_sorted (object : obj string) :
  no_index_key object -> alphabetized (alphabetizeKeys object).
Proof.
  intros Hni. unfold alphabetizeKeys. apply alphabetize_loop_sorted.
  - apply sortBy_sorted.
  - apply (Permutation_Forall (Permutation_sym (sortBy_perm _ _))). exact Hni.
  - constructor.
  - intros a k [].
Qed.

End ManglingFacts.

(* ================================================================== *)
(** * The traversal of the package graph *)
(* ================================================================== *)

Module TraversalFacts.
Import Yerna Vocabulary JsFacts.

(** ** Lookups *)

Lemma lookup_Some (allPackages : PackagesByName) (n : string) (p : Package) :
  lookup allPackages n = Some p -> In p allPackages /\ name p = n.
Proof.
  unfold lookup. intros H. apply find_some in H.
  destruct H as [H1 H2]. apply String.eqb_eq in H2. tauto.
Qed.

Lemma lookup_name (allPackages : PackagesByName) (n : string) (p : Package) :
  lookup allPackages n = Some p -> lookup allPackages (name p) = Some p.
Proof.
  intros H. destruct (lookup_Some _ _ _ H) as [_ E]. now rewrite E.
Qed.

Lemma lookup_In (allPackages : PackagesByName) (p : Package) :
  In p allPackages -> exists q, lookup allPackages (name p) = Some q.
Proof.
  intros H. unfold lookup.
  destruct (find (fun q => String.eqb (name q) (name p)) allPackages) as [q|] eqn:E.
  - now exists q.
  - exfalso. apply (find_none _ _ E) in H. now rewrite String.eqb_refl in H.
Qed.

(** A property access answers the own property when there is one. *)
Lemma get_lookup (allPackages : PackagesByName) (n : string) (p : Package) :
  lookup allPackages n = Some p -> get allPackages n = Some (Declared p).
Proof. unfold get. now intros ->. Qed.

Lemma get_Declared (allPackages : PackagesByName) (n : string) (p : Package) :
  get allPackages n = Some (Declared p) -> lookup allPackages n = Some p.
Proof.
  unfold get. destruct (lookup allPackages n) as [q|]; [congruence|].
  destruct (inherited n); discriminate.
Qed.

Lemma get_None (allPackages : PackagesByName) (n : string) :
  get allPackages n = None <-> lookup allPackages n = None /\ inherited n = false.
Proof.
  unfold get. destruct (lookup allPackages n) as [q|].
  - split; [discriminate | intros [H _]; discriminate].
  - destruct (inherited n); split; try discriminate; try tauto.
    intros [_ H]. discriminate.
Qed.

(** Where names are distinct, the lookup of a package's name finds it. *)
Lemma lookup_distinct (allPackages : PackagesByName) (p : Package) :
  distinct (map name allPackages) = true ->
  In p allPackages -> lookup allPackages (name p) = Some p.
Proof.
  rewrite distinct_NoDup. unfold lookup.
  induction allPackages as [|q l IH]; simpl; [tauto|].
  intros Hnd [->|Hin].
  - now rewrite String.eqb_refl.
  - inversion Hnd as [|? ? Hq Hnd']; subst.
    destruct (String.eqb (name q) (name p)) eqn:E; [|now apply IH].
    apply String.eqb_eq in E. exfalso. apply Hq. rewrite E. now apply in_map.
Qed.

Lemma closed_edge (allPackages : PackagesByName) (key : typeKey) (p : Package)
    (c : string) :
  closed allPackages key = true -> In p allPackages -> In c (edges key p) ->
  exists q, lookup allPackages c = Some q.
Proof.
  unfold closed. rewrite forallb_forall. intros H Hp Hc.
  specialize (H p Hp). rewrite forallb_forall in H. specialize (H c Hc).
  destruct (lookup allPackages c) as [q|]; [now exists q | discriminate].
Qed.

(** ** Reachability *)

Lemma reaches_trans (allPackages : PackagesByName) (key : typeKey) (a b c : string) :
  reaches allPackages key a b -> reaches allPackages key b c ->
  reaches allPackages key a c.
Proof.
  intros Hab Hbc. induction Hbc as [b p Hb | b c d p Hbc IH Hc Hd].
  - assumption.
  - eapply reaches_edge; [now apply IH | exact Hc | exact Hd].
Qed.

Lemma reaches_lookup (allPackages : PackagesByName) (key : typeKey) (a b : string) :
  closed allPackages key = true ->
  reaches allPackages key a b -> exists q, lookup allPackages b = Some q.
Proof.
  intros Hcl H. destruct H as [a p Ha | a b c p Hab Hb Hc].
  - now exists p.
  - apply lookup_Some in Hb. destruct Hb as [Hb _].
    eapply closed_edge; eassumption.
Qed.

(** ** What the loop has left to do *)

Lemma notIndexOf_app (l : list string) (x y : string) :
  notIndexOf (l ++ [x]) y = notIndexOf l y && negb (String.eqb y x).
Proof.
  unfold notIndexOf. rewrite existsb_app. simpl.
  rewrite orb_false_r. apply negb_orb.
Qed.

Lemma pending_mono (allPackages : PackagesByName) (key : typeKey)
    (sel : list string) (x : string) :
  pending allPackages key (sel ++ [x]) <= pending allPackages key sel.
Proof.
  unfold pending. induction allPackages as [|q l IH]; simpl; [lia|].
  rewrite notIndexOf_app.
  destruct (notIndexOf sel (name q)); simpl; [|lia].
  destruct (negb (String.eqb (name q) x)); lia.
Qed.

Lemma pending_select (allPackages : PackagesByName) (key : typeKey)
    (sel : list string) (p : Package) :
  In p allPackages -> notIndexOf sel (name p) = true ->
  length (edges key p) + pending allPackages key (sel ++ [name p])
  <= pending allPackages key sel.
Proof.
  intros Hin Hsel. induction allPackages as [|q l IH]; [destruct Hin|].
  destruct Hin as [->|Hin].
  - assert (H := pending_mono l key sel (name p)).
    unfold pending in *. simpl. rewrite notIndexOf_app, Hsel, String.eqb_refl.
    simpl. lia.
  - specialize (IH Hin). unfold pending in *. simpl.
    rewrite notIndexOf_app.
    destruct (notIndexOf sel (name q)); simpl; [|lia].
    destruct (negb (String.eqb (name q) (name p))); lia.
Qed.

(** ** The loop *)

(** The budget is never exhausted, whatever the graph. *)
Lemma whileQueue_total (allPackages : PackagesByName) (key : typeKey) (fuel : nat) :
  forall (sel : list string) (queue : list (option member)),
    (forall p, In (Some (Declared p)) queue -> In p allPackages) ->
    length queue + pending allPackages key sel <= fuel ->
    whileQueue fuel allPackages key sel queue <> Throw FuelExhausted.
Proof.
  induction fuel as [|fuel IH]; intros sel queue Hq Hfuel.
  - destruct queue; simpl in *; [discriminate | lia].
  - destruct queue as [|[[p|k]|] rest]; simpl; try discriminate.
    + assert (Hp : In p allPackages) by (apply Hq; now left).
      destruct (notIndexOf sel (name p)) eqn:Hsel.
      * apply IH.
        -- intros q Hin. apply in_app_or in Hin. destruct Hin as [Hin|Hin].
           ++ apply Hq. now right.
           ++ apply in_map_iff in Hin. destruct Hin as [c [Hc _]].
              apply get_Declared in Hc. now apply lookup_Some in Hc.
        -- assert (H := pending_select allPackages key sel p Hp Hsel).
           rewrite length_app, length_map. simpl in Hfuel. lia.
      * apply IH.
        -- intros q Hin. apply Hq. now right.
        -- simpl in Hfuel. lia.
    + (* an inherited member: the call throws, or the member is dropped *)
      destruct (inheritedName k) as [n|]; [|discriminate].
      destruct (notIndexOf sel n); [discriminate|].
      apply IH.
      * intros q Hin. apply Hq. now right.
      * simpl in Hfuel. lia.
Qed.

(** On a closed graph the loop ends with the names it had, followed by
    the names found from the queue, each once. *)
Lemma whileQueue_ok (allPackages : PackagesByName) (key : typeKey) (fuel : nat) :
  closed allPackages key = true ->
  forall (sel : list string) (queue : list (option member)),
    NoDup sel ->
    (forall q, In q queue ->
       exists p, q = Some (Declared p) /\ lookup allPackages (name p) = Some p) ->
    length queue + pending allPackages key sel <= fuel ->
    exists sel',
      whileQueue fuel allPackages key sel queue = Ok sel' /\
      NoDup sel' /\
      (forall n, In n sel -> In n sel') /\
      (forall p, In (Some (Declared p)) queue -> In (name p) sel') /\
      (forall n, In n sel' ->
         In n sel \/ exists p, In (Some (Declared p)) queue /\
                               reaches allPackages key (name p) n) /\
      (forall n p c, In n sel' -> ~ In n sel -> lookup allPackages n = Some p ->
         In c (edges key p) -> In c sel').
Proof.
  intros Hcl. induction fuel as [|fuel IH]; intros sel queue Hnd Hq Hfuel.
  - destruct queue; simpl in *; [|lia].
    exists sel. repeat split; try tauto; intros p [].
  - destruct queue as [|cur rest].
    { exists sel. simpl. repeat split; try tauto; intros p []. }
    destruct (Hq cur (or_introl eq_refl)) as [p [-> Hp]].
    simpl. destruct (notIndexOf sel (name p)) eqn:Hsel.
    + (* a new package: its name is collected, its edges are queued *)
      assert (Hpin : In p allPackages) by now apply lookup_Some in Hp.
      destruct (IH (sel ++ [name p]) (rest ++ map (get allPackages) (edges key p)))
        as [sel' [Hrun [Hnd' [Hsub [Hqueue [Hreach Hclosure]]]]]].
      * apply notIndexOf_true in Hsel.
        apply NoDup_app; [assumption | repeat constructor; intros [] | ].
        intros x Hx [<-|[]]. contradiction.
      * intros q Hin. apply in_app_or in Hin. destruct Hin as [Hin|Hin].
        -- apply Hq. now right.
        -- apply in_map_iff in Hin. destruct Hin as [c [<- Hc]].
           destruct (closed_edge _ _ _ _ Hcl Hpin Hc) as [q Hq'].
           exists q. split; [now apply get_lookup | now apply lookup_name in Hq'].
      * assert (H := pending_select allPackages key sel p Hpin Hsel).
        rewrite length_app, length_map. simpl in Hfuel. lia.
      * exists sel'. split; [assumption|]. split; [assumption|].
        assert (Hname : In (name p) sel').
        { apply Hsub. apply in_or_app. right. now left. }
        split; [|split; [|split]].
        -- intros n Hn. apply Hsub. apply in_or_app. now left.
        -- intros q [[= ->]|Hin]; [assumption|].
           apply Hqueue. apply in_or_app. now left.
        -- intros n Hn. destruct (Hreach n Hn) as [Hin|[q [Hin Hr]]].
           ++ apply in_app_or in Hin. destruct Hin as [Hin|[<-|[]]]; [now left|].
              right. exists p. split; [now left|]. eapply reaches_root; eassumption.
           ++ right. apply in_app_or in Hin. destruct Hin as [Hin|Hin].
              ** exists q. split; [now right | assumption].
              ** exists p. split; [now left|].
                 apply in_map_iff in Hin. destruct Hin as [c [Hc Hc']].
                 apply get_Declared in Hc.
                 destruct (lookup_Some _ _ _ Hc) as [_ Ec].
                 eapply reaches_trans; [|exact Hr].
                 rewrite Ec.
                 eapply reaches_edge; [eapply reaches_root; exact Hp | exact Hp | exact Hc'].
        -- intros n q c Hn Hnot Hlook Hc.
           destruct (string_dec n (name p)) as [->|Hne].
           ++ rewrite Hp in Hlook. injection Hlook as <-.
              destruct (closed_edge _ _ _ _ Hcl Hpin Hc) as [q Hq'].
              destruct (lookup_Some _ _ _ Hq') as [_ <-].
              apply Hqueue. apply in_or_app. right.
              rewrite <- (get_lookup _ _ _ Hq'). now apply in_map.
           ++ apply (Hclosure n q c Hn); try assumption.
              intros Hin. apply in_app_or in Hin.
              destruct Hin as [Hin|[E|[]]]; [contradiction | congruence].
    + (* collected already: the package is dropped *)
      destruct (IH sel rest) as [sel' [Hrun [Hnd' [Hsub [Hqueue [Hreach Hclosure]]]]]].
      * assumption.
      * intros q Hin. apply Hq. now right.
      * simpl in Hfuel. lia.
      * exists sel'. split; [assumption|]. split; [assumption|].
        split; [assumption|]. split; [|split].
        -- intros q [[= ->]|Hin]; [|now apply Hqueue].
           apply Hsub. now apply notIndexOf_false.
        -- intros n Hn. destruct (Hreach n Hn) as [Hin|[q [Hin Hr]]]; [now left|].
           right. exists q. split; [now right | assumption].
        -- assumption.
Qed.

(** ** The final lookup of the names *)

Lemma collect_ok (allPackages : PackagesByName) (names : list string) :
  (forall n, In n names -> exists p, lookup allPackages n = Some p) ->
  exists ps,
    collect allPackages names = Ok ps /\
    map name ps = names /\
    forall p, In p ps -> lookup allPackages (name p) = Some p.
Proof.
  induction names as [|n names IH]; simpl; intros H.
  - exists []. repeat split. intros p [].
  - destruct (H n (or_introl eq_refl)) as [p Hp]. rewrite (get_lookup _ _ _ Hp).
    destruct IH as [ps [Hrun [Hnames Hps]]].
    { intros x Hx. apply H. now right. }
    rewrite Hrun. simpl. exists (p :: ps). split; [reflexivity|]. split.
    + simpl. destruct (lookup_Some _ _ _ Hp) as [_ ->]. now rewrite Hnames.
    + intros q [<-|Hq]; [now apply lookup_name in Hp | now apply Hps].
Qed.

Lemma collect_total (allPackages : PackagesByName) (names : list string) :
  collect allPackages names <> Throw FuelExhausted.
Proof.
  induction names as [|n names IH]; simpl; [discriminate|].
  destruct (get allPackages n) as [[p|k]|]; try discriminate.
  destruct (collect allPackages names) as [ps|e]; simpl; [discriminate|].
  congruence.
Qed.

(** ** [findTransitiveDependentsOrDependencies] *)

Lemma findTransitive_total (allPackages : PackagesByName) (root : string)
    (key : typeKey) :
  findTransitiveDependentsOrDependencies allPackages root key <> Throw FuelExhausted.
Proof.
  unfold findTransitiveDependentsOrDependencies.
  assert (H := whileQueue_total allPackages key (budget allPackages key) []
                 [get allPackages root]).
  destruct (whileQueue _ _ _ _ _) as [sel|e]; simpl.
  - apply collect_total.
  - intros [= ->]. apply H; [| |reflexivity].
    + intros p [Hp|[]]. apply get_Declared in Hp. now apply lookup_Some in Hp.
    + unfold budget, pending. simpl.
      apply le_n_S. apply Nat.eq_le_incl. f_equal.
Qed.

Lemma findTransitive_ok (allPackages : PackagesByName) (root : string)
    (key : typeKey) (r : Package) :
  closed allPackages key = true ->
  lookup allPackages root = Some r ->
  exists ps,
    findTransitiveDependentsOrDependencies allPackages root key = Ok ps /\
    NoDup (map name ps) /\
    (forall n, In n (map name ps) <-> reaches allPackages key root n) /\
    (forall p, In p ps -> lookup allPackages (name p) = Some p).
Proof.
  intros Hcl Hroot. unfold findTransitiveDependentsOrDependencies.
  destruct (lookup_Some _ _ _ Hroot) as [_ Er].
  destruct (whileQueue_ok allPackages key (budget allPackages key) Hcl []
              [get allPackages root])
    as [sel [Hrun [Hnd [_ [Hqueue [Hreach Hclosure]]]]]].
  - constructor.
  - intros q [<-|[]]. exists r.
    split; [now apply get_lookup | now apply lookup_name in Hroot].
  - unfold budget, pending. simpl. apply le_n_S. apply Nat.eq_le_incl. f_equal.
  - rewrite Hrun. simpl.
    assert (Hsound : forall n, In n sel -> reaches allPackages key root n).
    { intros n Hn. destruct (Hreach n Hn) as [[]|[p [[Hp|[]] Hr]]].
      apply get_Declared in Hp.
      rewrite Hroot in Hp. injection Hp as <-. now rewrite Er in Hr. }
    destruct (collect_ok allPackages sel) as [ps [Hcollect [Hnames Hps]]].
    { intros n Hn. eapply reaches_lookup; [exact Hcl | exact (Hsound n Hn)]. }
    exists ps. split; [assumption|]. rewrite Hnames.
    split; [assumption|]. split; [|assumption].
    intros n. split; [apply Hsound|].
    intros Hr. induction Hr as [a p Ha | a b c p Hab IH Hb Hc].
    + rewrite <- Er. apply Hqueue. left.
      rewrite (get_lookup _ _ _ Hroot). congruence.
    + apply (Hclosure b p c); try assumption.
      * now apply IH.
      * intros [].
Qed.

End TraversalFacts.

(* ================================================================== *)
(** * The selection pipeline *)
(* ================================================================== *)

Module SelectionFacts.
Import Yerna Vocabulary JsFacts TraversalFacts.

(** ** Callbacks that do not throw *)

Lemma filterM_ok {A : Type} (f : A -> result bool) (g : A -> bool) (l : list A) :
  (forall x, In x l -> f x = Ok (g x)) -> filterM f l = Ok (filter g l).
Proof.
  induction l as [|x l IH]; simpl; intros H; [reflexivity|].
  rewrite (H x (or_introl eq_refl)). simpl.
  rewrite IH by (intros y Hy; apply H; now right). simpl.
  now destruct (g x).
Qed.

Lemma flatMapM_ok {A B : Type} (f : A -> result (list B)) (l : list A) :
  (forall x, In x l -> exists ys, f x = Ok ys) ->
  exists zs,
    flatMapM f l = Ok zs /\
    forall z, In z zs <-> exists x ys, In x l /\ f x = Ok ys /\ In z ys.
Proof.
  induction l as [|x l IH]; simpl; intros H.
  - exists []. split; [reflexivity|]. intros z. split; [intros [] |].
    intros [x [ys [[] _]]].
  - destruct (H x (or_introl eq_refl)) as [ys Hys].
    destruct IH as [zs [Hzs Hin]]; [intros y Hy; apply H; now right|].
    rewrite Hys, Hzs. simpl. exists (ys ++ zs). split; [reflexivity|].
    intros z. rewrite in_app_iff, Hin. split.
    + intros [Hz|[y [ys' [Hy [Hf Hz]]]]].
      * exists x, ys. tauto.
      * exists y, ys'. tauto.
    + intros [y [ys' [[<-|Hy] [Hf Hz]]]].
      * left. rewrite Hys in Hf. now injection Hf as <-.
      * right. exists y, ys'. tauto.
Qed.

(** ** Sorted lists of packages *)

Lemma map_StronglySorted {A : Type} (key : A -> string) (l : list A) :
  StronglySorted (fun a b => str_lt (key a) (key b)) l ->
  StronglySorted str_lt (map key l).
Proof.
  induction 1 as [|x l Hs IH Hall]; simpl; constructor; [assumption|].
  rewrite Forall_forall in *. intros k Hk. apply in_map_iff in Hk.
  destruct Hk as [y [<- Hy]]. now apply Hall.
Qed.

Lemma filter_names_NoDup (f : Package -> bool) (l : list Package) :
  NoDup (map name l) -> NoDup (map name (filter f l)).
Proof.
  induction l as [|p l IH]; simpl; intros H; [constructor|].
  inversion H as [|? ? Hp Hnd]; subst.
  destruct (f p); simpl; [|now apply IH].
  constructor; [|now apply IH].
  intros Hin. apply Hp. apply in_map_iff in Hin. destruct Hin as [q [E Hq]].
  apply filter_In in Hq. rewrite <- E. apply in_map. tauto.
Qed.

(** ** Counting by name *)

Lemma occurrences_absent (n : string) (l : list Package) :
  ~ In n (map name l) -> occurrences n l = 0.
Proof.
  unfold occurrences. induction l as [|q l IH]; simpl; intros H; [reflexivity|].
  destruct (String.eqb (name q) n) eqn:E.
  - apply String.eqb_eq in E. tauto.
  - apply IH. tauto.
Qed.

Lemma occurrences_once (p : Package) (l : list Package) :
  NoDup (map name l) -> In p l -> occurrences (name p) l = 1.
Proof.
  induction l as [|q l IH]; simpl; intros Hnd Hin; [destruct Hin|].
  inversion Hnd as [|? ? Hq Hnd']; subst.
  unfold occurrences in *. simpl.
  destruct (String.eqb (name q) (name p)) eqn:E; simpl.
  - apply String.eqb_eq in E. rewrite <- E in *.
    f_equal. now apply occurrences_absent.
  - destruct Hin as [->|Hin]; [now rewrite String.eqb_refl in E | now apply IH].
Qed.

Lemma occurrences_at_most_once (n : string) (l : list Package) :
  NoDup (map name l) -> occurrences n l <= 1.
Proof.
  intros Hnd. destruct (in_dec string_dec n (map name l)) as [Hin|Hout].
  - apply in_map_iff in Hin. destruct Hin as [p [<- Hp]].
    now rewrite occurrences_once.
  - rewrite occurrences_absent by assumption. lia.
Qed.

Section Pipeline.
Variable commander : Commander.
Variable RegExp : Type.
Variable newRegExp : string -> option RegExp.
Variable test : RegExp -> string -> bool.

(** ** [applyIncludeExclude] *)

Lemma some_test_ok (patterns : list string) (s : string) :
  compile_all RegExp newRegExp patterns = true ->
  some_test RegExp newRegExp test patterns s =
    Ok (existsb (fun source => matches RegExp newRegExp test source s) patterns).
Proof.
  unfold Vocabulary.compile_all, Vocabulary.matches.
  induction patterns as [|source patterns IH]; simpl; [reflexivity|].
  rewrite andb_true_iff. intros [Hc Hrest].
  destruct (newRegExp source) as [r|]; [|discriminate].
  destruct (test r s); [reflexivity | now apply IH].
Qed.

Lemma applyIncludeExclude_ok (package : Package) :
  compile_all RegExp newRegExp (include commander) = true ->
  compile_all RegExp newRegExp (exclude commander) = true ->
  applyIncludeExclude commander RegExp newRegExp test package =
    Ok ((Nat.eqb (length (include commander)) 0
         || existsb (fun source => matches RegExp newRegExp test source (name package)) (include commander))
        && negb (existsb (fun source => matches RegExp newRegExp test source (name package))
                   (exclude commander))).
Proof.
  intros Hi He. unfold applyIncludeExclude.
  rewrite (some_test_ok _ _ Hi), (some_test_ok _ _ He).
  destruct (include commander) as [|i li]; destruct (exclude commander) as [|e le];
    simpl; try reflexivity;
    repeat match goal with
           | |- context [if ?b then _ else _] => destruct b; simpl
           end; reflexivity.
Qed.

(** ** [maybeIncludeDependentsAndDependencies] *)

Lemma maybeInclude_ok (allPackages : PackagesByName) (package : Package) :
  graph_ok commander allPackages = true ->
  In package allPackages ->
  exists ps,
    maybeIncludeDependentsAndDependencies commander allPackages package = Ok ps /\
    (forall q, In q ps -> In q allPackages) /\
    In (name package) (map name ps) /\
    (dependents commander = true ->
     forall n, reaches allPackages KlocalDependents (name package) n ->
               In n (map name ps)).
Proof.
  unfold graph_ok. rewrite andb_true_iff. intros [Hdependents Hdependencies] Hin.
  unfold maybeIncludeDependentsAndDependencies.
  (* the packages after the first step *)
  assert (H1 : exists packages1,
             (if dependents commander
              then more <- flatMapM
                     (fun pkg => findTransitiveDependentsOrDependencies allPackages
                                   (name pkg) KlocalDependents) [package] ;;
                   Ok ([package] ++ more)
              else Ok [package]) = Ok packages1 /\
             (forall q, In q packages1 -> In q allPackages) /\
             In (name package) (map name packages1) /\
             (dependents commander = true ->
              forall n, reaches allPackages KlocalDependents (name package) n ->
                        In n (map name packages1))).
  { destruct (dependents commander).
    - destruct (lookup_In _ _ Hin) as [r Hr].
      destruct (findTransitive_ok _ _ _ _ Hdependents Hr)
        as [ds [Hrun [_ [Hreach Hds]]]].
      simpl. rewrite Hrun. simpl. rewrite app_nil_r.
      exists (package :: ds). split; [reflexivity|]. split; [|split].
      + intros q [<-|Hq]; [assumption|].
        apply Hds in Hq. now apply lookup_Some in Hq.
      + now left.
      + intros _ n Hn. right. now apply Hreach.
    - exists [package]. split; [reflexivity|]. split; [|split].
      + now intros q [<-|[]].
      + now left.
      + discriminate. }
  destruct H1 as [packages1 [-> [Hall1 [Hname1 Hreach1]]]]. simpl.
  destruct (Yerna.dependencies commander).
  - destruct (flatMapM_ok
                (fun pkg => findTransitiveDependentsOrDependencies allPackages
                              (name pkg) KlocalDependencies) packages1)
      as [more [-> Hmore]].
    { intros x Hx. destruct (lookup_In _ _ (Hall1 x Hx)) as [r Hr].
      destruct (findTransitive_ok _ _ _ _ Hdependencies Hr) as [ds [Hrun _]].
      now exists ds. }
    simpl. eexists. split; [reflexivity|]. split; [|split].
    + intros q Hq. apply uniqBy_In in Hq. apply in_app_or in Hq.
      destruct Hq as [Hq|Hq]; [now apply Hall1|].
      apply Hmore in Hq. destruct Hq as [x [ys [Hx [Hrun Hq]]]].
      destruct (lookup_In _ _ (Hall1 x Hx)) as [r Hr].
      destruct (findTransitive_ok _ _ _ _ Hdependencies Hr) as [ds [Hrun' [_ [_ Hds]]]].
      rewrite Hrun in Hrun'. injection Hrun' as ->.
      apply Hds in Hq. now apply lookup_Some in Hq.
    + apply uniqBy_key_In. rewrite map_app. apply in_or_app. now left.
    + intros Hd n Hn. apply uniqBy_key_In. rewrite map_app. apply in_or_app.
      left. now apply Hreach1.
  - eexists. split; [reflexivity|]. split; [|split].
    + intros q Hq. apply uniqBy_In in Hq. now apply Hall1.
    + now apply uniqBy_key_In.
    + intros Hd n Hn. apply uniqBy_key_In. now apply Hreach1.
Qed.

(** ** [getSelectedPackages] *)

Lemma filter_noFilter (l : list Package) : filter noFilter l = l.
Proof. induction l as [|p l IH]; simpl; congruence. Qed.

Lemma getSelectedPackages_ok (allPackages : PackagesByName) :
  compile_all RegExp newRegExp (include commander) = true ->
  compile_all RegExp newRegExp (exclude commander) = true ->
  graph_ok commander allPackages = true ->
  exists selected,
    (forall additionalFilter,
       getSelectedPackages commander RegExp newRegExp test true allPackages
         additionalFilter = Ok (filter additionalFilter selected)) /\
    NoDup (map name selected) /\
    StronglySorted str_lt (map name selected) /\
    (forall q, In q selected -> In q allPackages) /\
    (forall F, In F allPackages ->
       applyIncludeExclude commander RegExp newRegExp test F = Ok true ->
       In (name F) (map name selected) /\
       (dependents commander = true ->
        forall n, reaches allPackages KlocalDependents (name F) n ->
                  In n (map name selected))).
Proof.
  intros Hi He Hg. unfold getSelectedPackages. simpl.
  rewrite (filterM_ok _ _ _ (fun x _ => applyIncludeExclude_ok x Hi He)).
  simpl.
  set (accepted := fun x : Package => _ : bool).
  destruct (flatMapM_ok (maybeIncludeDependentsAndDependencies commander allPackages)
              (filter accepted allPackages)) as [expanded [-> Hexp]].
  { intros x Hx. apply filter_In in Hx. destruct Hx as [Hx _].
    destruct (maybeInclude_ok allPackages x Hg Hx) as [ps [Hps _]]. now exists ps. }
  simpl. exists (sortBy name (uniqBy name expanded)).
  assert (Hnd : NoDup (map name (sortBy name (uniqBy name expanded)))).
  { apply (Permutation_NoDup
             (Permutation_map name (Permutation_sym (sortBy_perm name _)))).
    apply uniqBy_NoDup. }
  split; [reflexivity|]. split; [assumption|]. split; [|split].
  - apply map_StronglySorted. apply sorted_strict; [assumption|].
    apply sortBy_sorted.
  - intros q Hq. apply sortBy_In in Hq. apply uniqBy_In in Hq.
    apply Hexp in Hq. destruct Hq as [x [ys [Hx [Hrun Hq]]]].
    apply filter_In in Hx. destruct Hx as [Hx _].
    destruct (maybeInclude_ok allPackages x Hg Hx) as [ps [Hps [Hall _]]].
    rewrite Hrun in Hps. injection Hps as ->. now apply Hall.
  - intros F HF Hacc.
    assert (HFm : In F (filter accepted allPackages)).
    { apply filter_In. split; [assumption|].
      rewrite (applyIncludeExclude_ok F Hi He) in Hacc. now injection Hacc. }
    destruct (maybeInclude_ok allPackages F Hg HF) as [ps [Hps [_ [Hname Hreach]]]].
    assert (Hsub : forall n, In n (map name ps) ->
                             In n (map name (sortBy name (uniqBy name expanded)))).
    { intros n Hn.
      apply (Permutation_in _
               (Permutation_map name (Permutation_sym (sortBy_perm name _)))).
      apply uniqBy_key_In. apply in_map_iff in Hn. destruct Hn as [q [<- Hq]].
      apply in_map. apply Hexp. exists F, ps. tauto. }
    split; [now apply Hsub|].
    intros Hd n Hn. apply Hsub. now apply Hreach.
Qed.
End Pipeline.

End SelectionFacts.

(* ================================================================== *)
(** * Array indices and the canonical order *)
(* ================================================================== *)

Module CanonicalFacts.
Import Mangling Vocabulary Canonical JsFacts ManglingFacts.

(** ** Decimal numerals *)

Lemma digit_bound (c : ascii) (d : N) : digit c = Some d -> (d <= 9)%N.
Proof.
  unfold digit.
  destruct ((48 <=? N_of_ascii c)%N && (N_of_ascii c <=? 57)%N) eqn:E; [|discriminate].
  apply andb_true_iff in E. destruct E as [E1 E2].
  apply N.leb_le in E1. apply N.leb_le in E2. intros [= <-]. lia.
Qed.

Lemma digit_inj (c c' : ascii) (d : N) :
  digit c = Some d -> digit c' = Some d -> c = c'.
Proof.
  unfold digit.
  destruct ((48 <=? N_of_ascii c)%N && (N_of_ascii c <=? 57)%N) eqn:E; [|discriminate].
  destruct ((48 <=? N_of_ascii c')%N && (N_of_ascii c' <=? 57)%N) eqn:E'; [|discriminate].
  apply andb_true_iff in E, E'. destruct E as [E1 _], E' as [E1' _].
  apply N.leb_le in E1. apply N.leb_le in E1'.
  intros [= <-] [= H].
  assert (Hc : N_of_ascii c = N_of_ascii c') by lia.
  rewrite <- (ascii_N_embedding c), <- (ascii_N_embedding c'). now rewrite Hc.
Qed.

Lemma digit_zero (c : ascii) : digit c = Some 0%N -> c = "0"%char.
Proof. intros H. apply (digit_inj c "0"%char 0%N H). reflexivity. Qed.

Lemma pow10_pos (n : nat) : (1 <= pow10 n)%N.
Proof. induction n; cbn [pow10]; lia. Qed.

Lemma pow10_lt (n m : nat) : n < m -> (10 * pow10 n <= pow10 m)%N.
Proof.
  induction 1 as [|m Hle IH]; cbn [pow10]; [lia|].
  assert (H := pow10_pos m). lia.
Qed.

(** The value of a numeral with an accumulator. *)
Lemma digits_value (s : string) :
  forall acc n,
    digits s acc = Some n ->
    exists v, digits s 0 = Some v /\
              n = (acc * pow10 (String.length s) + v)%N /\
              (v < pow10 (String.length s))%N.
Proof.
  induction s as [|c s IH]; cbn [digits String.length pow10]; intros acc n H.
  - injection H as <-. exists 0%N. repeat split; lia.
  - destruct (digit c) as [d|] eqn:Hd; [|discriminate].
    destruct (IH _ _ H) as [v [Hv [-> Hlt]]].
    assert (Hd9 := digit_bound _ _ Hd).
    destruct (digits s (10 * 0 + d)) as [w|] eqn:Hw.
    + destruct (IH _ _ Hw) as [v' [Hv' [-> Hlt']]].
      rewrite Hv in Hv'. injection Hv' as <-.
      eexists. split; [reflexivity|]. split; nia.
    + exfalso. clear -Hv Hw IH.
      (* the parse succeeds or fails whatever the accumulator *)
      assert (Hany : forall s a b x, digits s a = Some x -> exists y, digits s b = Some y).
      { clear. induction s as [|c s IH]; simpl; intros a b x H; [now exists b|].
        destruct (digit c); [|discriminate]. eapply IH; eassumption. }
      destruct (Hany s 0%N (10 * 0 + d)%N v Hv) as [y Hy]. congruence.
Qed.

Lemma digits_inj_length (s s' : string) (v : N) :
  String.length s = String.length s' ->
  digits s 0 = Some v -> digits s' 0 = Some v -> s = s'.
Proof.
  revert s' v. induction s as [|c s IH]; intros [|c' s'] v Hlen H H';
    simpl in Hlen; try discriminate; [reflexivity|].
  injection Hlen as Hlen. cbn [digits] in H, H'.
  destruct (digit c) as [d|] eqn:Hd; [|discriminate].
  destruct (digit c') as [d'|] eqn:Hd'; [|discriminate].
  destruct (digits_value _ _ _ H) as [w [Hw [-> Hlt]]].
  destruct (digits_value _ _ _ H') as [w' [Hw' [E Hlt']]].
  rewrite <- Hlen in *.
  assert (Hd9 := digit_bound _ _ Hd). assert (Hd9' := digit_bound _ _ Hd').
  assert (d = d' /\ w = w') as [<- <-].
  { set (P := pow10 (String.length s)) in *.
    replace (10 * 0 + d)%N with d in E by lia.
    replace (10 * 0 + d')%N with d' in E by lia.
    assert (Hdd : d = d').
    { destruct (N.lt_trichotomy d d') as [L|[L|L]]; [exfalso|assumption|exfalso].
      - assert ((d + 1) * P <= d' * P)%N by (apply N.mul_le_mono_r; lia). lia.
      - assert ((d' + 1) * P <= d * P)%N by (apply N.mul_le_mono_r; lia). lia. }
    subst d'. split; [reflexivity | lia]. }
  f_equal; [exact (digit_inj _ _ _ Hd Hd') | exact (IH _ _ Hlen Hw Hw')].
Qed.

(** A numeral that does not start with 0 has as many digits as its value
    needs. *)
Lemma digits_range (c : ascii) (s : string) (v : N) :
  c <> "0"%char -> digits (String c s) 0 = Some v ->
  (pow10 (String.length s) <= v < 10 * pow10 (String.length s))%N.
Proof.
  intros Hc H. cbn [digits] in H.
  destruct (digit c) as [d|] eqn:Hd; [|discriminate].
  destruct (digits_value _ _ _ H) as [w [_ [-> Hlt]]].
  assert (Hd9 := digit_bound _ _ Hd).
  assert (d <> 0)%N by (intros ->; apply Hc; now apply digit_zero).
  nia.
Qed.

Lemma digits_inj (c c' : ascii) (s s' : string) (v : N) :
  c <> "0"%char -> c' <> "0"%char ->
  digits (String c s) 0 = Some v -> digits (String c' s') 0 = Some v ->
  String c s = String c' s'.
Proof.
  intros Hc Hc' H H'.
  assert (R := digits_range _ _ _ Hc H). assert (R' := digits_range _ _ _ Hc' H').
  assert (Hlen : String.length s = String.length s').
  { destruct (Nat.lt_trichotomy (String.length s) (String.length s')) as [L|[E|L]];
      [|assumption|]; apply pow10_lt in L; lia. }
  apply (digits_inj_length _ _ v); [simpl; now rewrite Hlen | assumption | assumption].
Qed.

(** Two keys that are the same array index are the same key. *)
Lemma arrayIndex_inj (k k' : string) (i : N) :
  arrayIndex k = Some i -> arrayIndex k' = Some i -> k = k'.
Proof.
  unfold arrayIndex. destruct k as [|c s]; [discriminate|].
  destruct k' as [|c' s']; [discriminate|].
  destruct (Ascii.eqb c "0") eqn:E; destruct (Ascii.eqb c' "0") eqn:E'.
  - apply Ascii.eqb_eq in E, E'. subst.
    destruct s; [|discriminate]. destruct s'; [|discriminate]. reflexivity.
  - apply Ascii.eqb_eq in E. apply Ascii.eqb_neq in E'. subst c.
    destruct s; [|discriminate]. intros H H'. injection H as H. subst i.
    destruct (digits (String c' s') 0) as [v|] eqn:Hv; [|discriminate].
    destruct (v <? 4294967295)%N; [|discriminate]. injection H' as H'. subst v.
    assert (R := digits_range _ _ _ E' Hv). assert (P := pow10_pos (String.length s')).
    lia.
  - apply Ascii.eqb_neq in E. apply Ascii.eqb_eq in E'. subst c'.
    intros H H'. destruct s'; [|discriminate]. injection H' as H'. subst i.
    destruct (digits (String c s) 0) as [v|] eqn:Hv; [|discriminate].
    destruct (v <? 4294967295)%N; [|discriminate]. injection H as H. subst v.
    assert (R := digits_range _ _ _ E Hv). assert (P := pow10_pos (String.length s)).
    lia.
  - apply Ascii.eqb_neq in E, E'. intros H H'.
    destruct (digits (String c s) 0) as [v|] eqn:Hv; [|discriminate].
    destruct (v <? 4294967295)%N; [|discriminate]. injection H as H. subst v.
    destruct (digits (String c' s') 0) as [v'|] eqn:Hv'; [|discriminate].
    destruct (v' <? 4294967295)%N; [|discriminate]. injection H' as H'. subst v'.
    exact (digits_inj _ _ _ _ _ E E' Hv Hv').
Qed.

(** ** The order on keys *)

Lemma ltb_trichotomy (a b : string) :
  a = b \/ String.ltb a b = true \/ String.ltb b a = true.
Proof.
  unfold String.ltb. rewrite (String.compare_antisym a b).
  destruct (String.compare b a) eqn:E; simpl; auto.
  left. symmetry. now apply String.compare_eq_iff.
Qed.

Lemma canon_ltb_irrefl (k : string) : canon_ltb k k = false.
Proof.
  unfold canon_ltb. destruct (arrayIndex k); [apply N.ltb_irrefl|].
  destruct (String.ltb k k) eqn:E; [|reflexivity].
  exfalso. exact (str_lt_irrefl _ E).
Qed.

Lemma canon_ltb_trans (a b c : string) :
  canon_ltb a b = true -> canon_ltb b c = true -> canon_ltb a c = true.
Proof.
  unfold canon_ltb.
  destruct (arrayIndex a), (arrayIndex b), (arrayIndex c); try congruence.
  - rewrite !N.ltb_lt. lia.
  - apply str_lt_trans.
Qed.

Lemma canon_ltb_total (a b : string) :
  a <> b -> canon_ltb a b = true \/ canon_ltb b a = true.
Proof.
  intros Hne. unfold canon_ltb.
  destruct (arrayIndex a) as [i|] eqn:Ea, (arrayIndex b) as [j|] eqn:Eb; auto.
  - rewrite !N.ltb_lt.
    destruct (N.lt_trichotomy i j) as [L|[E|L]]; auto.
    subst j. exfalso. apply Hne. exact (arrayIndex_inj _ _ _ Ea Eb).
  - destruct (ltb_trichotomy a b) as [E|[L|L]]; auto.
Qed.

Lemma canonical_keys_cons (k : string) (r : list string) :
  canonical_keys (k :: r) = true <->
  (forall x, In x r -> canon_ltb k x = true) /\ canonical_keys r = true.
Proof. simpl. now rewrite andb_true_iff, forallb_forall. Qed.

Lemma canonical_keys_NoDup (ks : list string) :
  canonical_keys ks = true -> NoDup ks.
Proof.
  induction ks as [|k r IH]; [constructor|].
  rewrite canonical_keys_cons. intros [Hk Hr]. constructor; [|now apply IH].
  intros Hin. apply Hk in Hin. now rewrite canon_ltb_irrefl in Hin.
Qed.

Lemma canon_ltb_key_before (a b : string) :
  canon_ltb a b = true -> key_before a b = true.
Proof.
  unfold canon_ltb, key_before.
  now destruct (arrayIndex a), (arrayIndex b).
Qed.

Lemma canonical_obj_ok (o : obj string) : canonical o = true -> obj_ok o = true.
Proof.
  unfold canonical. intros H. apply obj_ok_iff. split.
  - now apply canonical_keys_NoDup.
  - induction (obj_keys o) as [|k r IH]; [reflexivity|].
    apply canonical_keys_cons in H. destruct H as [Hk Hr].
    simpl. rewrite (IH Hr), andb_true_r. apply forallb_forall.
    intros x Hx. apply canon_ltb_key_before. now apply Hk.
Qed.

Lemma canonical_keys_snoc (ks : list string) (k : string) :
  canonical_keys ks = true ->
  (forall a, In a ks -> canon_ltb a k = true) ->
  canonical_keys (ks ++ [k]) = true.
Proof.
  induction ks as [|x r IH]; intros Hs Hall.
  - reflexivity.
  - apply canonical_keys_cons in Hs. destruct Hs as [Hx Hr].
    change ((x :: r) ++ [k]) with (x :: (r ++ [k])).
    apply canonical_keys_cons. split.
    + intros y Hy. apply in_app_or in Hy. destruct Hy as [Hy|[<-|[]]].
      * now apply Hx.
      * apply Hall. now left.
    + apply IH; [assumption|]. intros a Ha. apply Hall. now right.
Qed.

(** ** Writes that keep the canonical order *)

Lemma obj_keys_insert_index_In (i : N) (k v : string) (o : obj string) (x : string) :
  In x (obj_keys (obj_insert_index i k v o)) <-> x = k \/ In x (obj_keys o).
Proof.
  unfold obj_keys. induction o as [|[k' v'] o IH]; simpl.
  - intuition.
  - destruct (arrayIndex k') as [j|]; [destruct (j <? i)%N|]; simpl;
      rewrite ?IH; intuition.
Qed.

Lemma insert_index_canonical (i : N) (k v : string) (o : obj string) :
  arrayIndex k = Some i -> ~ In k (obj_keys o) ->
  canonical o = true -> canonical (obj_insert_index i k v o) = true.
Proof.
  unfold canonical. intros Hi. induction o as [|[k' v'] o IH]; intros Hk Hs.
  - reflexivity.
  - change (obj_keys ((k', v') :: o)) with (k' :: obj_keys o) in Hk, Hs.
    assert (Hs' := Hs). apply canonical_keys_cons in Hs'. destruct Hs' as [Hk' Hr].
    assert (Hfirst : forall x, In x (obj_keys o) -> canon_ltb k k' = true ->
                               canon_ltb k x = true).
    { intros x Hx Hlt. eapply canon_ltb_trans; [exact Hlt | now apply Hk']. }
    simpl obj_insert_index.
    destruct (arrayIndex k') as [j|] eqn:Ej.
    + destruct (j <? i)%N eqn:Eji.
      * change (obj_keys ((k', v') :: obj_insert_index i k v o))
          with (k' :: obj_keys (obj_insert_index i k v o)).
        apply canonical_keys_cons. split.
        -- intros x Hx. apply obj_keys_insert_index_In in Hx.
           destruct Hx as [->|Hx]; [|now apply Hk'].
           unfold canon_ltb. now rewrite Ej, Hi.
        -- apply IH; [|assumption]. intros Hin. apply Hk. now right.
      * assert (Hlt : canon_ltb k k' = true).
        { destruct (canon_ltb_total k k') as [H|H]; [|assumption|].
          - intros ->. apply Hk. now left.
          - unfold canon_ltb in H. rewrite Ej, Hi in H. congruence. }
        change (obj_keys ((k, v) :: (k', v') :: o)) with (k :: k' :: obj_keys o).
        apply canonical_keys_cons. split; [|assumption].
        intros x [<-|Hx]; [assumption | now apply Hfirst].
    + assert (Hlt : canon_ltb k k' = true)
        by (unfold canon_ltb; now rewrite Hi, Ej).
      change (obj_keys ((k, v) :: (k', v') :: o)) with (k :: k' :: obj_keys o).
      apply canonical_keys_cons. split; [|assumption].
      intros x [<-|Hx]; [assumption | now apply Hfirst].
Qed.

(** A key that is no array index is written in place or at the end: the
    order is kept when the keys that are no array indices are smaller. *)
Lemma obj_set_canonical (k v : string) (o : obj string) :
  canonical o = true ->
  (arrayIndex k = None ->
   forall a, In a (obj_keys o) -> arrayIndex a = None -> a = k \/ str_lt a k) ->
  canonical (obj_set k v o) = true.
Proof.
  intros Hs Hsmall. unfold obj_set.
  destruct (obj_has k o) eqn:Hhas.
  - unfold canonical. now rewrite obj_keys_replace.
  - assert (Hk : ~ In k (obj_keys o)).
    { intros Hin. apply obj_has_keys in Hin. congruence. }
    destruct (String.eqb k "__proto__"); [exact Hs|].
    destruct (arrayIndex k) as [i|] eqn:Hi.
    + now apply insert_index_canonical.
    + unfold canonical, obj_keys. rewrite map_app. simpl.
      apply canonical_keys_snoc; [exact Hs|].
      intros a Ha. unfold canon_ltb. rewrite Hi.
      destruct (arrayIndex a) eqn:Ea; [reflexivity|].
      destruct (Hsmall eq_refl a Ha Ea) as [->|L]; [contradiction | exact L].
Qed.

(** ** [alphabetizeKeys] builds canonical objects *)

Lemma alphabetize_loop_canonical (object : obj string) (ks : list string) :
  StronglySorted (ascending (fun k => k)) ks ->
  forall acc,
    canonical acc = true ->
    (forall a k, In a (obj_keys acc) -> In k ks -> ascending (fun k => k) a k) ->
    canonical
      (fold_left
         (fun alphabetizedObject k =>
            match obj_get k object with
            | Some v => obj_set k v alphabetizedObject
            | None => alphabetizedObject
            end) ks acc) = true.
Proof.
  induction ks as [|k ks IH]; simpl; intros Hs acc Hacc Hle; [assumption|].
  inversion Hs as [|? ? Hs' Hk]; subst.
  destruct (obj_get k object) as [v|].
  - apply IH; [assumption| |].
    + apply obj_set_canonical; [assumption|].
      intros _ a Ha _. apply (Hle a k Ha). now left.
    + intros a b Ha Hb.
      assert (Hin : a = k \/ In a (obj_keys acc)).
      { unfold obj_set in Ha. destruct (obj_has k acc).
        - rewrite obj_keys_replace in Ha. now right.
        - destruct (String.eqb k "__proto__"); [now right|].
          destruct (arrayIndex k) as [i|].
          + now apply obj_keys_insert_index_In in Ha.
          + unfold obj_keys in Ha. rewrite map_app in Ha. apply in_app_or in Ha.
            destruct Ha as [Ha|[<-|[]]]; auto. }
      destruct Hin as [->|Hin].
      * rewrite Forall_forall in Hk. now apply Hk.
      * apply Hle; [assumption | now right].
  - apply IH; [assumption|assumption|].
    intros a b Ha Hb. apply Hle; [assumption | now right].
Qed.

Lemma alphabetizeKeys_canonical (object : obj string) :
  canonical (alphabetizeKeys object) = true.
Proof.
  unfold alphabetizeKeys. apply alphabetize_loop_canonical.
  - apply sortBy_sorted.
  - reflexivity.
  - intros a k [].
Qed.

(** ** Canonical objects are determined by their entries *)

Lemma canonical_get_head (k : string) (o : obj string) :
  (forall x, In x (obj_keys o) -> canon_ltb k x = true) -> obj_get k o = None.
Proof.
  intros H. apply obj_get_None_keys. intros Hin. apply H in Hin.
  now rewrite canon_ltb_irrefl in Hin.
Qed.

Lemma canonical_ext (a b : obj string) :
  canonical a = true -> canonical b = true ->
  (forall n, obj_get n a = obj_get n b) -> a = b.
Proof.
  unfold canonical. revert b.
  induction a as [|[k v] a IH]; intros [|[k' v'] b] Ha Hb Hget.
  - reflexivity.
  - specialize (Hget k'). simpl in Hget. rewrite String.eqb_refl in Hget. discriminate.
  - specialize (Hget k). simpl in Hget. rewrite String.eqb_refl in Hget. discriminate.
  - change (obj_keys ((k, v) :: a)) with (k :: obj_keys a) in Ha.
    change (obj_keys ((k', v') :: b)) with (k' :: obj_keys b) in Hb.
    apply canonical_keys_cons in Ha, Hb.
    destruct Ha as [Hka Ha], Hb as [Hkb Hb].
    assert (Hk : k = k').
    { destruct (string_dec k k') as [E|Hne]; [assumption|exfalso].
      destruct (canon_ltb_total k k' Hne) as [L|L].
      - (* [k] is before every key of the second object *)
        assert (Hn := Hget k). simpl in Hn. rewrite String.eqb_refl in Hn.
        assert (E : String.eqb k' k = false) by (apply String.eqb_neq; congruence).
        rewrite E in Hn.
        rewrite canonical_get_head in Hn; [discriminate|].
        intros x Hx. eapply canon_ltb_trans; [exact L | now apply Hkb].
      - assert (Hn := Hget k'). simpl in Hn. rewrite String.eqb_refl in Hn.
        assert (E : String.eqb k k' = false) by (now apply String.eqb_neq).
        rewrite E in Hn.
        rewrite canonical_get_head in Hn; [discriminate|].
        intros x Hx. eapply canon_ltb_trans; [exact L | now apply Hka]. }
    subst k'.
    assert (Hv := Hget k). simpl in Hv. rewrite String.eqb_refl in Hv.
    injection Hv as <-. f_equal. apply IH; try assumption.
    intros n. specialize (Hget n). simpl in Hget.
    destruct (String.eqb k n) eqn:E; [|assumption].
    apply String.eqb_eq in E. subst n.
    now rewrite !canonical_get_head.
Qed.

(** On a canonical object without [__proto__], [alphabetizeKeys] changes
    nothing. *)
Lemma alphabetizeKeys_id (o : obj string) :
  canonical o = true -> proto_free o = true -> alphabetizeKeys o = o.
Proof.
  intros H Hp. apply canonical_ext; [apply alphabetizeKeys_canonical | assumption |].
  intros n. rewrite obj_get_alphabetizeKeys.
  destruct (String.eqb n "__proto__") eqn:E; [|reflexivity].
  apply String.eqb_eq in E. subst n.
  unfold proto_free, obj_has in Hp.
  now destruct (obj_get "__proto__" o).
Qed.

Lemma proto_free_alphabetizeKeys (o : obj string) :
  proto_free (alphabetizeKeys o) = true.
Proof. unfold proto_free. now rewrite obj_has_alphabetizeKeys_proto. Qed.

Lemma fields_proto_free_field (d : DependencyFields) (key : depKey) (o : obj string) :
  fields_proto_free d = true -> field key d = Some o -> proto_free o = true.
Proof.
  unfold fields_proto_free, depKeys. simpl. rewrite !andb_true_iff.
  intros [H1 [H2 _]] Hf. destruct key; simpl in Hf; rewrite Hf in *; assumption.
Qed.

Lemma fields_canonical_field (d : DependencyFields) (key : depKey) (o : obj string) :
  fields_canonical d = true -> field key d = Some o -> canonical o = true.
Proof.
  unfold fields_canonical, depKeys. simpl. rewrite !andb_true_iff.
  intros [H1 [H2 _]] Hf. destruct key; simpl in Hf; rewrite Hf in *; assumption.
Qed.

Lemma fields_canonical_ok (d : DependencyFields) :
  fields_canonical d = true -> fields_ok d = true.
Proof.
  intros H. unfold fields_ok, depKeys. simpl.
  destruct d as [[o1|] [o2|]]; simpl;
    rewrite ?(canonical_obj_ok o1 (fields_canonical_field _ Kdependencies _ H eq_refl));
    rewrite ?(canonical_obj_ok o2 (fields_canonical_field _ KdevDependencies _ H eq_refl));
    reflexivity.
Qed.

End CanonicalFacts.

(* ================================================================== *)
(** * Mangling and unmangling in sequence *)
(* ================================================================== *)

Module GuardExtraFacts.
Import Mangling Vocabulary Canonical JsFacts ManglingFacts CanonicalFacts.

Lemma fields_ext (d d' : DependencyFields) :
  (forall key, field key d = field key d') -> d = d'.
Proof.
  intros H. destruct d as [a b], d' as [a' b'].
  assert (H1 := H Kdependencies). assert (H2 := H KdevDependencies).
  simpl in H1, H2. congruence.
Qed.

Lemma obj_get_filter (f : string * string -> bool) (P : string -> bool)
    (n : string) (o : obj string) :
  (forall e, f e = P (fst e)) ->
  obj_get n (filter f o) = if P n then obj_get n o else None.
Proof.
  intros Hf. induction o as [|[k v] o IH]; simpl.
  - now destruct (P n).
  - rewrite Hf. simpl. destruct (String.eqb k n) eqn:E.
    + apply String.eqb_eq in E. subst k.
      destruct (P n) eqn:HP; simpl; [now rewrite String.eqb_refl | exact IH].
    + destruct (P k); simpl; [rewrite E|]; exact IH.
Qed.

Lemma In_obj_get (n v : string) (o : obj string) :
  NoDup (obj_keys o) -> In (n, v) o -> obj_get n o = Some v.
Proof.
  induction o as [|[k w] o IH]; simpl; [tauto|].
  intros Hnd [[= -> ->]|Hin].
  - now rewrite String.eqb_refl.
  - inversion Hnd as [|? ? Hk Hnd']; subst.
    destruct (String.eqb k n) eqn:E.
    + apply String.eqb_eq in E. subst. exfalso. apply Hk.
      change n with (fst (n, v)). now apply in_map.
    + now apply IH.
Qed.

(** Merging entries an object already has changes nothing, and neither
    does merging [__proto__] into an object that has no such property. *)
Lemma merge_noop (src o : obj string) :
  (forall k v, In (k, v) src ->
     obj_get k o = Some v \/ (k = "__proto__" /\ obj_has "__proto__" o = false)) ->
  fold_left mergeEntry src o = o.
Proof.
  induction src as [|[k v] src IH]; intros H; [reflexivity|].
  change (fold_left mergeEntry ((k, v) :: src) o)
    with (fold_left mergeEntry src (mergeEntry o (k, v))).
  assert (Hk : mergeEntry o (k, v) = o).
  { unfold mergeEntry. destruct (H k v (or_introl eq_refl)) as [E|[-> Hp]].
    - rewrite E. now rewrite String.eqb_refl.
    - assert (E : obj_get "__proto__" o = None).
      { unfold obj_has in Hp. now destruct (obj_get "__proto__" o). }
      rewrite E. now apply obj_set_proto. }
  rewrite Hk. apply IH. intros k' v' Hin. apply H. now right.
Qed.

(** Merging the same source again into the alphabetized merge changes
    nothing. *)
Lemma remerge_alphabetized (src o : obj string) :
  NoDup (obj_keys src) ->
  alphabetizeKeys (fold_left mergeEntry src (alphabetizeKeys (fold_left mergeEntry src o)))
  = alphabetizeKeys (fold_left mergeEntry src o).
Proof.
  intros Hnd. rewrite merge_noop.
  - apply alphabetizeKeys_id;
      [apply alphabetizeKeys_canonical | apply proto_free_alphabetizeKeys].
  - intros k v Hin. destruct (string_dec k "__proto__") as [->|Hk].
    + right. split; [reflexivity | apply obj_has_alphabetizeKeys_proto].
    + left. rewrite obj_get_alphabetizeKeys.
      apply String.eqb_neq in Hk. rewrite Hk. apply String.eqb_neq in Hk.
      rewrite obj_get_merge by assumption.
      now rewrite (In_obj_get _ _ _ Hnd Hin).
Qed.

(** What the merge of the token of a mangle into the mangled field
    holds: the entries of the original field, [__proto__] apart. *)
Lemma obj_get_remerge (packagesByName : PackagesByName) (o : obj string) (n : string) :
  obj_ok o = true -> n <> "__proto__" ->
  obj_get n (fold_left mergeEntry (filter (recordedEntry packagesByName) o)
               (filter (keptEntry packagesByName) o)) = obj_get n o.
Proof.
  intros Hok Hn. rewrite obj_get_merge.
  - rewrite (obj_get_filter _
               (fun k => hidden packagesByName k && negb (String.eqb k "__proto__")))
      by reflexivity.
    rewrite (obj_get_filter _ (fun k => negb (hidden packagesByName k))) by reflexivity.
    apply String.eqb_neq in Hn. rewrite Hn, andb_true_r.
    destruct (hidden packagesByName n); simpl; [|reflexivity].
    now destruct (obj_get n o).
  - exact Hn.
  - apply (filter_obj_ok (recordedEntry packagesByName)) in Hok.
    apply obj_ok_iff in Hok. tauto.
Qed.

(** The fields of [unmangle] after [mangle]. *)
Lemma unmangle_mangle_field (packagesByName : PackagesByName) (m : PackageJson)
    (key : depKey) :
  fields_ok (depFields m) = true ->
  field key (depFields (unmangle (snd (mangle packagesByName m))
                          (fst (mangle packagesByName m)))) =
  option_map
    (fun o => alphabetizeKeys
                (fold_left mergeEntry (filter (recordedEntry packagesByName) o)
                   (filter (keptEntry packagesByName) o)))
    (field key (depFields m)).
Proof.
  intros Hok. unfold unmangle. cbn [depFields].
  rewrite alphabetize_fields, merge_fields.
  destruct (mangle_fields packagesByName m Hok key) as [-> ->].
  now destruct (field key (depFields m)).
Qed.

(** A field none of whose names is hidden. *)
Lemma filter_kept_all (packagesByName : PackagesByName) (o : obj string) :
  (forall n, In n (obj_keys o) -> hidden packagesByName n = false) ->
  filter (keptEntry packagesByName) o = o /\
  filter (recordedEntry packagesByName) o = [].
Proof.
  induction o as [|[k v] o IH]; simpl; intros H; [split; reflexivity|].
  unfold keptEntry at 1, recordedEntry at 1. simpl.
  rewrite (H k (or_introl eq_refl)). simpl.
  destruct IH as [-> ->]; [|split; reflexivity].
  intros n Hn. apply H. now right.
Qed.

Lemma fields_ok_intro (d : DependencyFields) :
  (forall key o, field key d = Some o -> obj_ok o = true) -> fields_ok d = true.
Proof.
  intros H. unfold fields_ok, depKeys. cbn [forallb].
  assert (H1 := H Kdependencies). assert (H2 := H KdevDependencies).
  destruct (field Kdependencies d) as [o1|]; destruct (field KdevDependencies d) as [o2|];
    rewrite ?(H1 _ eq_refl), ?(H2 _ eq_refl); reflexivity.
Qed.

(** The written manifest still holds objects. *)
Lemma mangle_fields_ok (packagesByName : PackagesByName) (m : PackageJson) :
  fields_ok (depFields m) = true ->
  fields_ok (depFields (fst (mangle packagesByName m))) = true.
Proof.
  intros Hok. apply fields_ok_intro. intros key o Ho.
  destruct (mangle_fields packagesByName m Hok key) as [Hf _].
  rewrite Hf in Ho.
  destruct (field key (depFields m)) as [o'|] eqn:Ho'; [|discriminate].
  injection Ho as <-. apply filter_obj_ok. exact (fields_ok_field _ _ _ Hok Ho').
Qed.

Lemma emptied_field (d : DependencyFields) (key : depKey) :
  field key (emptied d) = option_map (fun _ => []) (field key d).
Proof. now destruct key. Qed.

End GuardExtraFacts.

(* ================================================================== *)
(** * Event handling of the process wrapper *)
(* ================================================================== *)

Module LifecycleFacts.
Import Mangling Vocabulary LifecycleVocabulary JsFacts ManglingFacts.

(** ** Children *)

Lemma set_child_cons (c : nat) (f : ChildProcess -> ChildProcess)
    (x : ChildProcess) (cs : list ChildProcess) :
  set_child (S c) f (x :: cs) = x :: set_child c f cs.
Proof.
  unfold set_child. simpl. now destruct (nth_error cs c).
Qed.

Lemma nth_error_set_child (c i : nat) (f : ChildProcess -> ChildProcess)
    (cs : list ChildProcess) :
  nth_error (set_child c f cs) i =
  if Nat.eqb i c then option_map f (nth_error cs i) else nth_error cs i.
Proof.
  revert c i. induction cs as [|x cs IH]; intros c i.
  - assert (E : set_child c f [] = [])
      by (unfold set_child; destruct c; reflexivity).
    rewrite E. destruct (Nat.eqb i c); destruct i; reflexivity.
  - destruct c as [|c].
    + unfold set_child. simpl. destruct i; reflexivity.
    + rewrite set_child_cons. destruct i as [|i]; [reflexivity|].
      simpl. apply IH.
Qed.

Lemma length_set_child (c : nat) (f : ChildProcess -> ChildProcess)
    (cs : list ChildProcess) :
  length (set_child c f cs) = length cs.
Proof.
  revert c. induction cs as [|x cs IH]; intros c.
  - unfold set_child. now destruct c.
  - destruct c as [|c]; [reflexivity|].
    rewrite set_child_cons. simpl. now rewrite IH.
Qed.

(** ** The parent's ['exit'] *)

Lemma emitProcessExit_fold (w : world) :
  emitProcessExit w = fold_left killStep (processExitListeners w) w.
Proof. reflexivity. Qed.

(** The listeners of other children leave a child, the files and the
    trace alone. *)
Lemma killSteps_frame (child : nat) (ls : list listener) :
  forall w,
    (forall c, In (killOnExit c) ls -> c <> child) ->
    disk (fold_left killStep ls w) = disk w /\
    trace (fold_left killStep ls w) = trace w /\
    processExitListeners (fold_left killStep ls w) = processExitListeners w /\
    nth_error (children (fold_left killStep ls w)) child = nth_error (children w) child.
Proof.
  induction ls as [|[c] ls IH]; intros w H; [repeat split|].
  cbn [fold_left]. destruct (IH (killStep w (killOnExit c))) as [H1 [H2 [H3 H4]]].
  { intros c' Hc'. apply H. now right. }
  rewrite H1, H2, H3, H4. cbn [killStep disk trace processExitListeners children].
  repeat split. rewrite nth_error_set_child.
  assert (Hne : child <> c) by (intros ->; now apply (H c (or_introl eq_refl))).
  apply Nat.eqb_neq in Hne. now rewrite Hne.
Qed.

Lemma hooks_in_range_other (w : world) (c : nat) :
  hooks_in_range w = true -> In (killOnExit c) (processExitListeners w) ->
  c <> length (children w).
Proof.
  unfold hooks_in_range. rewrite forallb_forall. intros H Hin.
  apply H in Hin. apply Nat.ltb_lt in Hin. lia.
Qed.

(** ** Listeners *)

Lemma removeListener_last' (l : list listener) (f : listener) :
  removeListener (l ++ [f]) f = l.
Proof.
  induction l as [|g l IH]; simpl.
  - destruct f. simpl. now rewrite Nat.eqb_refl.
  - rewrite existsb_app. simpl.
    assert (Hf : listener_eqb f f = true) by (destruct f; apply Nat.eqb_refl).
    rewrite Hf, orb_true_r, andb_false_r. now rewrite IH.
Qed.


(** ** The two steps of a task *)

Lemma run_ok (args : list string) (spawnArgs : SpawnArgs)
    (packagesByName : PackagesByName) (process_cwd : string) (w : world)
    (m : PackageJson) :
  holds (disk w) (manifestPath spawnArgs process_cwd) m ->
  runYarnWithPackageJsonMangling args spawnArgs packagesByName process_cwd w =
  Ok (length (children w),
      {| disk := writeFileSync (manifestPath spawnArgs process_cwd)
                   (fst (mangle packagesByName m)) (disk w);
         processExitListeners :=
           processExitListeners w ++ [killOnExit (length (children w))];
         children := children w ++
           [{| spawnfile := "yarn"; spawnargs := args;
               exitOnce := [onChildExit (manifestPath spawnArgs process_cwd)
                              (snd (mangle packagesByName m))
                              (killOnExit (length (children w)))];
               kills := 0 |}];
         trace := trace w ++ [Mangled (manifestPath spawnArgs process_cwd);
                              Spawned (length (children w))] |}).
Proof.
  intros Hdisk. unfold runYarnWithPackageJsonMangling, manglePackageJson.
  rewrite (readFileSync_holds _ _ _ Hdisk). cbn [bind].
  now destruct (mangle packagesByName m).
Qed.

Lemma exit_ok (child : nat) (code : option Z) (signal : option string) (w : world)
    (ch : ChildProcess) (packageJsonPath : string) (mangleToken : DependencyFields)
    (hook : nat) (m : PackageJson) :
  nth_error (children w) child = Some ch ->
  exitOnce ch = [onChildExit packageJsonPath mangleToken (killOnExit hook)] ->
  holds (disk w) packageJsonPath m ->
  emitChildExit child code signal w =
  Ok {| disk := writeFileSync packageJsonPath (unmangle mangleToken m) (disk w);
        processExitListeners := removeListener (processExitListeners w) (killOnExit hook);
        children := set_child child exited (children w);
        trace := trace w ++ [Unmangled packageJsonPath; HookRemoved hook] |}.
Proof.
  intros Hch Honce Hdisk. unfold emitChildExit. rewrite Hch, Honce.
  cbn [runAll runOnce disk]. unfold unmanglePackageJson.
  rewrite (readFileSync_holds _ _ _ Hdisk). reflexivity.
Qed.

(** A child that has exited ignores a further ['exit']. *)
Lemma exit_again (child : nat) (code : option Z) (signal : option string) (w : world)
    (ch : ChildProcess) :
  nth_error (children w) child = Some ch -> exitOnce ch = [] ->
  emitChildExit child code signal w =
  Ok {| disk := disk w; processExitListeners := processExitListeners w;
        children := set_child child exited (children w); trace := trace w |}.
Proof.
  intros Hch Honce. unfold emitChildExit. now rewrite Hch, Honce.
Qed.

End LifecycleFacts.

(* ================================================================== *)
(** * The expansion, exactly *)
(* ================================================================== *)

Module SelectionExtraFacts.
Import Yerna Vocabulary SelectionVocabulary JsFacts TraversalFacts SelectionFacts.

Lemma uniqBy_names (l : list Package) (n : string) :
  In n (map name (uniqBy name l)) <-> In n (map name l).
Proof.
  split; [|apply uniqBy_key_In].
  intros H. apply in_map_iff in H. destruct H as [p [<- Hp]].
  apply in_map. now apply uniqBy_In in Hp.
Qed.

Lemma sortBy_names (l : list Package) (n : string) :
  In n (map name (sortBy name l)) <-> In n (map name l).
Proof.
  split; intros H; apply in_map_iff in H; destruct H as [p [<- Hp]]; apply in_map.
  - now apply sortBy_In in Hp.
  - now apply sortBy_In.
Qed.

Section Expansion.
Variable commander : Commander.
Variable RegExp : Type.
Variable newRegExp : string -> option RegExp.
Variable test : RegExp -> string -> bool.

(** The names [maybeIncludeDependentsAndDependencies] returns. *)
Lemma maybeInclude_exact (allPackages : PackagesByName) (package : Package) :
  graph_ok commander allPackages = true ->
  In package allPackages ->
  exists ps,
    maybeIncludeDependentsAndDependencies commander allPackages package = Ok ps /\
    NoDup (map name ps) /\
    (forall q, In q ps -> In q allPackages) /\
    forall n, In n (map name ps) <-> expansion commander allPackages package n.
Proof.
  unfold graph_ok. rewrite andb_true_iff. intros [Hdependents Hdependencies] Hin.
  unfold maybeIncludeDependentsAndDependencies, expansion, with_dependents.
  assert (H1 : exists packages1,
             (if dependents commander
              then more <- flatMapM
                     (fun pkg => findTransitiveDependentsOrDependencies allPackages
                                   (name pkg) KlocalDependents) [package] ;;
                   Ok ([package] ++ more)
              else Ok [package]) = Ok packages1 /\
             (forall q, In q packages1 -> In q allPackages) /\
             (forall n, In n (map name packages1) <->
                n = name package \/
                (dependents commander = true /\
                 reaches allPackages KlocalDependents (name package) n))).
  { destruct (dependents commander).
    - destruct (lookup_In _ _ Hin) as [r Hr].
      destruct (findTransitive_ok _ _ _ _ Hdependents Hr)
        as [ds [Hrun [_ [Hreach Hds]]]].
      simpl. rewrite Hrun. simpl. rewrite app_nil_r.
      exists (package :: ds). split; [reflexivity|]. split.
      + intros q [<-|Hq]; [assumption|].
        apply Hds in Hq. now apply lookup_Some in Hq.
      + intros n. simpl. rewrite Hreach. split.
        * intros [H|H]; [left; congruence | right; tauto].
        * intros [H|[_ H]]; [left; congruence | now right].
    - exists [package]. split; [reflexivity|]. split.
      + now intros q [<-|[]].
      + intros n. simpl. split.
        * intros [H|[]]. left. congruence.
        * intros [H|[H _]]; [left; congruence | discriminate]. }
  destruct H1 as [packages1 [-> [Hall1 Hnames1]]]. cbn [bind].
  destruct (Yerna.dependencies commander).
  - destruct (flatMapM_ok
                (fun pkg => findTransitiveDependentsOrDependencies allPackages
                              (name pkg) KlocalDependencies) packages1)
      as [more [-> Hmore]].
    { intros x Hx. destruct (lookup_In _ _ (Hall1 x Hx)) as [r Hr].
      destruct (findTransitive_ok _ _ _ _ Hdependencies Hr) as [ds [Hrun _]].
      now exists ds. }
    cbn [bind]. eexists. split; [reflexivity|].
    split; [apply uniqBy_NoDup|].
    assert (Hmore' : forall z, In z more <->
               exists x, In x packages1 /\
                 In z more /\ reaches allPackages KlocalDependencies (name x) (name z) /\
                 lookup allPackages (name z) = Some z).
    { intros z. split; [|intros [x [_ [Hz _]]]; exact Hz].
      intros Hz. destruct (proj1 (Hmore z) Hz) as [x [ys [Hx [Hrun Hzy]]]].
      destruct (lookup_In _ _ (Hall1 x Hx)) as [r Hr].
      destruct (findTransitive_ok _ _ _ _ Hdependencies Hr)
        as [ds [Hrun' [_ [Hreach Hds]]]].
      rewrite Hrun in Hrun'. injection Hrun' as ->.
      exists x. repeat split; try assumption.
      - apply Hreach. now apply in_map.
      - now apply Hds. }
    split.
    + intros q Hq. apply uniqBy_In in Hq. apply in_app_or in Hq.
      destruct Hq as [Hq|Hq]; [now apply Hall1|].
      apply Hmore' in Hq. destruct Hq as [x [_ [_ [_ Hl]]]].
      now apply lookup_Some in Hl.
    + intros n. rewrite uniqBy_names, map_app, in_app_iff, Hnames1.
      split.
      * intros [H|H]; [now left|]. right. split; [reflexivity|].
        apply in_map_iff in H. destruct H as [z [<- Hz]].
        apply Hmore' in Hz. destruct Hz as [x [Hx [_ [Hr _]]]].
        exists (name x). split; [|assumption].
        apply Hnames1. now apply in_map.
      * intros [H|[_ [q [Hq Hr]]]]; [now left|]. right.
        apply Hnames1 in Hq. apply in_map_iff in Hq. destruct Hq as [x [<- Hx]].
        destruct (lookup_In _ _ (Hall1 x Hx)) as [r Hlr].
        destruct (findTransitive_ok _ _ _ _ Hdependencies Hlr)
          as [ds [Hrun [_ [Hreach _]]]].
        apply Hreach in Hr. apply in_map_iff in Hr. destruct Hr as [z [<- Hz]].
        apply in_map. apply Hmore. exists x, ds. tauto.
  - eexists. split; [reflexivity|]. split; [apply uniqBy_NoDup|]. split.
    + intros q Hq. apply uniqBy_In in Hq. now apply Hall1.
    + intros n. rewrite uniqBy_names, Hnames1.
      split; [now left|]. intros [H|[H _]]; [assumption | discriminate].
Qed.

(** The names [getSelectedPackages] returns. *)
Lemma selection_exact (allPackages : PackagesByName) :
  compile_all RegExp newRegExp (include commander) = true ->
  compile_all RegExp newRegExp (exclude commander) = true ->
  graph_ok commander allPackages = true ->
  exists selected,
    (forall additionalFilter,
       getSelectedPackages commander RegExp newRegExp test true allPackages
         additionalFilter = Ok (filter additionalFilter selected)) /\
    NoDup (map name selected) /\
    StronglySorted str_lt (map name selected) /\
    (forall q, In q selected -> In q allPackages) /\
    forall n, In n (map name selected) <->
      exists F, In F allPackages /\
                applyIncludeExclude commander RegExp newRegExp test F = Ok true /\
                expansion commander allPackages F n.
Proof.
  intros Hi He Hg. unfold getSelectedPackages. simpl.
  rewrite (filterM_ok _ _ _
             (fun x _ => applyIncludeExclude_ok commander RegExp newRegExp test x Hi He)).
  simpl.
  set (accepted := fun x : Package => _ : bool).
  destruct (flatMapM_ok (maybeIncludeDependentsAndDependencies commander allPackages)
              (filter accepted allPackages)) as [expanded [-> Hexp]].
  { intros x Hx. apply filter_In in Hx. destruct Hx as [Hx _].
    destruct (maybeInclude_exact allPackages x Hg Hx) as [ps [Hps _]]. now exists ps. }
  simpl. exists (sortBy name (uniqBy name expanded)).
  assert (Hnd : NoDup (map name (sortBy name (uniqBy name expanded)))).
  { apply (Permutation_NoDup
             (Permutation_map name (Permutation_sym (sortBy_perm name _)))).
    apply uniqBy_NoDup. }
  split; [reflexivity|]. split; [assumption|]. split; [|split].
  - apply map_StronglySorted. apply sorted_strict; [assumption|].
    apply sortBy_sorted.
  - intros q Hq. apply sortBy_In in Hq. apply uniqBy_In in Hq.
    apply Hexp in Hq. destruct Hq as [x [ys [Hx [Hrun Hq]]]].
    apply filter_In in Hx. destruct Hx as [Hx _].
    destruct (maybeInclude_exact allPackages x Hg Hx) as [ps [Hps [_ [Hall _]]]].
    rewrite Hrun in Hps. injection Hps as ->. now apply Hall.
  - intros n. rewrite sortBy_names, uniqBy_names. split.
    + intros H. apply in_map_iff in H. destruct H as [z [<- Hz]].
      apply Hexp in Hz. destruct Hz as [F [ys [HF [Hrun Hz]]]].
      apply filter_In in HF. destruct HF as [HF Hacc].
      destruct (maybeInclude_exact allPackages F Hg HF) as [ps [Hps [_ [_ Hnames]]]].
      rewrite Hrun in Hps. injection Hps as ->.
      exists F. split; [assumption|]. split.
      * rewrite (applyIncludeExclude_ok commander RegExp newRegExp test F Hi He).
        f_equal. exact Hacc.
      * apply Hnames. now apply in_map.
    + intros [F [HF [Hacc Hn]]].
      destruct (maybeInclude_exact allPackages F Hg HF) as [ps [Hps [_ [_ Hnames]]]].
      apply Hnames in Hn. apply in_map_iff in Hn. destruct Hn as [z [<- Hz]].
      apply in_map. apply Hexp. exists F, ps. split; [|tauto].
      apply filter_In. split; [assumption|].
      rewrite (applyIncludeExclude_ok commander RegExp newRegExp test F Hi He) in Hacc.
      now injection Hacc.
Qed.
End Expansion.

End SelectionExtraFacts.

(* ================================================================== *)
(** * The traversal on graphs with missing packages *)
(* ================================================================== *)

Module TraversalExtraFacts.
Import Yerna Vocabulary SelectionVocabulary JsFacts TraversalFacts.

(** The loop throws nothing but the TypeError of an [undefined] package
    or of an inherited member (and, in the model, the exhaustion of its
    budget). *)
Lemma whileQueue_throws (allPackages : PackagesByName) (key : typeKey) (fuel : nat) :
  forall sel queue e,
    whileQueue fuel allPackages key sel queue = Throw e ->
    e = TypeError \/ e = FuelExhausted.
Proof.
  induction fuel as [|fuel IH]; intros sel queue e H.
  - destruct queue; simpl in H; [discriminate|]. injection H as <-. now right.
  - destruct queue as [|[[p|k]|] rest]; simpl in H; [discriminate| | |].
    + destruct (notIndexOf sel (name p)); eapply IH; exact H.
    + destruct (inheritedName k) as [n|]; [|injection H as <-; now left].
      destruct (notIndexOf sel n); [injection H as <-; now left|].
      eapply IH; exact H.
    + injection H as <-. now left.
Qed.

Lemma collect_throws (allPackages : PackagesByName) (names : list string) (e : exn) :
  collect allPackages names = Throw e -> e = TypeError.
Proof.
  induction names as [|n names IH]; simpl; [discriminate|].
  destruct (get allPackages n) as [[p|k]|]; try now intros [= <-].
  destruct (collect allPackages names) as [ps|e']; simpl; [discriminate|].
  intros [= <-]. now apply IH.
Qed.

Lemma reaches_from_package (allPackages : PackagesByName) (key : typeKey)
    (a b : string) :
  reaches allPackages key a b -> exists p, lookup allPackages a = Some p.
Proof.
  induction 1 as [a p Ha | a b c p Hab IH Hb Hc]; [now exists p | exact IH].
Qed.

(** When the loop ends, nothing it took from the queue was [undefined],
    and every edge of a package it collected led to a member of
    [allPackages], collected too if it is a package. *)
Lemma whileQueue_sound (allPackages : PackagesByName) (key : typeKey) (fuel : nat) :
  forall sel queue sel',
    (forall p, In (Some (Declared p)) queue -> lookup allPackages (name p) = Some p) ->
    whileQueue fuel allPackages key sel queue = Ok sel' ->
    (forall q, In q queue -> q <> None) /\
    (forall n, In n sel -> In n sel') /\
    (forall p, In (Some (Declared p)) queue -> In (name p) sel') /\
    (forall n p c, In n sel' -> ~ In n sel -> lookup allPackages n = Some p ->
       In c (edges key p) ->
       get allPackages c <> None /\
       (forall q, lookup allPackages c = Some q -> In c sel')).
Proof.
  induction fuel as [|fuel IH]; intros sel queue sel' Hq Hrun.
  - destruct queue; simpl in Hrun; [|discriminate]. injection Hrun as <-.
    repeat split; try tauto; intros ? [].
  - destruct queue as [|[[p|k]|] rest]; simpl in Hrun; [| | |discriminate].
    { injection Hrun as <-. repeat split; try tauto; intros ? []. }
    + assert (Hp : lookup allPackages (name p) = Some p) by (apply Hq; now left).
      destruct (notIndexOf sel (name p)) eqn:Hsel.
      * apply IH in Hrun.
        -- destruct Hrun as [Hsome [Hsub [Hqueue Hclosure]]].
           assert (Hname : In (name p) sel').
           { apply Hsub. apply in_or_app. right. now left. }
           assert (Hedges : forall c, In c (edges key p) ->
                     get allPackages c <> None /\
                     (forall q, lookup allPackages c = Some q -> In c sel')).
           { intros c Hc.
             assert (Hin : In (get allPackages c)
                             (rest ++ map (get allPackages) (edges key p))).
             { apply in_or_app. right. now apply in_map. }
             split; [exact (Hsome _ Hin)|].
             intros q Hlc. rewrite (get_lookup _ _ _ Hlc) in Hin.
             destruct (lookup_Some _ _ _ Hlc) as [_ <-]. now apply Hqueue. }
           split; [|split; [|split]].
           ++ intros q [<-|Hin]; [discriminate|].
              apply Hsome. apply in_or_app. now left.
           ++ intros n Hn. apply Hsub. apply in_or_app. now left.
           ++ intros q [[= ->]|Hin]; [assumption|].
              apply Hqueue. apply in_or_app. now left.
           ++ intros n q c Hn Hnot Hlook Hc.
              destruct (string_dec n (name p)) as [->|Hne].
              ** rewrite Hp in Hlook. injection Hlook as <-. now apply Hedges.
              ** apply (Hclosure n q c Hn); try assumption.
                 intros Hin. apply in_app_or in Hin.
                 destruct Hin as [Hin|[E|[]]]; [contradiction | congruence].
        -- intros q Hin. apply in_app_or in Hin. destruct Hin as [Hin|Hin].
           ++ apply Hq. now right.
           ++ apply in_map_iff in Hin. destruct Hin as [c [Hc _]].
              apply get_Declared in Hc. now apply lookup_name in Hc.
      * apply IH in Hrun.
        -- destruct Hrun as [Hsome [Hsub [Hqueue Hclosure]]].
           split; [|split; [|split]]; try assumption.
           ++ intros q [<-|Hin]; [discriminate | now apply Hsome].
           ++ intros q [[= ->]|Hin]; [|now apply Hqueue].
              apply Hsub. now apply notIndexOf_false.
        -- intros q Hin. apply Hq. now right.
    + (* an inherited member whose name is collected already *)
      destruct (inheritedName k) as [n|]; [|discriminate].
      destruct (notIndexOf sel n); [discriminate|].
      apply IH in Hrun.
      * destruct Hrun as [Hsome [Hsub [Hqueue Hclosure]]].
        split; [|split; [|split]]; try assumption.
        -- intros q [<-|Hin]; [discriminate | now apply Hsome].
        -- intros q [[=]|Hin]. now apply Hqueue.
      * intros q Hin. apply Hq. now right.
Qed.

(** Whatever the graph, the loop collects names of packages only, so the
    final accesses all answer a package. *)
Lemma whileQueue_collects_packages (allPackages : PackagesByName) (key : typeKey)
    (fuel : nat) :
  forall sel queue sel',
    (forall n, In n sel -> exists p, lookup allPackages n = Some p) ->
    (forall p, In (Some (Declared p)) queue -> lookup allPackages (name p) = Some p) ->
    whileQueue fuel allPackages key sel queue = Ok sel' ->
    forall n, In n sel' -> exists p, lookup allPackages n = Some p.
Proof.
  induction fuel as [|fuel IH]; intros sel queue sel' Hsel Hq Hrun.
  - destruct queue; simpl in Hrun; [|discriminate]. injection Hrun as <-. exact Hsel.
  - destruct queue as [|[[p|k]|] rest]; simpl in Hrun; [| | |discriminate].
    { injection Hrun as <-. exact Hsel. }
    + assert (Hp : lookup allPackages (name p) = Some p) by (apply Hq; now left).
      destruct (notIndexOf sel (name p)).
      * refine (IH _ _ _ _ _ Hrun).
        -- intros n Hn. apply in_app_or in Hn.
           destruct Hn as [Hn|[<-|[]]]; [now apply Hsel | now exists p].
        -- intros q Hin. apply in_app_or in Hin. destruct Hin as [Hin|Hin].
           ++ apply Hq. now right.
           ++ apply in_map_iff in Hin. destruct Hin as [c [Hc _]].
              apply get_Declared in Hc. now apply lookup_name in Hc.
      * refine (IH _ _ _ Hsel _ Hrun).
        intros q Hin. apply Hq. now right.
    + destruct (inheritedName k) as [n|]; [|discriminate].
      destruct (notIndexOf sel n); [discriminate|].
      refine (IH _ _ _ Hsel _ Hrun).
      intros q Hin. apply Hq. now right.
Qed.

Lemma collect_after_loop (allPackages : PackagesByName) (root : string)
    (key : typeKey) (fuel : nat) (sel : list string) :
  whileQueue fuel allPackages key [] [get allPackages root] = Ok sel ->
  exists ps, collect allPackages sel = Ok ps /\ map name ps = sel.
Proof.
  intros Hrun.
  destruct (collect_ok allPackages sel) as [ps [Hps [Hnames _]]].
  - eapply whileQueue_collects_packages; [| |exact Hrun].
    + intros n [].
    + intros p [Hp|[]]. apply get_Declared in Hp. now apply lookup_name in Hp.
  - now exists ps.
Qed.

(** A result means that [allPackages] has something under the root's
    name and that no package found from it names anything missing. *)
Lemma findTransitive_Ok_closed (allPackages : PackagesByName) (root : string)
    (key : typeKey) (ps : list Package) :
  findTransitiveDependentsOrDependencies allPackages root key = Ok ps ->
  get allPackages root <> None /\ ~ dangling allPackages key root.
Proof.
  unfold findTransitiveDependentsOrDependencies. intros H.
  destruct (whileQueue _ _ _ _ _) as [sel|e] eqn:Hrun; [|discriminate].
  clear H. apply whileQueue_sound in Hrun.
  - destruct Hrun as [Hsome [_ [Hqueue Hclosure]]].
    assert (Hroot := Hsome _ (or_introl eq_refl)).
    split; [assumption|].
    intros [b [p [c [Hb [Hp [Hc Hmiss]]]]]].
    destruct (reaches_from_package _ _ _ _ Hb) as [r Hr].
    destruct (lookup_Some _ _ _ Hr) as [_ Er].
    assert (Hin : forall b, reaches allPackages key root b ->
                    forall q, lookup allPackages b = Some q -> In b sel).
    { clear b p c Hb Hp Hc Hmiss.
      intros b Hb. induction Hb as [a p Ha | a b c p Hab IH Hb Hc]; intros q Hq.
      - rewrite <- Er. apply Hqueue. left.
        rewrite (get_lookup _ _ _ Hr). reflexivity.
      - destruct (Hclosure b p c) as [_ Hdecl]; try assumption;
          [now apply (IH Hsome Hqueue Hroot Hr Er p) | intros [] |].
        now apply (Hdecl q). }
    destruct (Hclosure b p c (Hin b Hb p Hp)) as [Hne _]; try assumption;
      [intros []|].
    contradiction.
  - intros p [Hp|[]]. apply get_Declared in Hp. now apply lookup_name in Hp.
Qed.

End TraversalExtraFacts.

(* ================================================================== *)
(** * The order of the packages does not matter *)
(* ================================================================== *)

Module PermutationFacts.
Import Yerna Vocabulary SelectionVocabulary JsFacts TraversalFacts SelectionFacts.

Lemma lookup_perm (all all' : PackagesByName) (n : string) :
  distinct (map name all) = true -> Permutation all all' ->
  lookup all n = lookup all' n.
Proof.
  intros Hd Hperm.
  assert (Hd' : distinct (map name all') = true).
  { apply distinct_NoDup. apply distinct_NoDup in Hd.
    exact (Permutation_NoDup (Permutation_map name Hperm) Hd). }
  destruct (lookup all n) as [p|] eqn:E.
  - destruct (lookup_Some _ _ _ E) as [Hin <-].
    symmetry. apply lookup_distinct; [assumption|].
    exact (Permutation_in _ Hperm Hin).
  - destruct (lookup all' n) as [p'|] eqn:E'; [|reflexivity].
    destruct (lookup_Some _ _ _ E') as [Hin <-].
    apply (Permutation_in _ (Permutation_sym Hperm)) in Hin.
    rewrite (lookup_distinct _ _ Hd Hin) in E. discriminate.
Qed.

Lemma reaches_perm (all all' : PackagesByName) (key : typeKey) (a b : string) :
  distinct (map name all) = true -> Permutation all all' ->
  reaches all key a b -> reaches all' key a b.
Proof.
  intros Hd Hperm H. induction H as [a p Ha | a b c p Hab IH Hb Hc].
  - apply (reaches_root _ _ _ p). now rewrite <- (lookup_perm all all').
  - apply (reaches_edge _ _ _ b _ p); try assumption.
    now rewrite <- (lookup_perm all all').
Qed.

Lemma closed_perm (all all' : PackagesByName) (key : typeKey) :
  distinct (map name all) = true -> Permutation all all' ->
  closed all key = true -> closed all' key = true.
Proof.
  intros Hd Hperm. unfold closed. rewrite !forallb_forall.
  intros H p Hp. apply (Permutation_in _ (Permutation_sym Hperm)) in Hp.
  specialize (H p Hp). rewrite forallb_forall in *.
  intros n Hn. rewrite <- (lookup_perm all all') by assumption. now apply H.
Qed.

Lemma graph_ok_perm (commander : Commander) (all all' : PackagesByName) :
  distinct (map name all) = true -> Permutation all all' ->
  graph_ok commander all = true -> graph_ok commander all' = true.
Proof.
  intros Hd Hperm. unfold graph_ok. rewrite !andb_true_iff. intros [H1 H2]. split.
  - destruct (dependents commander); [|reflexivity]. now apply (closed_perm all).
  - destruct (Yerna.dependencies commander); [|reflexivity]. now apply (closed_perm all).
Qed.

Lemma expansion_perm (commander : Commander) (all all' : PackagesByName)
    (F : Package) (n : string) :
  distinct (map name all) = true -> Permutation all all' ->
  expansion commander all F n -> expansion commander all' F n.
Proof.
  intros Hd Hperm. unfold expansion, with_dependents.
  intros [[H|[H1 H2]]|[H1 [q [[H2|[H2 H3]] H4]]]].
  - left. now left.
  - left. right. split; [assumption|]. now apply (reaches_perm all).
  - right. split; [assumption|]. exists q. split; [now left|].
    now apply (reaches_perm all).
  - right. split; [assumption|]. exists q. split.
    + right. split; [assumption|]. now apply (reaches_perm all).
    + now apply (reaches_perm all).
Qed.

(** Strictly ascending lists with the same members are the same list. *)
Lemma sorted_same_members (l l' : list string) :
  StronglySorted str_lt l -> StronglySorted str_lt l' ->
  (forall x, In x l <-> In x l') -> l = l'.
Proof.
  revert l'. induction l as [|a l IH]; intros [|a' l'] Hs Hs' Hmem.
  - reflexivity.
  - exfalso. apply (Hmem a'). now left.
  - exfalso. apply (Hmem a). now left.
  - inversion Hs as [|? ? Hsl Ha]; subst. inversion Hs' as [|? ? Hsl' Ha']; subst.
    rewrite Forall_forall in Ha, Ha'.
    assert (E : a = a').
    { destruct (proj1 (Hmem a) (or_introl eq_refl)) as [E|Hin]; [congruence|].
      destruct (proj2 (Hmem a') (or_introl eq_refl)) as [E|Hin']; [assumption|].
      exfalso. apply (str_lt_irrefl a).
      eapply str_lt_trans; [apply Ha; exact Hin' | apply Ha'; exact Hin]. }
    subst a'. f_equal. apply IH; try assumption.
    intros x. split; intros Hx.
    + destruct (proj1 (Hmem x) (or_intror Hx)) as [E|H]; [|assumption].
      subst x. exfalso. exact (str_lt_irrefl _ (Ha _ Hx)).
    + destruct (proj2 (Hmem x) (or_intror Hx)) as [E|H]; [|assumption].
      subst x. exfalso. exact (str_lt_irrefl _ (Ha' _ Hx)).
Qed.

(** Lists of packages with the same names, each the package its name
    looks up, are the same list. *)
Lemma same_names_same_packages (all : PackagesByName) (l l' : list Package) :
  map name l = map name l' ->
  (forall q, In q l -> lookup all (name q) = Some q) ->
  (forall q, In q l' -> lookup all (name q) = Some q) ->
  l = l'.
Proof.
  revert l'. induction l as [|p l IH]; intros [|p' l'] Hn Hl Hl';
    simpl in Hn; try discriminate; [reflexivity|].
  injection Hn as Hp Hn.
  assert (E : p = p').
  { assert (H := Hl p (or_introl eq_refl)). assert (H' := Hl' p' (or_introl eq_refl)).
    rewrite Hp in H. congruence. }
  subst p'. f_equal. apply IH; [assumption| |]; intros q Hq; [apply Hl | apply Hl'];
    now right.
Qed.

End PermutationFacts.

(* ================================================================== *)
(** * Properties of the manifest mutation guard *)
(* ================================================================== *)

Module ManifestGuard.
Import Mangling Vocabulary JsFacts ManglingFacts Samples.

(** C3 at a manifest that depends on the registry packages constructor
    and left-pad, in a monorepo whose one package is @org/b:
    [manglePackageJson] removes the entry of constructor, which is not the
    name of a package of the monorepo, from the manifest it writes, and
    records it in the token. *)
Theorem mangle_removes_inherited_name (packageJsonPath : string) (disk : fs) :
  excluded [orgB] "constructor" = false /\
  entry "constructor" (field Kdependencies (depFields constructorManifest)) =
    Some "1.0.0" /\
  manglePackageJson packageJsonPath [orgB]
    (writeFileSync packageJsonPath constructorManifest disk) =
    Ok ({| dependencies := Some [("constructor", "1.0.0")];
           devDependencies := None |},
        writeFileSync packageJsonPath
          {| depFields := {| dependencies := Some [("left-pad", "1.0.0")];
                             devDependencies := None |};
             otherFields := [] |}
          (writeFileSync packageJsonPath constructorManifest disk)).
Proof.
  split; [reflexivity|]. split; [reflexivity|].
  unfold manglePackageJson.
  rewrite (readFileSync_holds _ _ _ (holds_writeFileSync _ _ _)).
  reflexivity.
Qed.

(** The part of C3 that holds: when no name in the dependency fields is
    one every object inherits, [manglePackageJson] writes back a manifest
    whose [dependencies] and [devDependencies] hold exactly the original
    entries whose key is not the name of a package of the monorepo,
    returns a token that holds, field by field, exactly the removed
    entries with their original versions, and leaves every other member
    of the manifest as it was. *)
Theorem mangle_removes_exactly_the_excluded
    (packagesByName : PackagesByName) (packageJsonPath : string)
    (disk : fs) (m : PackageJson) :
  holds disk packageJsonPath m ->
  fields_ok (depFields m) = true ->
  no_inherited_name (depFields m) = true ->
  exists removedDependencies mangledPackageJson,
    manglePackageJson packageJsonPath packagesByName disk =
      Ok (removedDependencies, writeFileSync packageJsonPath mangledPackageJson disk) /\
    otherFields mangledPackageJson = otherFields m /\
    forall key,
      field key (depFields mangledPackageJson) =
        option_map (filter (fun e => negb (excludedEntry packagesByName e)))
          (field key (depFields m)) /\
      field key removedDependencies =
        option_map (filter (excludedEntry packagesByName)) (field key (depFields m)).
Proof.
  intros Hdisk Hok Hni.
  exists (snd (mangle packagesByName m)), (fst (mangle packagesByName m)).
  split; [|split].
  - unfold manglePackageJson. rewrite (readFileSync_holds _ _ _ Hdisk). simpl.
    now destruct (mangle packagesByName m).
  - apply mangle_otherFields.
  - intros key. destruct (mangle_fields packagesByName m Hok key) as [-> ->].
    destruct (field key (depFields m)) as [o|] eqn:Ho; [|split; reflexivity].
    assert (Ho' : forall e, In e o -> inherited (fst e) = false).
    { intros e He. unfold no_inherited_name, depKeys in Hni. simpl in Hni.
      rewrite !andb_true_iff in Hni. destruct Hni as [H1 [H2 _]].
      assert (H : forallb (fun k => negb (inherited k)) (obj_keys o) = true).
      { destruct key; simpl in Ho; rewrite Ho in *; assumption. }
      rewrite forallb_forall in H. apply negb_true_iff. apply H.
      now apply in_map. }
    cbn [option_map]. split; f_equal; apply filter_ext_in; intros e He.
    + unfold keptEntry, excludedEntry. rewrite hidden_spec, (Ho' e He).
      now rewrite orb_false_r.
    + unfold recordedEntry, excludedEntry. rewrite hidden_spec, (Ho' e He).
      rewrite orb_false_r.
      destruct (String.eqb (fst e) "__proto__") eqn:E; [|now rewrite andb_true_r].
      apply String.eqb_eq in E. specialize (Ho' e He). rewrite E in Ho'.
      discriminate Ho'.
Qed.

Lemma mangle_removes_exactly_the_excluded_example :
  exists removedDependencies mangledPackageJson,
    manglePackageJson "/repo/packages/app/package.json" [orgB]
      (disk (emptyWorld bothFieldsManifest)) =
      Ok (removedDependencies,
          writeFileSync "/repo/packages/app/package.json" mangledPackageJson
            (disk (emptyWorld bothFieldsManifest))) /\
    otherFields mangledPackageJson = otherFields bothFieldsManifest /\
    forall key,
      field key (depFields mangledPackageJson) =
        option_map (filter (fun e => negb (excludedEntry [orgB] e)))
          (field key (depFields bothFieldsManifest)) /\
      field key removedDependencies =
        option_map (filter (excludedEntry [orgB])) (field key (depFields bothFieldsManifest)).
Proof.
  apply (mangle_removes_exactly_the_excluded [orgB]
           "/repo/packages/app/package.json"
           (disk (emptyWorld bothFieldsManifest)) bothFieldsManifest);
    reflexivity.
Defined.

(** C2.  The round trip of the specification: with ["@org/b"] a package of
    the monorepo and ["left-pad"] none, mangling the manifest whose
    dependencies are left-pad 1.0.0 and @org/b 2.0.0 writes the
    dependencies left-pad 1.0.0 alone and returns the token
    {dependencies: {@org/b: 2.0.0}}; unmangling that file with that token
    writes the two entries back, @org/b first. *)
Theorem mangle_unmangle_round_trip
    (packagesByName : PackagesByName) (b : Package) (packageJsonPath : string)
    (disk : fs) (others : obj string) :
  lookup packagesByName "@org/b" = Some b ->
  lookup packagesByName "left-pad" = None ->
  let disk0 := writeFileSync packageJsonPath (roundTripManifest others) disk in
  let mangled :=
    {| depFields := {| dependencies := Some [("left-pad", "1.0.0")];
                       devDependencies := None |};
       otherFields := others |} in
  let token :=
    {| dependencies := Some [("@org/b", "2.0.0")]; devDependencies := None |} in
  let restored :=
    {| depFields := {| dependencies := Some [("@org/b", "2.0.0"); ("left-pad", "1.0.0")];
                       devDependencies := None |};
       otherFields := others |} in
  manglePackageJson packageJsonPath packagesByName disk0 =
    Ok (token, writeFileSync packageJsonPath mangled disk0) /\
  unmanglePackageJson packageJsonPath token (writeFileSync packageJsonPath mangled disk0) =
    Ok (writeFileSync packageJsonPath restored
          (writeFileSync packageJsonPath mangled disk0)).
Proof.
  intros Hb Hpad disk0 mangled token restored.
  subst disk0 mangled token restored. split.
  - unfold manglePackageJson.
    rewrite (readFileSync_holds _ _ _ (holds_writeFileSync _ _ _)).
    unfold bind, mangle, roundTripManifest, depKeys. cbn [fold_left depFields].
    unfold mangleField at 2. cbn [field dependencies fold_left].
    unfold mangleEntry, get. rewrite Hb, Hpad.
    reflexivity.
  - unfold unmanglePackageJson.
    rewrite (readFileSync_holds _ _ _ (holds_writeFileSync _ _ _)).
    reflexivity.
Qed.

Lemma mangle_unmangle_round_trip_witness :
  let path := "/repo/packages/app/package.json" in
  let disk0 := writeFileSync path (roundTripManifest [("private", "true")]) (fun _ => None) in
  let mangled :=
    {| depFields := {| dependencies := Some [("left-pad", "1.0.0")];
                       devDependencies := None |};
       otherFields := [("private", "true")] |} in
  let token :=
    {| dependencies := Some [("@org/b", "2.0.0")]; devDependencies := None |} in
  let restored :=
    {| depFields := {| dependencies := Some [("@org/b", "2.0.0"); ("left-pad", "1.0.0")];
                       devDependencies := None |};
       otherFields := [("private", "true")] |} in
  manglePackageJson path [orgB] disk0 = Ok (token, writeFileSync path mangled disk0) /\
  unmanglePackageJson path token (writeFileSync path mangled disk0) =
    Ok (writeFileSync path restored (writeFileSync path mangled disk0)).
Proof.
  apply (mangle_unmangle_round_trip [orgB] orgB "/repo/packages/app/package.json"
           (fun _ => None) [("private", "true")]); reflexivity.
Defined.

(** What the claim C1 says: a value the file holds for a key of the token
    survives [unmanglePackageJson]. *)
Lemma disk_value_overwritten :
  ~ (forall (disk : fs) (packageJsonPath : string) (m : PackageJson)
            (mangleToken : DependencyFields) (key : depKey) (n onDisk recorded : string),
        holds disk packageJsonPath m ->
        entry n (field key mangleToken) = Some recorded ->
        entry n (field key (depFields m)) = Some onDisk ->
        exists m',
          unmanglePackageJson packageJsonPath mangleToken disk =
            Ok (writeFileSync packageJsonPath m' disk) /\
          entry n (field key (depFields m')) = Some onDisk).
Proof.
  intros H.
  destruct (H (disk (emptyWorld rewrittenManifest)) "/repo/packages/app/package.json"
              rewrittenManifest orgBToken Kdependencies "@org/b" "3.0.0" "2.0.0"
              eq_refl eq_refl eq_refl) as [m' [Hrun Hentry]].
  unfold unmanglePackageJson in Hrun.
  rewrite (readFileSync_holds _ _ rewrittenManifest eq_refl) in Hrun.
  injection Hrun as Hrun.
  apply (f_equal (fun d : fs => d "/repo/packages/app/package.json")) in Hrun.
  unfold writeFileSync in Hrun. rewrite String.eqb_refl in Hrun.
  injection Hrun as Hrun. subst m'.
  discriminate Hentry.
Qed.

(** C1, amended.  After [unmanglePackageJson] a key of the token, other
    than [__proto__], holds the value the token recorded for it, whatever
    the file held for that key; a key the token does not have, other than
    [__proto__], holds what the file held. *)
Theorem unmangle_token_value_wins
    (disk : fs) (packageJsonPath : string) (m : PackageJson)
    (mangleToken : DependencyFields) (key : depKey) (n : string) :
  holds disk packageJsonPath m ->
  fields_ok mangleToken = true ->
  n <> "__proto__" ->
  exists m',
    unmanglePackageJson packageJsonPath mangleToken disk =
      Ok (writeFileSync packageJsonPath m' disk) /\
    otherFields m' = otherFields m /\
    entry n (field key (depFields m')) =
      match entry n (field key mangleToken) with
      | Some recorded => Some recorded
      | None => entry n (field key (depFields m))
      end.
Proof.
  intros Hdisk Hok Hn. exists (unmangle mangleToken m). split; [|split].
  - unfold unmanglePackageJson. now rewrite (readFileSync_holds _ _ _ Hdisk).
  - reflexivity.
  - assert (Hp : String.eqb n "__proto__" = false) by now apply String.eqb_neq.
    unfold unmangle. cbn [depFields].
    rewrite alphabetize_fields, merge_fields.
    destruct (field key mangleToken) as [src|] eqn:Hsrc; cbn [entry option_map].
    + rewrite obj_get_alphabetizeKeys, Hp, obj_get_merge.
      * destruct (obj_get n src); [reflexivity|].
        now destruct (field key (depFields m)).
      * exact Hn.
      * apply (fields_ok_field _ _ _ Hok) in Hsrc.
        apply obj_ok_iff in Hsrc. tauto.
    + destruct (field key (depFields m)) as [o|]; cbn [entry option_map];
        [|reflexivity].
      now rewrite obj_get_alphabetizeKeys, Hp.
Qed.

Lemma unmangle_token_value_wins_witness :
  exists m',
    unmanglePackageJson "/repo/packages/app/package.json" orgBToken
      (disk (emptyWorld rewrittenManifest)) =
      Ok (writeFileSync "/repo/packages/app/package.json" m'
            (disk (emptyWorld rewrittenManifest))) /\
    otherFields m' = otherFields rewrittenManifest /\
    entry "@org/b" (field Kdependencies (depFields m')) = Some "2.0.0".
Proof.
  apply (unmangle_token_value_wins (disk (emptyWorld rewrittenManifest))
           "/repo/packages/app/package.json" rewrittenManifest orgBToken
           Kdependencies "@org/b"); [reflexivity | reflexivity | discriminate].
Defined.

(** C7 at the manifest that depends on the packages named 10 and 9:
    [unmanglePackageJson] with an empty token writes the dependencies with
    the key 9 before the key 10, although 10 is the smaller string. *)
Theorem unmangle_numeric_names (packageJsonPath : string) (disk : fs) :
  unmanglePackageJson packageJsonPath no_fields
    (writeFileSync packageJsonPath numericManifest disk) =
    Ok (writeFileSync packageJsonPath numericManifest
          (writeFileSync packageJsonPath numericManifest disk)) /\
  obj_keys (alphabetizeKeys [("10", "1.0.0"); ("9", "1.0.0")]) = ["9"; "10"] /\
  str_lt "10" "9" /\
  ~ alphabetized [("9", "1.0.0"); ("10", "1.0.0")].
Proof.
  split; [|split; [|split]].
  - unfold unmanglePackageJson.
    rewrite (readFileSync_holds _ _ _ (holds_writeFileSync _ _ _)).
    reflexivity.
  - reflexivity.
  - reflexivity.
  - unfold alphabetized. simpl. intros Hs.
    inversion Hs as [|? ? _ Hall]; subst.
    inversion Hall as [|? ? Hlt _]; subst.
    discriminate Hlt.
Qed.

(** The part of C7 that holds: when no key of a dependency field is an
    array index, [unmanglePackageJson] writes the field with its keys in
    strictly ascending order and every value as the merge left it
    ([__proto__] apart, which the written field never has). *)
Theorem unmangle_alphabetizes_other_names
    (mangleToken : DependencyFields) (m : PackageJson) (key : depKey)
    (merged : obj string) :
  field key (merge (depFields m) mangleToken) = Some merged ->
  no_index_key merged ->
  exists written,
    field key (depFields (unmangle mangleToken m)) = Some written /\
    alphabetized written /\
    forall n, obj_get n written =
              if String.eqb n "__proto__" then None else obj_get n merged.
Proof.
  intros Hmerged Hni. exists (alphabetizeKeys merged). split; [|split].
  - unfold unmangle. cbn [depFields]. now rewrite alphabetize_fields, Hmerged.
  - now apply alphabetizeKeys_sorted.
  - intros n. apply obj_get_alphabetizeKeys.
Qed.

End ManifestGuard.

(* ================================================================== *)
(** * Properties of the process wrapper *)
(* ================================================================== *)

Module ProcessLifecycle.
Import Mangling Vocabulary JsFacts ManglingFacts Samples.

Lemma listener_eqb_refl (f : listener) : listener_eqb f f = true.
Proof. destruct f. simpl. apply Nat.eqb_refl. Qed.

(** Removing the listener that was attached last gives the list back. *)
Lemma removeListener_last (l : list listener) (f : listener) :
  removeListener (l ++ [f]) f = l.
Proof.
  induction l as [|g l IH]; simpl.
  - now rewrite listener_eqb_refl.
  - rewrite existsb_app. simpl. rewrite listener_eqb_refl.
    rewrite orb_true_r, andb_false_r. now rewrite IH.
Qed.

Lemma nth_error_last (cs : list ChildProcess) (c : ChildProcess) :
  nth_error (cs ++ [c]) (length cs) = Some c.
Proof.
  rewrite nth_error_app2 by apply Nat.le_refl. now rewrite Nat.sub_diag.
Qed.

Lemma set_child_last (cs : list ChildProcess) (c : ChildProcess)
    (f : ChildProcess -> ChildProcess) :
  set_child (length cs) f (cs ++ [c]) = cs ++ [f c].
Proof.
  unfold set_child. rewrite nth_error_last.
  rewrite skipn_all2 by (rewrite length_app; simpl; lia).
  rewrite firstn_app, Nat.sub_diag, firstn_all. cbn [firstn].
  now rewrite app_nil_r.
Qed.

(** When the parent process exits first, the hook signals the child; the
    manifest and the trace are as the call left them. *)
Lemma parent_exit_kills_child
    (args : list string) (spawnArgs : SpawnArgs) (packagesByName : PackagesByName)
    (process_cwd : string) (w w1 : world) (child : nat) :
  processExitListeners w = [] ->
  runYarnWithPackageJsonMangling args spawnArgs packagesByName process_cwd w =
    Ok (child, w1) ->
  disk (emitProcessExit w1) = disk w1 /\
  trace (emitProcessExit w1) = trace w1 /\
  option_map kills (nth_error (children (emitProcessExit w1)) child) = Some 1.
Proof.
  intros Hl Hrun. unfold runYarnWithPackageJsonMangling in Hrun.
  destruct (manglePackageJson _ _ _) as [[token disk1]|e]; [|discriminate].
  cbn [bind] in Hrun. injection Hrun as <- <-.
  unfold emitProcessExit. cbn [processExitListeners]. rewrite Hl.
  cbn [app fold_left disk trace children]. rewrite set_child_last.
  repeat split. now rewrite nth_error_last.
Qed.

(** C8.  One call of [runYarnWithPackageJsonMangling] on a readable
    manifest mangles it once and then spawns the child; unmangling is not
    done before the child emits ['exit'].  When it does, whatever the exit
    code and the signal and whatever the command did to the file system
    short of removing the manifest, the manifest is unmangled once with
    the token of that mangle and the [killOnExit] hook is removed from the
    parent process; a further ['exit'] changes nothing, the listener being
    attached with [once]. *)
Theorem mangle_spawn_then_one_unmangle_on_exit
    (args : list string) (spawnArgs : SpawnArgs) (packagesByName : PackagesByName)
    (process_cwd : string) (w : world) (m : PackageJson) :
  holds (disk w) (manifestPath spawnArgs process_cwd) m ->
  let packageJsonPath := manifestPath spawnArgs process_cwd in
  let child := length (children w) in
  exists mangleToken w1,
    runYarnWithPackageJsonMangling args spawnArgs packagesByName process_cwd w =
      Ok (child, w1) /\
    manglePackageJson packageJsonPath packagesByName (disk w) =
      Ok (mangleToken, disk w1) /\
    trace w1 = trace w ++ [Mangled packageJsonPath; Spawned child] /\
    processExitListeners w1 = processExitListeners w ++ [killOnExit child] /\
    forall (disk' : fs) (m' : PackageJson) (code : option Z) (signal : option string),
      holds disk' packageJsonPath m' ->
      exists w2,
        emitChildExit child code signal
          {| disk := disk'; processExitListeners := processExitListeners w1;
             children := children w1; trace := trace w1 |} = Ok w2 /\
        unmanglePackageJson packageJsonPath mangleToken disk' = Ok (disk w2) /\
        trace w2 = trace w ++ [Mangled packageJsonPath; Spawned child;
                               Unmangled packageJsonPath; HookRemoved child] /\
        processExitListeners w2 = processExitListeners w /\
        forall (code' : option Z) (signal' : option string),
          emitChildExit child code' signal' w2 = Ok w2.
Proof.
  intros Hdisk packageJsonPath child. subst packageJsonPath child.
  destruct (mangle packagesByName m) as [mangled token] eqn:Hm.
  exists token.
  eexists. split; [|split; [|split; [|split]]].
  - unfold runYarnWithPackageJsonMangling, manglePackageJson.
    rewrite (readFileSync_holds _ _ _ Hdisk).
    cbn [bind]. rewrite Hm. cbn [bind]. reflexivity.
  - unfold manglePackageJson. rewrite (readFileSync_holds _ _ _ Hdisk).
    cbn [bind]. rewrite Hm. reflexivity.
  - reflexivity.
  - reflexivity.
  - intros disk' m' code signal Hdisk'.
    unfold emitChildExit. cbn [children disk processExitListeners trace].
    rewrite nth_error_last, set_child_last.
    cbn [exitOnce runAll runOnce disk spawnfile spawnargs kills].
    unfold unmanglePackageJson. rewrite (readFileSync_holds _ _ _ Hdisk').
    cbn [bind]. eexists. split; [reflexivity|].
    cbn [disk trace processExitListeners children].
    split; [reflexivity|]. split; [now rewrite <- app_assoc|].
    split; [apply removeListener_last|].
    intros code' signal'. unfold emitChildExit.
    cbn [children disk processExitListeners trace].
    rewrite nth_error_last, set_child_last.
    reflexivity.
Qed.

Lemma mangle_spawn_then_one_unmangle_on_exit_witness :
  let w := emptyWorld bothFieldsManifest in
  let packageJsonPath := "/repo/packages/app/package.json" in
  exists mangleToken w1,
    runYarnWithPackageJsonMangling ["install"] {| cwd := Some "/repo/packages/app" |}
      [orgB] "/repo" w = Ok (0, w1) /\
    manglePackageJson packageJsonPath [orgB] (disk w) = Ok (mangleToken, disk w1) /\
    trace w1 = [Mangled packageJsonPath; Spawned 0] /\
    processExitListeners w1 = [killOnExit 0] /\
    forall (disk' : fs) (m' : PackageJson) (code : option Z) (signal : option string),
      holds disk' packageJsonPath m' ->
      exists w2,
        emitChildExit 0 code signal
          {| disk := disk'; processExitListeners := processExitListeners w1;
             children := children w1; trace := trace w1 |} = Ok w2 /\
        unmanglePackageJson packageJsonPath mangleToken disk' = Ok (disk w2) /\
        trace w2 = [Mangled packageJsonPath; Spawned 0;
                    Unmangled packageJsonPath; HookRemoved 0] /\
        processExitListeners w2 = [] /\
        forall (code' : option Z) (signal' : option string),
          emitChildExit 0 code' signal' w2 = Ok w2.
Proof.
  apply (mangle_spawn_then_one_unmangle_on_exit ["install"]
           {| cwd := Some "/repo/packages/app" |} [orgB] "/repo"
           (emptyWorld bothFieldsManifest) bothFieldsManifest).
  reflexivity.
Defined.

End ProcessLifecycle.

(* ================================================================== *)
(** * Properties of the selection engine *)
(* ================================================================== *)

Module Selection.
Import Yerna Vocabulary JsFacts TraversalFacts SelectionFacts Samples.

(** C10.  On a graph whose edges lead to packages of the graph, cycles
    allowed, [findTransitiveDependentsOrDependencies] returns: the result
    holds each package found from the root along the edges, the root
    included, exactly once, and no other package. *)
Theorem traversal_collects_each_reachable_once
    (allPackages : PackagesByName) (rootPackageName : string) (key : typeKey)
    (root : Package) :
  closed allPackages key = true ->
  lookup allPackages rootPackageName = Some root ->
  exists ps,
    findTransitiveDependentsOrDependencies allPackages rootPackageName key = Ok ps /\
    In root ps /\
    (forall p, In p ps -> lookup allPackages (name p) = Some p) /\
    (forall n, reaches allPackages key rootPackageName n -> occurrences n ps = 1) /\
    (forall n, ~ reaches allPackages key rootPackageName n -> occurrences n ps = 0).
Proof.
  intros Hcl Hroot.
  destruct (findTransitive_ok _ _ _ _ Hcl Hroot) as [ps [Hrun [Hnd [Hreach Hps]]]].
  exists ps. split; [assumption|].
  assert (Hin : forall n, reaches allPackages key rootPackageName n ->
                          exists p, In p ps /\ name p = n).
  { intros n Hn. apply Hreach in Hn. apply in_map_iff in Hn.
    destruct Hn as [p [E Hp]]. now exists p. }
  split; [|split; [assumption|split]].
  - destruct (Hin rootPackageName) as [p [Hp E]].
    { eapply reaches_root. exact Hroot. }
    assert (H := Hps p Hp). rewrite E, Hroot in H. injection H as ->. exact Hp.
  - intros n Hn. destruct (Hin n Hn) as [p [Hp <-]]. now apply occurrences_once.
  - intros n Hn. apply occurrences_absent. intros H. apply Hn. now apply Hreach.
Qed.

Lemma traversal_collects_each_reachable_once_witness :
  exists ps,
    findTransitiveDependentsOrDependencies cycle "x" KlocalDependents = Ok ps /\
    In (pkg "x" ["y"] ["y"]) ps /\
    (forall p, In p ps -> lookup cycle (name p) = Some p) /\
    (forall n, reaches cycle KlocalDependents "x" n -> occurrences n ps = 1) /\
    (forall n, ~ reaches cycle KlocalDependents "x" n -> occurrences n ps = 0).
Proof.
  apply (traversal_collects_each_reachable_once cycle "x" KlocalDependents
           (pkg "x" ["y"] ["y"])); reflexivity.
Defined.

(** C5.  With patterns that compile, [applyIncludeExclude] accepts a
    package exactly when its name matches one of the include patterns, or
    there is none, and matches no exclude pattern. *)
Theorem applyIncludeExclude_accepts_iff
    (commander : Commander) (RegExp : Type) (newRegExp : string -> option RegExp)
    (test : RegExp -> string -> bool) (package : Package) :
  compile_all RegExp newRegExp (include commander) = true ->
  compile_all RegExp newRegExp (exclude commander) = true ->
  exists accepted,
    applyIncludeExclude commander RegExp newRegExp test package = Ok accepted /\
    (accepted = true <->
     (include commander = [] \/
      exists source, In source (include commander) /\
                     matches RegExp newRegExp test source (name package) = true) /\
     (forall source, In source (exclude commander) ->
                     matches RegExp newRegExp test source (name package) = false)).
Proof.
  intros Hi He. eexists. split; [now apply applyIncludeExclude_ok|].
  rewrite andb_true_iff, orb_true_iff, negb_true_iff, existsb_exists.
  rewrite Nat.eqb_eq, length_zero_iff_nil.
  assert (Hex : existsb
                  (fun source => matches RegExp newRegExp test source (name package))
                  (exclude commander) = false <->
                forall source, In source (exclude commander) ->
                  matches RegExp newRegExp test source (name package) = false).
  { split.
    - intros H source Hin.
      destruct (matches RegExp newRegExp test source (name package)) eqn:E;
        [|reflexivity].
      assert (Ht : existsb
                     (fun source => matches RegExp newRegExp test source (name package))
                     (exclude commander) = true)
        by (apply existsb_exists; now exists source).
      congruence.
    - intros H.
      destruct (existsb _ (exclude commander)) eqn:E; [|reflexivity].
      apply existsb_exists in E. destruct E as [source [Hin Hm]].
      rewrite (H source Hin) in Hm. discriminate. }
  rewrite Hex. reflexivity.
Qed.

Lemma applyIncludeExclude_accepts_iff_witness :
  exists accepted,
    applyIncludeExclude onlyA string literalRegExp literalTest (pkg "a" [] ["b"; "c"])
      = Ok accepted /\
    (accepted = true <->
     (include onlyA = [] \/
      exists source, In source (include onlyA) /\
                     matches string literalRegExp literalTest source "a" = true) /\
     (forall source, In source (exclude onlyA) ->
                     matches string literalRegExp literalTest source "a" = false)).
Proof.
  apply (applyIncludeExclude_accepts_iff onlyA string literalRegExp literalTest
           (pkg "a" [] ["b"; "c"])); reflexivity.
Defined.

(** C6.  With patterns that compile and a graph closed along the edges
    that are followed, [getSelectedPackages] returns, for the default
    predicate, a selection with every name at most once and in strictly
    ascending order; for another predicate it returns that selection
    filtered by the predicate, so the predicate is applied to the packages
    that expansion brought as well, and the result is still unique and
    ascending. *)
Theorem selection_unique_sorted_then_filtered
    (commander : Commander) (RegExp : Type) (newRegExp : string -> option RegExp)
    (test : RegExp -> string -> bool) (allPackages : PackagesByName)
    (additionalFilter : Package -> bool) :
  compile_all RegExp newRegExp (include commander) = true ->
  compile_all RegExp newRegExp (exclude commander) = true ->
  graph_ok commander allPackages = true ->
  exists selected,
    getSelectedPackages commander RegExp newRegExp test true allPackages noFilter =
      Ok selected /\
    getSelectedPackages commander RegExp newRegExp test true allPackages additionalFilter =
      Ok (filter additionalFilter selected) /\
    StronglySorted str_lt (map name selected) /\
    StronglySorted str_lt (map name (filter additionalFilter selected)) /\
    (forall n, occurrences n selected <= 1) /\
    (forall n, occurrences n (filter additionalFilter selected) <= 1) /\
    (forall p, In p (filter additionalFilter selected) <->
               In p selected /\ additionalFilter p = true).
Proof.
  intros Hi He Hg.
  destruct (getSelectedPackages_ok commander RegExp newRegExp test allPackages Hi He Hg)
    as [selected [Hrun [Hnd [Hsorted _]]]].
  exists selected. split; [|split; [|split; [|split; [|split; [|split]]]]].
  - rewrite Hrun. now rewrite filter_noFilter.
  - apply Hrun.
  - assumption.
  - clear Hrun Hnd. induction selected as [|p l IH]; simpl; [constructor|].
    simpl in Hsorted. inversion Hsorted as [|? ? Hs Hall]; subst.
    destruct (additionalFilter p); simpl; [|now apply IH].
    constructor; [now apply IH|].
    rewrite Forall_forall in *. intros k Hk. apply Hall.
    apply in_map_iff in Hk. destruct Hk as [q [<- Hq]].
    apply filter_In in Hq. apply in_map. tauto.
  - intros n. now apply occurrences_at_most_once.
  - intros n. apply occurrences_at_most_once. now apply filter_names_NoDup.
  - intros p. apply filter_In.
Qed.

Lemma selection_unique_sorted_then_filtered_witness :
  exists selected,
    getSelectedPackages onlyA string literalRegExp literalTest true diamondNoScript
      noFilter = Ok selected /\
    getSelectedPackages onlyA string literalRegExp literalTest true diamondNoScript
      (hasScript "build") = Ok (filter (hasScript "build") selected) /\
    StronglySorted str_lt (map name selected) /\
    StronglySorted str_lt (map name (filter (hasScript "build") selected)) /\
    (forall n, occurrences n selected <= 1) /\
    (forall n, occurrences n (filter (hasScript "build") selected) <= 1) /\
    (forall p, In p (filter (hasScript "build") selected) <->
               In p selected /\ hasScript "build" p = true).
Proof.
  apply (selection_unique_sorted_then_filtered onlyA string literalRegExp literalTest
           diamondNoScript (hasScript "build")); reflexivity.
Defined.

(** C4.  With [--dependents], patterns that compile, distinct names and a
    graph closed along the edges that are followed: for a package F that
    [applyIncludeExclude] accepts, every package P found from F along
    [localDependents] edges is in the selection exactly once, whatever the
    patterns say about P; a predicate passed to [getSelectedPackages]
    filters that selection and keeps P when P satisfies it. *)
Theorem dependents_of_accepted_package_selected_once
    (commander : Commander) (RegExp : Type) (newRegExp : string -> option RegExp)
    (test : RegExp -> string -> bool) (allPackages : PackagesByName)
    (F P : Package) :
  dependents commander = true ->
  compile_all RegExp newRegExp (include commander) = true ->
  compile_all RegExp newRegExp (exclude commander) = true ->
  graph_ok commander allPackages = true ->
  distinct (map name allPackages) = true ->
  In F allPackages ->
  applyIncludeExclude commander RegExp newRegExp test F = Ok true ->
  In P allPackages ->
  reaches allPackages KlocalDependents (name F) (name P) ->
  exists selected,
    getSelectedPackages commander RegExp newRegExp test true allPackages noFilter =
      Ok selected /\
    In P selected /\
    occurrences (name P) selected = 1 /\
    forall additionalFilter,
      getSelectedPackages commander RegExp newRegExp test true allPackages
        additionalFilter = Ok (filter additionalFilter selected) /\
      (additionalFilter P = true ->
       In P (filter additionalFilter selected) /\
       occurrences (name P) (filter additionalFilter selected) = 1).
Proof.
  intros Hd Hi He Hg Hnames HF Hacc HP Hreach.
  destruct (getSelectedPackages_ok commander RegExp newRegExp test allPackages Hi He Hg)
    as [selected [Hrun [Hnd [_ [Hall Hsel]]]]].
  exists selected.
  assert (HPin : In P selected).
  { destruct (Hsel F HF Hacc) as [_ H]. specialize (H Hd _ Hreach).
    apply in_map_iff in H. destruct H as [q [E Hq]].
    assert (Hq' := lookup_distinct _ _ Hnames (Hall q Hq)).
    rewrite E, (lookup_distinct _ _ Hnames HP) in Hq'. now injection Hq' as ->. }
  split; [|split; [assumption|split]].
  - rewrite Hrun. now rewrite filter_noFilter.
  - now apply occurrences_once.
  - intros additionalFilter. split; [apply Hrun|]. intros Haf.
    assert (H : In P (filter additionalFilter selected)) by (apply filter_In; tauto).
    split; [assumption|].
    apply occurrences_once; [now apply filter_names_NoDup | assumption].
Qed.

Lemma dependents_of_accepted_package_selected_once_witness :
  exists selected,
    getSelectedPackages onlyA string literalRegExp literalTest true diamond noFilter =
      Ok selected /\
    In (pkg "d" ["b"; "c"] []) selected /\
    occurrences "d" selected = 1 /\
    forall additionalFilter,
      getSelectedPackages onlyA string literalRegExp literalTest true diamond
        additionalFilter = Ok (filter additionalFilter selected) /\
      (additionalFilter (pkg "d" ["b"; "c"] []) = true ->
       In (pkg "d" ["b"; "c"] []) (filter additionalFilter selected) /\
       occurrences "d" (filter additionalFilter selected) = 1).
Proof.
  apply (dependents_of_accepted_package_selected_once onlyA string literalRegExp
           literalTest diamond (pkg "a" [] ["b"; "c"]) (pkg "d" ["b"; "c"] []));
    try reflexivity.
  - simpl. tauto.
  - simpl. tauto.
  - apply (reaches_edge diamond KlocalDependents "a" "b" "d" (pkg "b" ["a"] ["d"])).
    + apply (reaches_edge diamond KlocalDependents "a" "a" "b" (pkg "a" [] ["b"; "c"])).
      * apply (reaches_root diamond KlocalDependents "a" (pkg "a" [] ["b"; "c"])).
        reflexivity.
      * reflexivity.
      * simpl. tauto.
    + reflexivity.
    + simpl. tauto.
Defined.

End Selection.

(* ================================================================== *)
(** * Properties of the parallel option *)
(* ================================================================== *)

Module ParallelOption.
Import Yerna Vocabulary Samples.

Local Open Scope Q_scope.

Lemma round_integer (k : Z) : Qfloor (inject_Z k + (1 # 2)) = k.
Proof.
  apply Z.le_antisymm.
  - apply Z.lt_succ_r. rewrite Zlt_Qlt.
    eapply Qle_lt_trans; [apply Qfloor_le|].
    unfold Z.succ. rewrite inject_Z_plus.
    change (inject_Z 1) with 1. lra.
  - rewrite <- (Qfloor_Z k) at 1. apply Qfloor_resp_le. lra.
Qed.

(** The two tests of [optParallel] let a finite number through exactly
    when it is a positive integer. *)
Lemma finite_accepted_iff (q : Q) :
  le_zero (Finite q) || negb (strict_eq (Math_round (Finite q)) (Finite q)) = false <->
  exists k, is_positive_integer (Finite q) k.
Proof.
  unfold is_positive_integer, le_zero, Math_round, strict_eq.
  rewrite orb_false_iff, negb_false_iff, Qeq_bool_iff.
  split.
  - intros [Hpos Hint]. exists (Qfloor (q + (1 # 2))).
    assert (Hq : 0 < q).
    { apply Qnot_le_lt. intros Hle. apply Qle_bool_iff in Hle. congruence. }
    split.
    + rewrite Zlt_Qlt. rewrite Hint. exact Hq.
    + exists q. split; [reflexivity | now symmetry].
  - intros [k [Hk [q' [[= <-] Hq]]]]. split.
    + destruct (Qle_bool q 0) eqn:E; [|reflexivity].
      apply Qle_bool_iff in E. rewrite Hq in E.
      rewrite Zlt_Qlt in Hk. change (inject_Z 0) with 0 in Hk. lra.
    + assert (E : Qfloor (q + (1 # 2)) = k).
      { rewrite <- (round_integer k). apply Qfloor_comp. now rewrite Hq. }
      rewrite E. now symmetry.
Qed.

(** What [optParallel] accepts: the positive integers and +Infinity. *)
Theorem optParallel_spec (ToNumber : string -> number) (s : string) :
  (optParallel ToNumber (Some s) = Ok (ToNumber s) /\
   (ToNumber s = Infinity false \/ exists k, is_positive_integer (ToNumber s) k))
  \/
  (optParallel ToNumber (Some s) = Throw (ProcessExit 1) /\
   ToNumber s <> Infinity false /\
   ~ exists k, is_positive_integer (ToNumber s) k).
Proof.
  unfold optParallel.
  destruct (ToNumber s) as [|[|]|q] eqn:E.
  - right. simpl. repeat split; try discriminate.
    intros [k [_ [q [H _]]]]. discriminate.
  - right. simpl. repeat split; try discriminate.
    intros [k [_ [q [H _]]]]. discriminate.
  - left. simpl. split; [reflexivity | now left].
  - destruct (le_zero (Finite q) || negb (strict_eq (Math_round (Finite q)) (Finite q)))
      eqn:Ht.
    + right. repeat split; try discriminate.
      intros H. apply finite_accepted_iff in H. congruence.
    + left. split; [reflexivity|]. right. now apply finite_accepted_iff.
Qed.

(** The option left out is 4, and [null] is refused. *)
Lemma parallel_default (ToNumber : string -> number) :
  parallel ToNumber None = Ok (Finite (inject_Z 4)) /\
  optParallel ToNumber None = Throw (ProcessExit 1).
Proof. split; reflexivity. Qed.

(** C9 at the command line value [Infinity]: [optParallel] lets it through
    and returns +Infinity, which is no positive integer. *)
Theorem optParallel_accepts_Infinity (ToNumber : string -> number) :
  ToNumber "Infinity" = Infinity false ->
  optParallel ToNumber (Some "Infinity") = Ok (Infinity false) /\
  parallel ToNumber (Some "Infinity") = Ok (Infinity false) /\
  forall k, ~ is_positive_integer (Infinity false) k.
Proof.
  intros H. unfold parallel, optParallel. rewrite H. simpl.
  repeat split. intros k [_ [q [Hq _]]]. discriminate.
Qed.

Lemma optParallel_accepts_Infinity_witness :
  optParallel sampleToNumber (Some "Infinity") = Ok (Infinity false) /\
  parallel sampleToNumber (Some "Infinity") = Ok (Infinity false) /\
  forall k, ~ is_positive_integer (Infinity false) k.
Proof.
  apply (optParallel_accepts_Infinity sampleToNumber). reflexivity.
Defined.

End ParallelOption.

(* ================================================================== *)
(** * Further properties of the manifest mutation guard *)
(* ================================================================== *)

Module GuardExtras.
Import Mangling Vocabulary Canonical JsFacts ManglingFacts CanonicalFacts.
Import GuardExtraFacts Samples MoreSamples.

(** X1.  Whatever the object, [alphabetizeKeys] returns an object that
    has no property [__proto__] and the same value under every other key,
    each key once, the keys that are array indices first and by number,
    the others after them and by string. *)
Theorem alphabetizeKeys_values_and_canonical_order (object : obj string) :
  canonical (alphabetizeKeys object) = true /\
  NoDup (obj_keys (alphabetizeKeys object)) /\
  forall n, obj_get n (alphabetizeKeys object) =
            if String.eqb n "__proto__" then None else obj_get n object.
Proof.
  split; [apply alphabetizeKeys_canonical|]. split.
  - apply canonical_keys_NoDup. apply alphabetizeKeys_canonical.
  - intros n. apply obj_get_alphabetizeKeys.
Qed.

(** X2.  Mangling a manifest and unmangling it with the token, the file
    untouched in between, gives back every entry of both dependency
    fields but one named [__proto__], which the manifest no longer has: a
    field is present after exactly when it was before, every other name
    has the version it had (a name every object inherits, such as
    constructor, included), the other members are as they were, and no
    other file is written. *)
Theorem unmangle_after_mangle_restores_entries
    (packagesByName : PackagesByName) (packageJsonPath : string)
    (disk : fs) (m : PackageJson) :
  holds disk packageJsonPath m ->
  fields_ok (depFields m) = true ->
  exists mangleToken disk1 disk2 restored,
    manglePackageJson packageJsonPath packagesByName disk = Ok (mangleToken, disk1) /\
    unmanglePackageJson packageJsonPath mangleToken disk1 = Ok disk2 /\
    holds disk2 packageJsonPath restored /\
    otherFields restored = otherFields m /\
    (forall key, is_some (field key (depFields restored)) =
                 is_some (field key (depFields m))) /\
    (forall key n, entry n (field key (depFields restored)) =
                   if String.eqb n "__proto__" then None
                   else entry n (field key (depFields m))) /\
    (forall p, p <> packageJsonPath -> disk2 p = disk p).
Proof.
  intros Hdisk Hok.
  exists (snd (mangle packagesByName m)).
  exists (writeFileSync packageJsonPath (fst (mangle packagesByName m)) disk).
  eexists. exists (unmangle (snd (mangle packagesByName m)) (fst (mangle packagesByName m))).
  split; [|split; [|split; [|split; [|split; [|split]]]]].
  - unfold manglePackageJson. rewrite (readFileSync_holds _ _ _ Hdisk). simpl.
    now destruct (mangle packagesByName m).
  - unfold unmanglePackageJson.
    rewrite (readFileSync_holds _ _ _ (holds_writeFileSync _ _ _)). reflexivity.
  - apply holds_writeFileSync.
  - unfold unmangle. cbn [otherFields]. apply mangle_otherFields.
  - intros key. rewrite (unmangle_mangle_field _ _ _ Hok).
    now destruct (field key (depFields m)).
  - intros key n. rewrite (unmangle_mangle_field _ _ _ Hok).
    destruct (field key (depFields m)) as [o|] eqn:Ho;
      [|now destruct (String.eqb n "__proto__")].
    cbn [option_map entry]. rewrite obj_get_alphabetizeKeys.
    destruct (String.eqb n "__proto__") eqn:E; [reflexivity|].
    apply obj_get_remerge; [exact (fields_ok_field _ _ _ Hok Ho)|].
    now apply String.eqb_neq.
  - intros p Hp. unfold writeFileSync.
    apply String.eqb_neq in Hp. now rewrite Hp.
Qed.

Lemma unmangle_after_mangle_restores_entries_witness :
  exists mangleToken disk1 disk2 restored,
    manglePackageJson appPath [orgB] twoManifests = Ok (mangleToken, disk1) /\
    unmanglePackageJson appPath mangleToken disk1 = Ok disk2 /\
    holds disk2 appPath restored /\
    otherFields restored = otherFields bothFieldsManifest /\
    (forall key, is_some (field key (depFields restored)) =
                 is_some (field key (depFields bothFieldsManifest))) /\
    (forall key n, entry n (field key (depFields restored)) =
                   if String.eqb n "__proto__" then None
                   else entry n (field key (depFields bothFieldsManifest))) /\
    (forall p, p <> appPath -> disk2 p = twoManifests p).
Proof.
  apply (unmangle_after_mangle_restores_entries [orgB] appPath twoManifests
           bothFieldsManifest); reflexivity.
Defined.

(** X3.  When both dependency fields of the manifest are already in the
    order [alphabetizeKeys] produces and neither has a property
    [__proto__], mangling and then unmangling with the token writes the
    very manifest that was there. *)
Theorem unmangle_after_mangle_is_identity_on_sorted_manifests
    (packagesByName : PackagesByName) (packageJsonPath : string)
    (disk : fs) (m : PackageJson) :
  holds disk packageJsonPath m ->
  fields_canonical (depFields m) = true ->
  fields_proto_free (depFields m) = true ->
  exists mangleToken disk1 disk2,
    manglePackageJson packageJsonPath packagesByName disk = Ok (mangleToken, disk1) /\
    unmanglePackageJson packageJsonPath mangleToken disk1 = Ok disk2 /\
    forall p, disk2 p = disk p.
Proof.
  intros Hdisk Hcan Hfree. assert (Hok := fields_canonical_ok _ Hcan).
  exists (snd (mangle packagesByName m)).
  exists (writeFileSync packageJsonPath (fst (mangle packagesByName m)) disk).
  eexists. split; [|split].
  - unfold manglePackageJson. rewrite (readFileSync_holds _ _ _ Hdisk). simpl.
    now destruct (mangle packagesByName m).
  - unfold unmanglePackageJson.
    rewrite (readFileSync_holds _ _ _ (holds_writeFileSync _ _ _)). reflexivity.
  - assert (Hm : unmangle (snd (mangle packagesByName m)) (fst (mangle packagesByName m))
                 = m).
    { destruct m as [d others] eqn:Em. rewrite <- Em.
      assert (Hd : depFields (unmangle (snd (mangle packagesByName m))
                                (fst (mangle packagesByName m))) = depFields m).
      { apply fields_ext. intros key. rewrite unmangle_mangle_field by (now subst m).
        destruct (field key (depFields m)) as [o|] eqn:Ho; [|reflexivity].
        cbn [option_map]. f_equal.
        assert (Hco : canonical o = true).
        { apply (fields_canonical_field (depFields m) key); [now subst m | assumption]. }
        assert (Hpo : proto_free o = true).
        { apply (fields_proto_free_field (depFields m) key); [now subst m | assumption]. }
        apply canonical_ext; [apply alphabetizeKeys_canonical | assumption |].
        intros n. rewrite obj_get_alphabetizeKeys.
        destruct (String.eqb n "__proto__") eqn:E.
        - apply String.eqb_eq in E. subst n.
          unfold proto_free, obj_has in Hpo.
          now destruct (obj_get "__proto__" o).
        - apply obj_get_remerge; [now apply canonical_obj_ok|].
          now apply String.eqb_neq. }
      assert (Ho : otherFields (unmangle (snd (mangle packagesByName m))
                                  (fst (mangle packagesByName m))) = otherFields m).
      { unfold unmangle. cbn [otherFields]. apply mangle_otherFields. }
      destruct (unmangle _ _) as [d' others']. simpl in Hd, Ho.
      rewrite Em in Hd, Ho. simpl in Hd, Ho. now subst. }
    intros p. rewrite Hm. unfold writeFileSync.
    destruct (String.eqb p packageJsonPath) eqn:E; [|reflexivity].
    apply String.eqb_eq in E. subst p. symmetry. exact Hdisk.
Qed.

Lemma unmangle_after_mangle_is_identity_on_sorted_manifests_witness :
  exists mangleToken disk1 disk2,
    manglePackageJson libPath [orgB] twoManifests = Ok (mangleToken, disk1) /\
    unmanglePackageJson libPath mangleToken disk1 = Ok disk2 /\
    forall p, disk2 p = twoManifests p.
Proof.
  apply (unmangle_after_mangle_is_identity_on_sorted_manifests [orgB] libPath
           twoManifests sortedManifest); reflexivity.
Defined.

(** X4.  Mangling a manifest that was just mangled removes nothing more:
    the file is written as it is, and the token holds an empty object for
    each field, the entries removed by the first call being in the first
    token only. *)
Theorem mangle_twice_returns_empty_token
    (packagesByName : PackagesByName) (packageJsonPath : string)
    (disk : fs) (m : PackageJson) :
  holds disk packageJsonPath m ->
  fields_ok (depFields m) = true ->
  exists token1 disk1 token2 disk2 mangled,
    manglePackageJson packageJsonPath packagesByName disk = Ok (token1, disk1) /\
    manglePackageJson packageJsonPath packagesByName disk1 = Ok (token2, disk2) /\
    holds disk1 packageJsonPath mangled /\
    holds disk2 packageJsonPath mangled /\
    token2 = emptied (depFields m).
Proof.
  intros Hdisk Hok.
  set (mg := mangle packagesByName m).
  exists (snd mg), (writeFileSync packageJsonPath (fst mg) disk).
  exists (snd (mangle packagesByName (fst mg))).
  exists (writeFileSync packageJsonPath (fst (mangle packagesByName (fst mg)))
            (writeFileSync packageJsonPath (fst mg) disk)).
  exists (fst mg).
  assert (Hok1 : fields_ok (depFields (fst mg)) = true)
    by (now apply mangle_fields_ok).
  assert (Hsecond : forall key,
             field key (depFields (fst (mangle packagesByName (fst mg)))) =
               field key (depFields (fst mg)) /\
             field key (snd (mangle packagesByName (fst mg))) =
               field key (emptied (depFields m))).
  { intros key.
    destruct (mangle_fields packagesByName (fst mg) Hok1 key) as [-> ->].
    destruct (mangle_fields packagesByName m Hok key) as [Hf _]. fold mg in Hf.
    rewrite Hf, emptied_field.
    destruct (field key (depFields m)) as [o|]; [|split; reflexivity].
    cbn [option_map].
    destruct (filter_kept_all packagesByName (filter (keptEntry packagesByName) o))
      as [-> ->]; [|split; reflexivity].
    intros n Hn. unfold obj_keys in Hn. apply in_map_iff in Hn.
    destruct Hn as [e [<- He]]. apply filter_In in He. destruct He as [_ He].
    unfold keptEntry in He. now apply negb_true_iff in He. }
  assert (Hfix : fst (mangle packagesByName (fst mg)) = fst mg).
  { assert (Hd : depFields (fst (mangle packagesByName (fst mg))) = depFields (fst mg))
      by (apply fields_ext; intros key; apply Hsecond).
    assert (Ho := mangle_otherFields packagesByName (fst mg)).
    destruct (fst (mangle packagesByName (fst mg))) as [d1 o1].
    destruct (fst mg) as [d2 o2]. simpl in Hd, Ho. now subst. }
  split; [|split; [|split; [|split]]].
  - unfold manglePackageJson. rewrite (readFileSync_holds _ _ _ Hdisk). simpl.
    fold mg. now destruct mg.
  - unfold manglePackageJson.
    rewrite (readFileSync_holds _ _ _ (holds_writeFileSync _ _ _)). simpl.
    now destruct (mangle packagesByName (fst mg)).
  - apply holds_writeFileSync.
  - rewrite Hfix. apply holds_writeFileSync.
  - apply fields_ext. intros key. apply Hsecond.
Qed.

Lemma mangle_twice_returns_empty_token_witness :
  exists token1 disk1 token2 disk2 mangled,
    manglePackageJson appPath [orgB] twoManifests = Ok (token1, disk1) /\
    manglePackageJson appPath [orgB] disk1 = Ok (token2, disk2) /\
    holds disk1 appPath mangled /\
    holds disk2 appPath mangled /\
    token2 = emptied (depFields bothFieldsManifest).
Proof.
  apply (mangle_twice_returns_empty_token [orgB] appPath twoManifests
           bothFieldsManifest); reflexivity.
Defined.

(** X5.  Unmangling twice with the same token writes, the second time,
    the manifest the first call wrote. *)
Theorem unmangle_twice_is_unmangle_once
    (packageJsonPath : string) (disk : fs) (m : PackageJson)
    (mangleToken : DependencyFields) :
  holds disk packageJsonPath m ->
  fields_ok mangleToken = true ->
  exists disk1 disk2,
    unmanglePackageJson packageJsonPath mangleToken disk = Ok disk1 /\
    unmanglePackageJson packageJsonPath mangleToken disk1 = Ok disk2 /\
    forall p, disk2 p = disk1 p.
Proof.
  intros Hdisk Hok.
  exists (writeFileSync packageJsonPath (unmangle mangleToken m) disk).
  eexists. split; [|split].
  - unfold unmanglePackageJson. now rewrite (readFileSync_holds _ _ _ Hdisk).
  - unfold unmanglePackageJson.
    rewrite (readFileSync_holds _ _ _ (holds_writeFileSync _ _ _)). reflexivity.
  - assert (Hm : unmangle mangleToken (unmangle mangleToken m) = unmangle mangleToken m).
    { unfold unmangle at 1 3. cbn [otherFields]. f_equal.
      apply fields_ext. intros key.
      rewrite !alphabetize_fields, !merge_fields.
      unfold unmangle. cbn [depFields]. rewrite alphabetize_fields, merge_fields.
      destruct (field key mangleToken) as [src|] eqn:Hsrc.
      - cbn [option_map]. f_equal. apply remerge_alphabetized.
        apply (fields_ok_field _ _ _ Hok) in Hsrc. apply obj_ok_iff in Hsrc. tauto.
      - destruct (field key (depFields m)) as [o|]; [|reflexivity].
        cbn [option_map]. f_equal.
        apply alphabetizeKeys_id;
          [apply alphabetizeKeys_canonical | apply proto_free_alphabetizeKeys]. }
    intros p. rewrite Hm. unfold writeFileSync.
    now destruct (String.eqb p packageJsonPath).
Qed.

Lemma unmangle_twice_is_unmangle_once_witness :
  exists disk1 disk2,
    unmanglePackageJson appPath orgBToken twoManifests = Ok disk1 /\
    unmanglePackageJson appPath orgBToken disk1 = Ok disk2 /\
    forall p, disk2 p = disk1 p.
Proof.
  apply (unmangle_twice_is_unmangle_once appPath twoManifests bothFieldsManifest
           orgBToken); reflexivity.
Defined.

(** X16.  After [unmanglePackageJson] a dependency field is present
    exactly when the file or the token had it: a field the command removed
    from the file comes back with the entries of the token, be it as an
    empty object, and a field neither has is not created. *)
Theorem unmangle_field_presence
    (packageJsonPath : string) (disk : fs) (m : PackageJson)
    (mangleToken : DependencyFields) (key : depKey) :
  holds disk packageJsonPath m ->
  exists disk1 written,
    unmanglePackageJson packageJsonPath mangleToken disk = Ok disk1 /\
    holds disk1 packageJsonPath written /\
    is_some (field key (depFields written)) =
      is_some (field key mangleToken) || is_some (field key (depFields m)) /\
    (field key (depFields m) = None ->
     forall src, field key mangleToken = Some src ->
       field key (depFields written) = Some (alphabetizeKeys (fold_left mergeEntry src []))).
Proof.
  intros Hdisk. eexists. exists (unmangle mangleToken m). split; [|split; [|split]].
  - unfold unmanglePackageJson. now rewrite (readFileSync_holds _ _ _ Hdisk).
  - apply holds_writeFileSync.
  - unfold unmangle. cbn [depFields]. rewrite alphabetize_fields, merge_fields.
    destruct (field key mangleToken); [reflexivity|].
    now destruct (field key (depFields m)).
  - intros Hnone src Hsrc. unfold unmangle. cbn [depFields].
    now rewrite alphabetize_fields, merge_fields, Hsrc, Hnone.
Qed.

Lemma unmangle_field_presence_witness :
  exists disk1 written,
    unmanglePackageJson appPath orgBToken twoManifests = Ok disk1 /\
    holds disk1 appPath written /\
    is_some (field Kdependencies (depFields written)) =
      is_some (field Kdependencies orgBToken)
      || is_some (field Kdependencies (depFields bothFieldsManifest)) /\
    (field Kdependencies (depFields bothFieldsManifest) = None ->
     forall src, field Kdependencies orgBToken = Some src ->
       field Kdependencies (depFields written) =
         Some (alphabetizeKeys (fold_left mergeEntry src []))).
Proof.
  apply (unmangle_field_presence appPath twoManifests bothFieldsManifest orgBToken
           Kdependencies). reflexivity.
Defined.

(** X17.  What [manglePackageJson] removes, exactly: from each dependency
    field, the entries named after a package of the monorepo or after a
    property every object inherits; the token holds them, in the order of
    the manifest and with their versions, except an entry named
    [__proto__], which is in neither; the other members of the manifest
    are as they were. *)
Theorem mangle_removes_packages_and_inherited_names
    (packagesByName : PackagesByName) (packageJsonPath : string)
    (disk : fs) (m : PackageJson) :
  holds disk packageJsonPath m ->
  fields_ok (depFields m) = true ->
  exists removedDependencies mangledPackageJson,
    manglePackageJson packageJsonPath packagesByName disk =
      Ok (removedDependencies, writeFileSync packageJsonPath mangledPackageJson disk) /\
    otherFields mangledPackageJson = otherFields m /\
    forall key,
      field key (depFields mangledPackageJson) =
        option_map
          (filter (fun e => negb (excluded packagesByName (fst e) || inherited (fst e))))
          (field key (depFields m)) /\
      field key removedDependencies =
        option_map
          (filter (fun e => (excluded packagesByName (fst e) || inherited (fst e))
                            && negb (String.eqb (fst e) "__proto__")))
          (field key (depFields m)).
Proof.
  intros Hdisk Hok.
  exists (snd (mangle packagesByName m)), (fst (mangle packagesByName m)).
  split; [|split].
  - unfold manglePackageJson. rewrite (readFileSync_holds _ _ _ Hdisk). simpl.
    now destruct (mangle packagesByName m).
  - apply mangle_otherFields.
  - intros key. destruct (mangle_fields packagesByName m Hok key) as [-> ->].
    destruct (field key (depFields m)) as [o|]; [|split; reflexivity].
    cbn [option_map]. split; f_equal; apply filter_ext; intros e.
    + unfold keptEntry. now rewrite hidden_spec.
    + unfold recordedEntry. now rewrite hidden_spec.
Qed.

Lemma mangle_removes_packages_and_inherited_names_witness :
  manglePackageJson appPath [orgB]
    (writeFileSync appPath inheritedNamesManifest twoManifests) =
    Ok ({| dependencies := Some [("constructor", "1.0.0"); ("@org/b", "2.0.0")];
           devDependencies := Some [("toString", "1.0.0")] |},
        writeFileSync appPath
          {| depFields := {| dependencies := Some [("left-pad", "1.0.0")];
                             devDependencies := Some [("jest", "20.0.0")] |};
             otherFields := [("private", "true")] |}
          (writeFileSync appPath inheritedNamesManifest twoManifests)).
Proof.
  destruct (mangle_removes_packages_and_inherited_names [orgB] appPath
              (writeFileSync appPath inheritedNamesManifest twoManifests)
              inheritedNamesManifest eq_refl eq_refl)
    as [removedDependencies [mangledPackageJson [Hrun _]]].
  reflexivity.
Defined.

End GuardExtras.

(* ================================================================== *)
(** * Further properties of the process wrapper *)
(* ================================================================== *)

Module LifecycleExtras.
Import Mangling Vocabulary LifecycleVocabulary JsFacts ManglingFacts LifecycleFacts.
Import Samples MoreSamples.

(** X7.  When the parent process exits while the child is running,
    [killOnExit] signals that child once, and nothing unmangles: the file
    still holds the mangled manifest and the child's ['exit'] listener is
    still waiting. *)
Theorem parent_exit_signals_child_and_leaves_manifest_mangled
    (args : list string) (spawnArgs : SpawnArgs) (packagesByName : PackagesByName)
    (process_cwd : string) (w : world) (m : PackageJson) :
  holds (disk w) (manifestPath spawnArgs process_cwd) m ->
  hooks_in_range w = true ->
  exists w1,
    runYarnWithPackageJsonMangling args spawnArgs packagesByName process_cwd w =
      Ok (length (children w), w1) /\
    option_map kills (nth_error (children (emitProcessExit w1)) (length (children w)))
      = Some 1 /\
    option_map exitOnce (nth_error (children (emitProcessExit w1)) (length (children w)))
      = Some [onChildExit (manifestPath spawnArgs process_cwd)
                (snd (mangle packagesByName m)) (killOnExit (length (children w)))] /\
    holds (disk (emitProcessExit w1)) (manifestPath spawnArgs process_cwd)
      (fst (mangle packagesByName m)) /\
    trace (emitProcessExit w1) = trace w1.
Proof.
  intros Hdisk Hhooks. eexists. split; [apply run_ok; exact Hdisk|].
  rewrite emitProcessExit_fold. cbn [processExitListeners].
  rewrite fold_left_app. cbn [fold_left].
  match goal with
  | |- context [fold_left killStep (processExitListeners w) ?w1] =>
      destruct (killSteps_frame (length (children w)) (processExitListeners w) w1)
        as [H1 [H2 [_ H4]]]
  end.
  { intros c Hc. now apply hooks_in_range_other. }
  cbn [killStep children disk trace]. rewrite H1, H2, nth_error_set_child, H4.
  cbn [children disk trace]. rewrite Nat.eqb_refl.
  rewrite nth_error_app2 by apply Nat.le_refl. rewrite Nat.sub_diag.
  cbn [nth_error option_map signalled kills exitOnce].
  repeat split. apply holds_writeFileSync.
Qed.

Lemma parent_exit_signals_child_and_leaves_manifest_mangled_witness :
  exists w1,
    runYarnWithPackageJsonMangling ["install"] {| cwd := Some "/repo/packages/app" |}
      [orgB] "/repo" twoPackagesWorld = Ok (0, w1) /\
    option_map kills (nth_error (children (emitProcessExit w1)) 0) = Some 1 /\
    option_map exitOnce (nth_error (children (emitProcessExit w1)) 0)
      = Some [onChildExit appPath (snd (mangle [orgB] bothFieldsManifest))
                (killOnExit 0)] /\
    holds (disk (emitProcessExit w1)) appPath (fst (mangle [orgB] bothFieldsManifest)) /\
    trace (emitProcessExit w1) = trace w1.
Proof.
  apply (parent_exit_signals_child_and_leaves_manifest_mangled ["install"]
           {| cwd := Some "/repo/packages/app" |} [orgB] "/repo" twoPackagesWorld
           bothFieldsManifest); reflexivity.
Defined.

(** X8.  Once the child has emitted ['exit'], the parent's own exit sends
    it no signal and writes nothing: the hook is gone. *)
Theorem parent_exit_after_child_exit_sends_no_signal
    (args : list string) (spawnArgs : SpawnArgs) (packagesByName : PackagesByName)
    (process_cwd : string) (w : world) (m : PackageJson)
    (code : option Z) (signal : option string) :
  holds (disk w) (manifestPath spawnArgs process_cwd) m ->
  hooks_in_range w = true ->
  exists w1 w2,
    runYarnWithPackageJsonMangling args spawnArgs packagesByName process_cwd w =
      Ok (length (children w), w1) /\
    emitChildExit (length (children w)) code signal w1 = Ok w2 /\
    option_map kills (nth_error (children (emitProcessExit w2)) (length (children w)))
      = Some 0 /\
    disk (emitProcessExit w2) = disk w2 /\
    trace (emitProcessExit w2) = trace w2.
Proof.
  intros Hdisk Hhooks. eexists. eexists. split; [apply run_ok; exact Hdisk|]. split.
  - eapply exit_ok.
    + cbn [children]. rewrite nth_error_app2 by apply Nat.le_refl.
      rewrite Nat.sub_diag. reflexivity.
    + reflexivity.
    + cbn [disk]. apply holds_writeFileSync.
  - rewrite emitProcessExit_fold. cbn [processExitListeners].
    rewrite removeListener_last'.
    match goal with
    | |- context [fold_left killStep (processExitListeners w) ?w2] =>
        destruct (killSteps_frame (length (children w)) (processExitListeners w) w2)
          as [H1 [H2 [_ H4]]]
    end.
    { intros c Hc. now apply hooks_in_range_other. }
    rewrite H1, H2, H4. cbn [children disk trace].
    rewrite nth_error_set_child, Nat.eqb_refl.
    rewrite nth_error_app2 by apply Nat.le_refl. rewrite Nat.sub_diag.
    repeat split.
Qed.

Lemma parent_exit_after_child_exit_sends_no_signal_witness :
  exists w1 w2,
    runYarnWithPackageJsonMangling ["install"] {| cwd := Some "/repo/packages/app" |}
      [orgB] "/repo" twoPackagesWorld = Ok (0, w1) /\
    emitChildExit 0 (Some 1%Z) None w1 = Ok w2 /\
    option_map kills (nth_error (children (emitProcessExit w2)) 0) = Some 0 /\
    disk (emitProcessExit w2) = disk w2 /\
    trace (emitProcessExit w2) = trace w2.
Proof.
  apply (parent_exit_after_child_exit_sends_no_signal ["install"]
           {| cwd := Some "/repo/packages/app" |} [orgB] "/repo" twoPackagesWorld
           bothFieldsManifest (Some 1%Z) None); reflexivity.
Defined.



End LifecycleExtras.

(* ================================================================== *)
(** * Further properties of the selection engine *)
(* ================================================================== *)

Module SelectionExtras.
Import Yerna Vocabulary SelectionVocabulary JsFacts TraversalFacts SelectionFacts.
Import SelectionExtraFacts TraversalExtraFacts PermutationFacts Samples MoreSamples.

(** X10.  What [getSelectedPackages] selects, exactly: a name is selected
    when, and only when, it is the name of a package that
    [applyIncludeExclude] accepts, or is found from such a package along
    [localDependents] (with [--dependents]), or is found along
    [localDependencies] from one of those (with [--dependencies]).  So the
    dependencies of a dependent are selected, the dependents of a
    dependency are not. *)
Theorem selection_is_the_expansion_of_the_accepted
    (commander : Commander) (RegExp : Type) (newRegExp : string -> option RegExp)
    (test : RegExp -> string -> bool) (allPackages : PackagesByName) :
  compile_all RegExp newRegExp (include commander) = true ->
  compile_all RegExp newRegExp (exclude commander) = true ->
  graph_ok commander allPackages = true ->
  exists selected,
    getSelectedPackages commander RegExp newRegExp test true allPackages noFilter =
      Ok selected /\
    (forall q, In q selected -> In q allPackages) /\
    forall n, In n (map name selected) <->
      exists F, In F allPackages /\
                applyIncludeExclude commander RegExp newRegExp test F = Ok true /\
                expansion commander allPackages F n.
Proof.
  intros Hi He Hg.
  destruct (selection_exact commander RegExp newRegExp test allPackages Hi He Hg)
    as [selected [Hrun [_ [_ [Hall Hexact]]]]].
  exists selected. split; [|split; assumption].
  rewrite Hrun. now rewrite filter_noFilter.
Qed.

Lemma selection_is_the_expansion_of_the_accepted_witness :
  exists selected,
    getSelectedPackages bothWays string literalRegExp literalTest true diamond noFilter =
      Ok selected /\
    (forall q, In q selected -> In q diamond) /\
    forall n, In n (map name selected) <->
      exists F, In F diamond /\
                applyIncludeExclude bothWays string literalRegExp literalTest F = Ok true /\
                expansion bothWays diamond F n.
Proof.
  apply (selection_is_the_expansion_of_the_accepted bothWays string literalRegExp
           literalTest diamond); reflexivity.
Defined.

(** X11.  Without [--dependents] and [--dependencies] the selection is
    the packages [applyIncludeExclude] accepts and no other, and the edges
    of the graph are not looked at: a package naming a missing package
    does no harm. *)
Theorem without_expansion_selection_is_the_filter
    (commander : Commander) (RegExp : Type) (newRegExp : string -> option RegExp)
    (test : RegExp -> string -> bool) (allPackages : PackagesByName) :
  dependents commander = false ->
  Yerna.dependencies commander = false ->
  compile_all RegExp newRegExp (include commander) = true ->
  compile_all RegExp newRegExp (exclude commander) = true ->
  exists selected,
    getSelectedPackages commander RegExp newRegExp test true allPackages noFilter =
      Ok selected /\
    forall n, In n (map name selected) <->
      exists F, In F allPackages /\ name F = n /\
                applyIncludeExclude commander RegExp newRegExp test F = Ok true.
Proof.
  intros Hd1 Hd2 Hi He.
  assert (Hg : graph_ok commander allPackages = true)
    by (unfold graph_ok; now rewrite Hd1, Hd2).
  destruct (selection_exact commander RegExp newRegExp test allPackages Hi He Hg)
    as [selected [Hrun [_ [_ [_ Hexact]]]]].
  exists selected. split; [rewrite Hrun; now rewrite filter_noFilter|].
  intros n. rewrite Hexact. unfold expansion, with_dependents. rewrite Hd1, Hd2.
  split.
  - intros [F [HF [Hacc [[H|[H _]]|[H _]]]]]; try discriminate.
    exists F. repeat split; congruence.
  - intros [F [HF [Hn Hacc]]]. exists F. repeat split; try assumption.
    left. left. congruence.
Qed.

Lemma without_expansion_selection_is_the_filter_witness :
  exists selected,
    getSelectedPackages filterOnly string literalRegExp literalTest true broken noFilter =
      Ok selected /\
    forall n, In n (map name selected) <->
      exists F, In F broken /\ name F = n /\
                applyIncludeExclude filterOnly string literalRegExp literalTest F = Ok true.
Proof.
  apply (without_expansion_selection_is_the_filter filterOnly string literalRegExp
           literalTest broken); reflexivity.
Defined.

(** X12.  [findTransitiveDependentsOrDependencies] throws a TypeError when
    the root is not the name of a package, and when a package found from
    the root names, in the edges followed, something [allPackages] has
    neither as a package nor as an inherited member; it never throws
    anything else. *)
Theorem traversal_throws_on_missing_package
    (allPackages : PackagesByName) (rootPackageName : string) (key : typeKey) :
  (forall e, findTransitiveDependentsOrDependencies allPackages rootPackageName key
             = Throw e -> e = TypeError) /\
  (lookup allPackages rootPackageName = None \/
   dangling allPackages key rootPackageName ->
   findTransitiveDependentsOrDependencies allPackages rootPackageName key
   = Throw TypeError).
Proof.
  assert (Hthrows : forall e,
             findTransitiveDependentsOrDependencies allPackages rootPackageName key
             = Throw e -> e = TypeError).
  { intros e H. assert (Htotal := findTransitive_total allPackages rootPackageName key).
    unfold findTransitiveDependentsOrDependencies in *.
    destruct (whileQueue _ _ _ _ _) as [sel|e'] eqn:Hrun; cbn [bind] in *.
    - now apply collect_throws in H.
    - injection H as <-. apply whileQueue_throws in Hrun.
      destruct Hrun as [E|E]; [exact E | subst e'; congruence]. }
  split; [assumption|]. intros [Hroot|Hbad].
  - (* the root is [undefined], or a member every object inherits *)
    unfold findTransitiveDependentsOrDependencies, get, budget.
    rewrite Hroot. destruct (inherited rootPackageName); [|reflexivity].
    cbn [whileQueue]. now destruct (inheritedName rootPackageName).
  - destruct (findTransitiveDependentsOrDependencies allPackages rootPackageName key)
      as [ps|e] eqn:Hrun.
    + apply findTransitive_Ok_closed in Hrun. destruct Hrun as [_ Hclosed].
      contradiction.
    + f_equal. now apply Hthrows.
Qed.

Lemma traversal_throws_on_missing_package_witness :
  findTransitiveDependentsOrDependencies broken "a" KlocalDependents = Throw TypeError.
Proof.
  apply (traversal_throws_on_missing_package broken "a" KlocalDependents).
  right. exists "b", (pkg "b" ["a"] ["ghost"]), "ghost". split; [|split; [|split]].
  - apply (reaches_edge broken KlocalDependents "a" "a" "b" (pkg "a" [] ["b"])).
    + apply (reaches_root broken KlocalDependents "a" (pkg "a" [] ["b"])). reflexivity.
    + reflexivity.
    + simpl. tauto.
  - reflexivity.
  - simpl. tauto.
  - reflexivity.
Defined.

(** X18.  An edge named after a property every object inherits leads to
    a function or to [Object.prototype], not to [undefined].  For a root
    package whose one followed edge is such a name and no package: when the
    member is the function whose name is the root's (constructor, for a
    root named Object), it is taken for a package collected already and
    the result is the root alone; in every other case reading its edges
    throws a TypeError. *)
Theorem traversal_meets_inherited_member
    (allPackages : PackagesByName) (rootPackageName : string) (key : typeKey)
    (root : Package) (k : string) :
  lookup allPackages rootPackageName = Some root ->
  edges key root = [k] ->
  lookup allPackages k = None ->
  inherited k = true ->
  findTransitiveDependentsOrDependencies allPackages rootPackageName key =
  match inheritedName k with
  | Some n => if String.eqb n rootPackageName then Ok [root] else Throw TypeError
  | None => Throw TypeError
  end.
Proof.
  intros Hroot Hedges Hk Hinh.
  destruct (lookup_Some _ _ _ Hroot) as [Hin Hname].
  assert (Hsum : 1 <= list_sum (map (fun p => length (edges key p)) allPackages)).
  { clear Hroot Hname Hk. induction allPackages as [|q l IH]; [destruct Hin|].
    simpl. destruct Hin as [->|Hin].
    - rewrite Hedges. simpl. lia.
    - specialize (IH Hin). lia. }
  unfold findTransitiveDependentsOrDependencies, budget.
  destruct (list_sum _) as [|fuel]; [lia|].
  rewrite (get_lookup _ _ _ Hroot).
  cbn [whileQueue notIndexOf existsb negb app].
  rewrite Hedges. cbn [map app]. unfold get at 1. rewrite Hk, Hinh.
  cbn [whileQueue]. destruct (inheritedName k) as [n|]; [|reflexivity].
  unfold notIndexOf. cbn [existsb app]. rewrite Hname, orb_false_r.
  destruct (String.eqb n rootPackageName); cbn [negb bind]; [|reflexivity].
  destruct fuel; cbn [whileQueue bind collect];
    rewrite (get_lookup _ _ _ Hroot); reflexivity.
Qed.

Lemma traversal_meets_inherited_member_witness :
  findTransitiveDependentsOrDependencies objectGraph "Object" KlocalDependents =
  Ok [pkg "Object" [] ["constructor"]].
Proof.
  apply (traversal_meets_inherited_member objectGraph "Object" KlocalDependents
           (pkg "Object" [] ["constructor"]) "constructor"); reflexivity.
Defined.

(** X13.  [applyIncludeExclude] reads the include patterns in order and
    stops at the first that decides: if, after patterns that compile and
    do not match, comes a pattern that does not compile, the SyntaxError is
    thrown; if comes a pattern that matches, the patterns after it are not
    compiled, so that one which would not compile goes unnoticed. *)
Theorem first_deciding_include_pattern
    (commander : Commander) (RegExp : Type) (newRegExp : string -> option RegExp)
    (test : RegExp -> string -> bool) (package : Package)
    (before after : list string) (source : string) :
  include commander = before ++ source :: after ->
  compile_all RegExp newRegExp before = true ->
  (forall s, In s before -> matches RegExp newRegExp test s (name package) = false) ->
  (newRegExp source = None ->
   applyIncludeExclude commander RegExp newRegExp test package = Throw SyntaxError) /\
  (matches RegExp newRegExp test source (name package) = true ->
   compile_all RegExp newRegExp (exclude commander) = true ->
   applyIncludeExclude commander RegExp newRegExp test package =
     Ok (negb (existsb (fun s => matches RegExp newRegExp test s (name package))
                 (exclude commander)))).
Proof.
  intros Hinc Hcomp Hnone.
  assert (Hskip : forall rest,
             some_test RegExp newRegExp test (before ++ rest) (name package) =
             some_test RegExp newRegExp test rest (name package)).
  { intros rest. clear Hinc. induction before as [|s before IH]; [reflexivity|].
    simpl in Hcomp. apply andb_true_iff in Hcomp. destruct Hcomp as [Hs Hcomp].
    assert (Hm := Hnone s (or_introl eq_refl)). unfold matches in Hm.
    simpl. destruct (newRegExp s) as [r|]; [|discriminate].
    rewrite Hm. apply IH; [assumption|]. intros s' Hs'. apply Hnone. now right. }
  assert (Hlen : Nat.eqb (length (include commander)) 0 = false).
  { rewrite Hinc, length_app. simpl. apply Nat.eqb_neq. lia. }
  unfold applyIncludeExclude. rewrite Hlen, Hinc, Hskip. simpl. split.
  - intros Hbad. now rewrite Hbad.
  - intros Hm Hex. unfold matches in Hm.
    destruct (newRegExp source) as [r|]; [|discriminate]. rewrite Hm. simpl.
    rewrite (some_test_ok RegExp newRegExp test _ _ Hex).
    destruct (exclude commander); reflexivity.
Qed.

Lemma first_deciding_include_pattern_witness :
  (literalRegExp "a" = None ->
   applyIncludeExclude lateBadPattern string literalRegExp literalTest
     (pkg "a" [] ["b"; "c"]) = Throw SyntaxError) /\
  (matches string literalRegExp literalTest "a" "a" = true ->
   compile_all string literalRegExp (exclude lateBadPattern) = true ->
   applyIncludeExclude lateBadPattern string literalRegExp literalTest
     (pkg "a" [] ["b"; "c"]) =
     Ok (negb (existsb (fun s => matches string literalRegExp literalTest s "a")
                 (exclude lateBadPattern)))).
Proof.
  apply (first_deciding_include_pattern lateBadPattern string literalRegExp literalTest
           (pkg "a" [] ["b"; "c"]) ["b"] ["("] "a").
  - reflexivity.
  - reflexivity.
  - intros s [<-|[]]. reflexivity.
Defined.

(** X14.  The selection does not depend on the order in which
    [packagesByName] lists the packages: with distinct names, two listings
    of the same packages give the same selected packages in the same
    order. *)
Theorem selection_ignores_the_order_of_packages
    (commander : Commander) (RegExp : Type) (newRegExp : string -> option RegExp)
    (test : RegExp -> string -> bool) (allPackages allPackages' : PackagesByName)
    (additionalFilter : Package -> bool) :
  distinct (map name allPackages) = true ->
  Permutation allPackages allPackages' ->
  compile_all RegExp newRegExp (include commander) = true ->
  compile_all RegExp newRegExp (exclude commander) = true ->
  graph_ok commander allPackages = true ->
  exists selected,
    getSelectedPackages commander RegExp newRegExp test true allPackages
      additionalFilter = Ok selected /\
    getSelectedPackages commander RegExp newRegExp test true allPackages'
      additionalFilter = Ok selected.
Proof.
  intros Hd Hperm Hi He Hg.
  assert (Hd' : distinct (map name allPackages') = true).
  { apply distinct_NoDup. apply distinct_NoDup in Hd.
    exact (Permutation_NoDup (Permutation_map name Hperm) Hd). }
  assert (Hg' := graph_ok_perm commander _ _ Hd Hperm Hg).
  destruct (selection_exact commander RegExp newRegExp test allPackages Hi He Hg)
    as [sel [Hrun [_ [Hsorted [Hall Hexact]]]]].
  destruct (selection_exact commander RegExp newRegExp test allPackages' Hi He Hg')
    as [sel' [Hrun' [_ [Hsorted' [Hall' Hexact']]]]].
  assert (Hsame : sel = sel').
  { apply (same_names_same_packages allPackages).
    - apply sorted_same_members; try assumption.
      intros n. rewrite Hexact, Hexact'. split.
      + intros [F [HF [Hacc Hexp]]]. exists F. split; [|split; [assumption|]].
        * exact (Permutation_in _ Hperm HF).
        * now apply (expansion_perm commander allPackages).
      + intros [F [HF [Hacc Hexp]]]. exists F. split; [|split; [assumption|]].
        * exact (Permutation_in _ (Permutation_sym Hperm) HF).
        * apply (expansion_perm commander allPackages'); try assumption.
          now apply Permutation_sym.
    - intros q Hq. apply lookup_distinct; [assumption | now apply Hall].
    - intros q Hq. apply lookup_distinct; [assumption|].
      apply (Permutation_in _ (Permutation_sym Hperm)). now apply Hall'. }
  exists (filter additionalFilter sel). split; [apply Hrun|].
  rewrite Hsame. apply Hrun'.
Qed.

Lemma selection_ignores_the_order_of_packages_witness :
  exists selected,
    getSelectedPackages onlyA string literalRegExp literalTest true diamond
      (hasScript "build") = Ok selected /\
    getSelectedPackages onlyA string literalRegExp literalTest true (rev diamond)
      (hasScript "build") = Ok selected.
Proof.
  apply (selection_ignores_the_order_of_packages onlyA string literalRegExp literalTest
           diamond (rev diamond) (hasScript "build")); try reflexivity.
  apply Permutation_rev.
Defined.

End SelectionExtras.

(* ================================================================== *)
(** * Further properties of the parallel option *)
(* ================================================================== *)

Module ParallelExtras.
Import Yerna Vocabulary ParallelOption.

(** X15.  [optParallel] returns the number its argument converts to, and
    does so exactly when that number is a positive integer or +Infinity;
    in every other case, NaN and [null] included, it leaves through
    [process.exit(1)] and through nothing else. *)
Theorem optParallel_accepts_exactly
    (ToNumber : string -> number) (n : option string) :
  (forall x, optParallel ToNumber n = Ok x <->
     exists s, n = Some s /\ x = ToNumber s /\
               (x = Infinity false \/ exists k, is_positive_integer x k)) /\
  (forall e, optParallel ToNumber n = Throw e -> e = ProcessExit 1).
Proof.
  destruct n as [s|].
  - destruct (optParallel_spec ToNumber s) as [[Hrun Hacc]|[Hrun [Hinf Hint]]];
      rewrite Hrun; split.
    + intros x. split.
      * intros [= <-]. exists s. repeat split. exact Hacc.
      * intros [s' [[= <-] [-> _]]]. reflexivity.
    + discriminate.
    + intros x. split; [discriminate|].
      intros [s' [[= <-] [-> [H|H]]]]; contradiction.
    + now intros e [= <-].
  - split.
    + intros x. split; [discriminate|]. intros [s [H _]]. discriminate.
    + now intros e [= <-].
Qed.

End ParallelExtras.
